(** * Recurrence relation solver ([ccp.py]): a shallow embedding

    The development follows the class [RecurrenceRelationSolver] of
    [ccp.py]: Python strings are sequences of Unicode code points, the
    regular expressions of the parser and of the growth classifier are run
    by a backtracking matcher with the priorities of Python's [re] module,
    floating-point numbers are IEEE binary64 values, and the methods are
    computations in a state-and-exception monad over the attributes of
    [self]. *)

From Stdlib Require Import String Ascii.
From Stdlib Require Import List Bool Arith ZArith NArith Lia.
From Stdlib Require Import SpecFloat.
Import ListNotations.

Set Implicit Arguments.
Local Open Scope Z_scope.

(** ** Python strings *)

Module PyStr.

(** A character is a Unicode code point; a [str] is a sequence of them. *)
Definition char := N.
Definition str := list char.

Definition ch (a : ascii) : char := N_of_ascii a.

(** Decoding of the UTF-8 bytes of a Rocq string literal. *)
Fixpoint utf8 (l : list N) : str :=
  match l with
  | [] => []
  | b0 :: l1 =>
    if (b0 <? 128)%N then b0 :: utf8 l1 else
    match l1 with
    | [] => [b0]
    | b1 :: l2 =>
      if (b0 <? 224)%N then ((b0 - 192) * 64 + (b1 - 128))%N :: utf8 l2 else
      match l2 with
      | [] => [b0; b1]
      | b2 :: l3 =>
        if (b0 <? 240)%N
        then ((b0 - 224) * 4096 + (b1 - 128) * 64 + (b2 - 128))%N :: utf8 l3
        else
        match l3 with
        | [] => [b0; b1; b2]
        | b3 :: l4 =>
          ((b0 - 240) * 262144 + (b1 - 128) * 4096 + (b2 - 128) * 64
           + (b3 - 128))%N :: utf8 l4
        end
      end
    end
  end.

Definition u (s : string) : str :=
  utf8 (map N_of_ascii (list_ascii_of_string s)).
Arguments u s : simpl never.

Definition str_eqb (s t : str) : bool :=
  if list_eq_dec N.eq_dec s t then true else false.

(** [s.startswith(p)] *)
Fixpoint startswith (p s : str) : bool :=
  match p, s with
  | [], _ => true
  | a :: p', b :: s' => (a =? b)%N && startswith p' s'
  | _ :: _, [] => false
  end.

(** [sub in s] *)
Fixpoint contains (sub s : str) : bool :=
  startswith sub s ||
  match s with
  | [] => false
  | _ :: s' => contains sub s'
  end.

(** [str.isspace] on one character; also the class [\s] of [re] on [str]
    patterns. *)
Definition isspace (c : char) : bool :=
  ((9 <=? c) && (c <=? 13) || (28 <=? c) && (c <=? 32) || (c =? 133)
   || (c =? 160) || (c =? 5760) || (8192 <=? c) && (c <=? 8202)
   || (c =? 8232) || (c =? 8233) || (c =? 8239) || (c =? 8287)
   || (c =? 12288))%N.

(** The code points of the digit zero of every decimal script (general
    category Nd, Unicode 14); the nine digits that follow each are its
    digits 1 to 9. *)
Definition decimal_zeros : list N :=
  [0x30; 0x660; 0x6F0; 0x7C0; 0x966; 0x9E6; 0xA66; 0xAE6; 0xB66; 0xBE6;
   0xC66; 0xCE6; 0xD66; 0xDE6; 0xE50; 0xED0; 0xF20; 0x1040; 0x1090; 0x17E0;
   0x1810; 0x1946; 0x19D0; 0x1A80; 0x1A90; 0x1B50; 0x1BB0; 0x1C40; 0x1C50;
   0xA620; 0xA8D0; 0xA900; 0xA9D0; 0xA9F0; 0xAA50; 0xABF0; 0xFF10; 0x104A0;
   0x10D30; 0x11066; 0x110F0; 0x11136; 0x111D0; 0x112F0; 0x11450; 0x114D0;
   0x11650; 0x116C0; 0x11730; 0x118E0; 0x11950; 0x11C50; 0x11D50; 0x11DA0;
   0x16A60; 0x16AC0; 0x16B50; 0x1D7CE; 0x1D7D8; 0x1D7E2; 0x1D7EC; 0x1D7F6;
   0x1E140; 0x1E2F0; 0x1E950; 0x1FBF0]%N.

(** [unicodedata.decimal]: the value of a decimal digit. *)
Definition decimal (c : char) : option Z :=
  match find (fun z => (z <=? c) && (c <? z + 10))%N decimal_zeros with
  | Some z => Some (Z.of_N (c - z))
  | None => None
  end.

(** [str.isdecimal] on one character; also the class [\d] of [re]. *)
Definition isdecimal (c : char) : bool :=
  match decimal c with Some _ => true | None => false end.

(** [s.lstrip()], [s.rstrip()] and [s.strip()] *)
Fixpoint lstrip (s : str) : str :=
  match s with
  | c :: s' => if isspace c then lstrip s' else s
  | [] => []
  end.

Definition rstrip (s : str) : str := rev (lstrip (rev s)).

Definition strip (s : str) : str := rstrip (lstrip s).

(** [s.replace(old, new)] for a non-empty [old]: the occurrences of [old]
    are found from left to right and do not overlap.  [skip] counts the
    characters of a found occurrence that are still to be dropped. *)
Fixpoint replace_from (old new : str) (skip : nat) (s : str) : str :=
  match s with
  | [] => []
  | c :: s' =>
    match skip with
    | S k => replace_from old new k s'
    | O =>
      if startswith old s
      then new ++ replace_from old new (pred (length old)) s'
      else c :: replace_from old new O s'
    end
  end.

Definition replace (old new s : str) : str := replace_from old new O s.

(** [str(n)] for an integer [n]. *)
Fixpoint digits_of_pos (fuel : nat) (n : Z) (acc : str) : str :=
  match fuel with
  | O => acc
  | S k =>
    let acc' := Z.to_N (48 + n mod 10) :: acc in
    if n <? 10 then acc' else digits_of_pos k (n / 10) acc'
  end.

Definition str_of_Z (n : Z) : str :=
  if n <? 0
  then ch "-" :: digits_of_pos (S (Z.to_nat (Z.log2 (- n)))) (- n) []
  else digits_of_pos (S (Z.to_nat (Z.log2 n))) n [].

End PyStr.

Import PyStr.

(** ** Regular expressions, as Python's [re] runs them *)

Module Re.

(** The fragment of the pattern syntax that [ccp.py] uses.  Quantifiers are
    greedy; [Grp i r] is the capturing group number [i]. *)
Inductive regex : Type :=
| Eps
| Lit (a : char)
| Cls (p : char -> bool)
| Cat (r1 r2 : regex)
| Opt (r : regex)
| Star (r : regex)
| Plus (r : regex)
| Grp (i : nat) (r : regex).

(** The text captured by each group that took part in the match. *)
Definition groups := list (nat * str).

Fixpoint group (g : groups) (i : nat) : option str :=
  match g with
  | [] => None
  | (j, t) :: g' => if Nat.eqb i j then Some t else group g' i
  end.

Section Matcher.
Variable R : Type.

(** What remains to be matched after a sub-pattern: it receives the rest
    of the subject and the groups closed so far, and fails with [None]. *)
Definition cont := str -> groups -> option R.

Definition orelse (x y : option R) : option R :=
  match x with Some _ => x | None => y end.

(** Greedy repetition of [step]: one more round is tried before leaving
    the loop, and a round has to consume a character. *)
Fixpoint repeat (step : cont -> cont) (k : cont) (fuel : nat) : cont :=
  fun s g =>
  match fuel with
  | O => k s g
  | S n =>
    orelse
      (step (fun s' g' =>
               if (length s' <? length s)%nat then repeat step k n s' g'
               else None) s g)
      (k s g)
  end.

(** Backtracking matcher in continuation-passing style: the alternatives
    are explored in the order in which [re] explores them. *)
Fixpoint exec (r : regex) (k : cont) : cont :=
  fun s g =>
  match r with
  | Eps => k s g
  | Lit a =>
    match s with
    | c :: s' => if (c =? a)%N then k s' g else None
    | [] => None
    end
  | Cls p =>
    match s with
    | c :: s' => if p c then k s' g else None
    | [] => None
    end
  | Cat r1 r2 => exec r1 (exec r2 k) s g
  | Opt r1 => orelse (exec r1 k s g) (k s g)
  | Star r1 => repeat (exec r1) k (length s) s g
  | Plus r1 => exec r1 (fun s' g' => repeat (exec r1) k (length s') s' g') s g
  | Grp i r1 =>
    exec r1 (fun s' g' =>
               k s' ((i, firstn (length s - length s') s) :: g')) s g
  end.
End Matcher.

(** A match object: the groups and what follows the matched text. *)
Record Match := { m_groups : groups; m_rest : str }.

(** [re.match(r, s)]: the pattern is tried at the start of [s] only. *)
Definition re_match (r : regex) (s : str) : option Match :=
  exec r (fun s' g => Some {| m_groups := g; m_rest := s' |}) s [].

(** [re.search(r, s)]: the first position of [s] at which [r] matches. *)
Fixpoint re_search (r : regex) (s : str) : option Match :=
  match re_match r s with
  | Some m => Some m
  | None =>
    match s with
    | [] => None
    | _ :: s' => re_search r s'
    end
  end.

(** [re.finditer(r, s)] for a pattern that matches no empty text: the
    matches from left to right, each search starting where the previous
    match ended. *)
Fixpoint finditer_from (r : regex) (fuel : nat) (s : str) : list Match :=
  match fuel with
  | O => []
  | S n =>
    match re_search r s with
    | None => []
    | Some m =>
      if (length (m_rest m) <? length s)%nat
      then m :: finditer_from r n (m_rest m)
      else []
    end
  end.

Definition finditer (r : regex) (s : str) : list Match :=
  finditer_from r (length s) s.

(** A sequence of sub-patterns, and a literal text. *)
Definition seq (rs : list regex) : regex := fold_right Cat Eps rs.
Definition lits (s : str) : regex := seq (map Lit s).

(** The classes [\s], [\d] and [.]  *)
Definition ws : regex := Cls isspace.
Definition digit : regex := Cls isdecimal.
Definition dot : regex := Cls (fun c => negb (c =? 10)%N).

End Re.

Import Re.

(** ** Python floats: IEEE binary64 *)

Module Float64.

Definition float := spec_float.

Definition prec : Z := 53.
Definition emax : Z := 1024.

Definition div : float -> float -> float := SFdiv prec emax.
Definition sub : float -> float -> float := SFsub prec emax.
Definition abs : float -> float := SFabs.
Definition ltb : float -> float -> bool := SFltb.
Definition leb : float -> float -> bool := SFleb.

(** The float nearest to an integer (ties to even). *)
Definition of_Z (n : Z) : float := binary_normalize prec emax n 0 false.

(** The float nearest to the quotient [n / d] of two positive integers. *)
Definition of_ratio (n d : Z) : float :=
  match n with
  | Z0 => S754_zero false
  | _ =>
    let '(q, e, l) := SFdiv_core_binary prec emax n 0 d 0 in
    binary_round_aux prec emax false q e l
  end.

(** The float nearest to [n * 10 ^ k]. *)
Definition of_decimal (n k : Z) : float :=
  if 0 <=? k then of_Z (n * 10 ^ k) else of_ratio n (10 ^ (- k)).

Definition eqb_exact (x y : float) : bool :=
  match x, y with
  | S754_finite s m e, S754_finite s' m' e' =>
    Bool.eqb s s' && (m =? m')%positive && (e =? e')
  | S754_zero s, S754_zero s' => Bool.eqb s s'
  | S754_infinity s, S754_infinity s' => Bool.eqb s s'
  | S754_nan, S754_nan => true
  | _, _ => false
  end.

(** *** [repr] of a float: the shortest decimal text that reads back as the
    same float *)

(** A positive float [m * 2 ^ e] as a fraction. *)
Definition num (m : positive) (e : Z) : Z := Z.pos m * 2 ^ (Z.max e 0).
Definition den (e : Z) : Z := 2 ^ (Z.max (- e) 0).

(** The decimal point: the least [p] with [n / d < 10 ^ p]. *)
Fixpoint decpt_from (fuel : nat) (n d p : Z) : Z :=
  match fuel with
  | O => p
  | S k =>
    if (if 0 <=? p then n <? d * 10 ^ p else n * 10 ^ (- p) <? d)
    then p else decpt_from k n d (p + 1)
  end.

Definition decpt (n d : Z) : Z :=
  decpt_from 8 n d ((Z.log2 n - Z.log2 d) * 30103 / 100000 - 2).

(** The candidates with [nd] significant digits below and above [n / d],
    scaled to integers, and the one that reads back as [x], if any; of two
    that do, the nearer to [n / d]. *)
Definition candidate (x : float) (n d p nd : Z) : option Z :=
  let sh := nd - p in
  let n' := if 0 <=? sh then n * 10 ^ sh else n in
  let d' := if 0 <=? sh then d else d * 10 ^ (- sh) in
  let lo := n' / d' in
  let hi := if lo * d' =? n' then lo else lo + 1 in
  let ok c := (0 <? c) && eqb_exact (of_decimal c (- sh)) x in
  match ok lo, ok hi with
  | true, true =>
    if (n' - lo * d') <=? (hi * d' - n') then Some lo else Some hi
  | true, false => Some lo
  | false, true => Some hi
  | false, false => None
  end.

Fixpoint shortest (fuel : nat) (x : float) (n d p nd : Z) : Z * Z :=
  match fuel with
  | O => (0, 0)
  | S k =>
    match candidate x n d p nd with
    | Some c => (c, nd)
    | None => shortest k x n d p (nd + 1)
    end
  end.

Fixpoint strip_zeros (fuel : nat) (c p : Z) : Z * Z :=
  match fuel with
  | O => (c, p)
  | S k => if c mod 10 =? 0 then strip_zeros k (c / 10) (p + 1) else (c, p)
  end.

(** The significant digits of [x] and the position of the decimal point:
    [x = 0.d1...dn * 10 ^ pt]. *)
Definition digits_and_point (x : float) (m : positive) (e : Z) : str * Z :=
  let n := num m e in
  let d := den e in
  let p := decpt n d in
  let '(c, nd) := shortest 17 x n d p 1 in
  let '(c', z) := strip_zeros 17 c 0 in
  let ds := str_of_Z c' in
  (ds, Z.of_nat (length ds) + z + (p - nd)).

Definition zeros (n : Z) : str := List.repeat (ch "0") (Z.to_nat n).

Definition repr_finite (ds : str) (pt : Z) : str :=
  if (pt <=? -4) || (16 <? pt) then
    let e := pt - 1 in
    let mant :=
      match ds with
      | [] => []
      | [d0] => [d0]
      | d0 :: tl => d0 :: ch "." :: tl
      end in
    let ex := str_of_Z (Z.abs e) in
    mant ++ [ch "e"; if e <? 0 then ch "-" else ch "+"]
         ++ (if Z.abs e <? 10 then ch "0" :: ex else ex)
  else if pt <=? 0 then u "0." ++ zeros (- pt) ++ ds
  else if Z.of_nat (length ds) <=? pt
       then ds ++ zeros (pt - Z.of_nat (length ds)) ++ u ".0"
  else firstn (Z.to_nat pt) ds ++ ch "." :: skipn (Z.to_nat pt) ds.

Definition sign (s : bool) : str := if s then [ch "-"] else [].

(** [repr(x)], which is also [str(x)] and [format(x, "")]. *)
Definition repr (x : float) : str :=
  match x with
  | S754_nan => u "nan"
  | S754_infinity s => sign s ++ u "inf"
  | S754_zero s => sign s ++ u "0.0"
  | S754_finite s m e =>
    let '(ds, pt) := digits_and_point (S754_finite false m e) m e in
    sign s ++ repr_finite ds pt
  end.

(** [format(x, ".6f")]: six digits after the point, the exact value being
    rounded to the nearest, ties to even. *)
Definition format_6f (x : float) : str :=
  match x with
  | S754_nan => u "nan"
  | S754_infinity s => sign s ++ u "inf"
  | S754_zero s => sign s ++ u "0.000000"
  | S754_finite s m e =>
    let n := num m e * 1000000 in
    let d := den e in
    let q := n / d in
    let r := n - q * d in
    let q' := if (d <? 2 * r) || ((2 * r =? d) && Z.odd q) then q + 1 else q in
    let frac := str_of_Z (q' mod 1000000) in
    sign s ++ str_of_Z (q' / 1000000) ++ ch "."
           :: zeros (6 - Z.of_nat (length frac)) ++ frac
  end.

End Float64.

Import Float64.

(** ** What the program takes from its runtime *)

(** Services that [ccp.py] calls and does not define, and whose results
    depend on the platform: the case mapping of the Unicode database behind
    [str.lower], the natural logarithm of the C library behind [numpy.log],
    the text [repr] gives for a numpy scalar, and the clock behind
    [time.time] (its successive readings). *)
Record Platform := {
  str_lower : str -> str;
  libm_log : float -> float;
  np_float_repr : float -> str;
  time_time : nat -> float
}.

(** ** Values, exceptions and the state of the solver object *)

Inductive exn := AttributeError | ValueError | TypeError.

Inductive outcome (A : Type) : Type :=
| Ret (a : A)
| Raise (e : exn).
Arguments Ret {A} a.
Arguments Raise {A} e.

(** The numbers the program handles: [int], [float] and [None]. *)
Inductive pyval := PyInt (n : Z) | PyFloat (x : float) | PyNone.

(** A subproblem [{'a': a, 'b': b}]. *)
Record Subproblem := { sub_a : Z; sub_b : Z }.

(** The dictionary stored in [self.recurrence], by its ['type']. *)
Inductive Recurrence :=
| complex_divide_and_conquer (subproblems : list Subproblem) (f_n : str)
| divide_and_conquer (a b : Z) (f_n : str)
| decrease_and_conquer (d : Z) (f_n : str).

(** The attributes of a [RecurrenceRelationSolver]; [ticks] counts the
    readings of the clock taken so far. *)
Record Solver := {
  recurrence : option Recurrence;
  base_cases : list (Z * pyval);
  solution : option str;
  solution_method : option str;
  execution_time : pyval;
  steps : list str;
  asymptotic_notation : option str;
  ticks : nat
}.

(** [__init__] *)
Definition init : Solver := {|
  recurrence := None;
  base_cases := [];
  solution := None;
  solution_method := None;
  execution_time := PyInt 0;
  steps := [];
  asymptotic_notation := None;
  ticks := O
|}.

(** A method body: it runs on the current attributes of [self] and returns
    a value or raises, and leaves the attributes as it mutated them. *)
Definition M (A : Type) : Type := Solver -> outcome A * Solver.

Definition ret {A} (a : A) : M A := fun st => (Ret a, st).
Definition raise {A} (e : exn) : M A := fun st => (Raise e, st).
Definition bind {A B} (c : M A) (k : A -> M B) : M B :=
  fun st =>
    match c st with
    | (Ret a, st') => k a st'
    | (Raise e, st') => (Raise e, st')
    end.
Definition lift {A} (o : outcome A) : M A := fun st => (o, st).
Definition get {A} (proj : Solver -> A) : M A := fun st => (Ret (proj st), st).
Definition modify (f : Solver -> Solver) : M unit := fun st => (Ret tt, f st).

Declare Scope py_scope.
Delimit Scope py_scope with py.
Notation "x <- c ;; k" := (bind c (fun x => k))
  (at level 61, c at next level, right associativity) : py_scope.
Notation "c ;; k" := (bind c (fun _ => k))
  (at level 61, right associativity) : py_scope.
Open Scope py_scope.

Fixpoint mapM {A B} (f : A -> M B) (l : list A) : M (list B) :=
  match l with
  | [] => ret []
  | x :: l' => y <- f x ;; ys <- mapM f l' ;; ret (y :: ys)
  end.

(** Assignments to the attributes of [self]. *)
Definition set_recurrence (r : option Recurrence) : M unit :=
  modify (fun st => {|
    recurrence := r; base_cases := base_cases st; solution := solution st;
    solution_method := solution_method st;
    execution_time := execution_time st; steps := steps st;
    asymptotic_notation := asymptotic_notation st; ticks := ticks st |}).
Definition set_base_cases (b : list (Z * pyval)) : M unit :=
  modify (fun st => {|
    recurrence := recurrence st; base_cases := b; solution := solution st;
    solution_method := solution_method st;
    execution_time := execution_time st; steps := steps st;
    asymptotic_notation := asymptotic_notation st; ticks := ticks st |}).
Definition set_solution (x : option str) : M unit :=
  modify (fun st => {|
    recurrence := recurrence st; base_cases := base_cases st; solution := x;
    solution_method := solution_method st;
    execution_time := execution_time st; steps := steps st;
    asymptotic_notation := asymptotic_notation st; ticks := ticks st |}).
Definition set_solution_method (x : option str) : M unit :=
  modify (fun st => {|
    recurrence := recurrence st; base_cases := base_cases st;
    solution := solution st; solution_method := x;
    execution_time := execution_time st; steps := steps st;
    asymptotic_notation := asymptotic_notation st; ticks := ticks st |}).
Definition set_execution_time (x : pyval) : M unit :=
  modify (fun st => {|
    recurrence := recurrence st; base_cases := base_cases st;
    solution := solution st; solution_method := solution_method st;
    execution_time := x; steps := steps st;
    asymptotic_notation := asymptotic_notation st; ticks := ticks st |}).
Definition set_asymptotic_notation (x : option str) : M unit :=
  modify (fun st => {|
    recurrence := recurrence st; base_cases := base_cases st;
    solution := solution st; solution_method := solution_method st;
    execution_time := execution_time st; steps := steps st;
    asymptotic_notation := x; ticks := ticks st |}).

(** [self.steps.append(x)] *)
Definition steps_append (x : str) : M unit :=
  modify (fun st => {|
    recurrence := recurrence st; base_cases := base_cases st;
    solution := solution st; solution_method := solution_method st;
    execution_time := execution_time st; steps := steps st ++ [x];
    asymptotic_notation := asymptotic_notation st; ticks := ticks st |}).

(** [time.time()] *)
Definition now (P : Platform) : M float :=
  fun st => (Ret (time_time P (ticks st)), {|
    recurrence := recurrence st; base_cases := base_cases st;
    solution := solution st; solution_method := solution_method st;
    execution_time := execution_time st; steps := steps st;
    asymptotic_notation := asymptotic_notation st; ticks := S (ticks st) |}).

(** ** Conversions of captured text *)

(** [int(s)] on text made of decimal digits, which is all the patterns
    capture; CPython refuses more than 4300 of them. *)
Definition int_max_str_digits : nat := 4300.

Fixpoint int_digits (acc : Z) (s : str) : option Z :=
  match s with
  | [] => Some acc
  | c :: s' =>
    match decimal c with
    | Some d => int_digits (10 * acc + d) s'
    | None => None
    end
  end.

Definition py_int (s : str) : outcome Z :=
  match s with
  | [] => Raise ValueError
  | _ =>
    match int_digits 0 s with
    | Some n =>
      if (int_max_str_digits <? length s)%nat then Raise ValueError
      else Ret n
    | None => Raise ValueError
    end
  end.

(** [float(s)] on text made of decimal digits around at most one point,
    which is all the patterns capture: a text without any digit is
    refused. *)
Fixpoint split_point (s : str) : str * option str :=
  match s with
  | [] => ([], None)
  | c :: s' =>
    if (c =? ch ".")%N then ([], Some s')
    else let '(i, f) := split_point s' in (c :: i, f)
  end.

Definition py_float (s : str) : outcome float :=
  let '(i, f) := split_point s in
  let f := match f with Some f => f | None => [] end in
  match i ++ f with
  | [] => Raise ValueError
  | ds =>
    match int_digits 0 ds with
    | Some n => Ret (of_decimal n (- Z.of_nat (length f)))
    | None => Raise ValueError
    end
  end.

(** [s.strip()] on the result of [m.group(i)], which is [None] for a group
    that took no part in the match. *)
Definition strip_opt (o : option str) : outcome str :=
  match o with
  | Some s => Ret (strip s)
  | None => Raise AttributeError
  end.

(** [int(o)] and [float(o)] on the result of [m.group(i)]. *)
Definition int_opt (o : option str) : outcome Z :=
  match o with
  | Some s => py_int s
  | None => Raise TypeError
  end.

(** The truth value of [m.group(i)]: a group that took part and captured
    some text. *)
Definition truthy (o : option str) : bool :=
  match o with
  | Some (_ :: _) => true
  | _ => false
  end.

(** [str(v)], as an f-string lays a value out. *)
Definition str_of (v : pyval) : str :=
  match v with
  | PyInt n => str_of_Z n
  | PyFloat x => repr x
  | PyNone => u "None"
  end.

(** The float a number is turned into when it meets a numpy float. *)
Definition to_float (v : pyval) : outcome float :=
  match v with
  | PyInt n => Ret (of_Z n)
  | PyFloat x => Ret x
  | PyNone => Raise TypeError
  end.

(** ** The patterns of [ccp.py] *)

(** [complex_divide_conquer_pattern] (line 45): [T(n)], [=], then group 1,
    one or more terms [aT(n/b)] with an optional coefficient, each followed
    by blanks, an optional [+] and blanks, then group 2, the rest of the
    line. *)
Definition complex_divide_conquer_pattern : regex :=
  seq [lits (u "T(n)"); Star ws; Lit (ch "="); Star ws;
       Grp 1 (Plus (seq [Opt (Plus digit); lits (u "T(n"); Star ws;
                         Lit (ch "/"); Star ws; Plus digit; Lit (ch ")");
                         Star ws; Opt (Lit (ch "+")); Star ws]));
       Grp 2 (Star dot)].

(** [t_term_pattern] (line 57): one term [aT(n/b)], the optional
    coefficient in group 1 and the divisor in group 2. *)
Definition t_term_pattern : regex :=
  seq [Opt (Grp 1 (Plus digit)); lits (u "T(n"); Star ws; Lit (ch "/");
       Star ws; Grp 2 (Plus digit); Lit (ch ")")].

(** [divide_conquer_pattern] (line 72): [T(n)], [=], one term [aT(n/b)],
    a [+], and a rest of the line that is not empty, in group 3. *)
Definition divide_conquer_pattern : regex :=
  seq [lits (u "T(n)"); Star ws; Lit (ch "="); Star ws;
       Opt (Grp 1 (Plus digit)); lits (u "T(n"); Star ws; Lit (ch "/");
       Star ws; Grp 2 (Plus digit); Lit (ch ")"); Star ws; Lit (ch "+");
       Star ws; Grp 3 (Plus dot)].

(** [decrease_conquer_pattern] (line 89): [T(n)], [=], [T(n-d)], a [+],
    and a rest of the line that is not empty, in group 2. *)
Definition decrease_conquer_pattern : regex :=
  seq [lits (u "T(n)"); Star ws; Lit (ch "="); Star ws; lits (u "T(n");
       Star ws; Lit (ch "-"); Star ws; Grp 1 (Plus digit); Lit (ch ")");
       Star ws; Lit (ch "+"); Star ws; Grp 2 (Plus dot)].

(** The group that ends both power patterns: digits, an optional point,
    digits, each part possibly empty. *)
Definition number : regex :=
  Grp 1 (seq [Star digit; Opt (Lit (ch ".")); Star digit]).

(** [power_pattern] (lines 128 and 138): [n], an optional [^], an optional
    [**], blanks, and the number. *)
Definition power_pattern : regex :=
  seq [Lit (ch "n"); Opt (Lit (ch "^")); Opt (lits (u "**")); Star ws;
       number].

(** [notation_pattern] (line 150): one of [o], [O], [θ], [Θ], then [(n],
    an optional [^], an optional [**], blanks, the number and [)]. *)
Definition notation_pattern : regex :=
  seq [Cls (fun c => existsb (N.eqb c) (u "oOθΘ")); lits (u "(n");
       Opt (Lit (ch "^")); Opt (lits (u "**")); Star ws; number;
       Lit (ch ")")].

(** ** The methods of [RecurrenceRelationSolver] *)

(** [parse_recurrence] *)
Definition parse_subproblem (term : Match) : M Subproblem :=
  a <- (if truthy (group (m_groups term) 1)
        then lift (int_opt (group (m_groups term) 1))
        else ret 1) ;;
  b <- lift (int_opt (group (m_groups term) 2)) ;;
  ret {| sub_a := a; sub_b := b |}.

Definition parse_recurrence (recurrence_str : str) : M (option Recurrence) :=
  steps_append (u "Parsing recurrence relation: " ++ recurrence_str) ;;
  match re_match complex_divide_conquer_pattern recurrence_str with
  | Some m =>
    t_terms <- lift (strip_opt (group (m_groups m) 1)) ;;
    f_n <- lift (strip_opt (group (m_groups m) 2)) ;;
    let f_n := match f_n with [] => u "0" | _ => f_n end in
    subproblems <- mapM parse_subproblem (finditer t_term_pattern t_terms) ;;
    set_recurrence (Some (complex_divide_and_conquer subproblems f_n)) ;;
    steps_append
      (u "Identified complex divide and conquer recurrence with "
       ++ str_of_Z (Z.of_nat (length subproblems))
       ++ u " subproblems, f(n)=" ++ f_n) ;;
    get recurrence
  | None =>
  match re_match divide_conquer_pattern recurrence_str with
  | Some m =>
    a <- (if truthy (group (m_groups m) 1)
          then lift (int_opt (group (m_groups m) 1))
          else ret 1) ;;
    b <- lift (int_opt (group (m_groups m) 2)) ;;
    f_n <- lift (strip_opt (group (m_groups m) 3)) ;;
    set_recurrence (Some (divide_and_conquer a b f_n)) ;;
    steps_append
      (u "Identified divide and conquer recurrence with a=" ++ str_of_Z a
       ++ u ", b=" ++ str_of_Z b ++ u ", f(n)=" ++ f_n) ;;
    get recurrence
  | None =>
  match re_match decrease_conquer_pattern recurrence_str with
  | Some m =>
    d <- lift (int_opt (group (m_groups m) 1)) ;;
    f_n <- lift (strip_opt (group (m_groups m) 2)) ;;
    set_recurrence (Some (decrease_and_conquer d f_n)) ;;
    steps_append
      (u "Identified decrease and conquer recurrence with d=" ++ str_of_Z d
       ++ u ", f(n)=" ++ f_n) ;;
    get recurrence
  | None =>
    steps_append (u "Failed to parse the recurrence relation.") ;;
    ret None
  end end end.

(** [add_base_case]: a key that is already there gets the new value. *)
Fixpoint dict_set (k : Z) (v : pyval) (d : list (Z * pyval))
  : list (Z * pyval) :=
  match d with
  | [] => [(k, v)]
  | (k', v') :: d' =>
    if k =? k' then (k, v) :: d' else (k', v') :: dict_set k v d'
  end.

Definition add_base_case (n : Z) (value : pyval) : M unit :=
  b <- get base_cases ;;
  set_base_cases (dict_set n value b) ;;
  steps_append
    (u "Added base case: T(" ++ str_of_Z n ++ u ") = " ++ str_of value).

(** The growth categories that [parse_fn_growth] returns as text. *)
Inductive growth := constant | logarithmic | n_log | polynomial | unknown.

(** [float(m.group(1)) if m.group(1) else 1], reached with a group that
    captured some text. *)
Definition power_of (m : Match) : outcome pyval :=
  match group (m_groups m) 1 with
  | Some t =>
    match py_float t with
    | Ret x => Ret (PyFloat x)
    | Raise e => Raise e
    end
  | None => Raise TypeError
  end.

Section Runtime.
Variable P : Platform.

(** [parse_fn_growth] *)
Definition parse_fn_growth (f_n : str) : outcome (growth * pyval) :=
  let f_n := str_lower P (strip f_n) in
  if str_eqb f_n (u "1") || str_eqb f_n (u "o(1)") || str_eqb f_n (u "o(1)")
     || str_eqb f_n (u "θ(1)") || contains (u "constant") f_n
  then Ret (constant, PyInt 0)
  else if contains (u "log") f_n || contains (u "ln") f_n then
    if contains (u "n^") f_n || contains (u "n**") f_n then
      match re_search power_pattern f_n with
      | Some m =>
        if truthy (group (m_groups m) 1) then
          match power_of m with
          | Ret power => Ret (n_log, power)
          | Raise e => Raise e
          end
        else Ret (n_log, PyInt 1)
      | None => Ret (n_log, PyInt 1)
      end
    else Ret (logarithmic, PyInt 0)
  else
    let notation :=
      match re_search notation_pattern f_n with
      | Some m =>
        if truthy (group (m_groups m) 1) then
          match power_of m with
          | Ret power => Ret (polynomial, power)
          | Raise e => Raise e
          end
        else Ret (polynomial, PyInt 1)
      | None => Ret (unknown, PyNone)
      end in
    if contains (u "n") f_n then
      let bare :=
        if negb (contains (u "n^") f_n) && negb (contains (u "n**") f_n)
           && negb (contains (u "n *") f_n) && negb (contains (u "n*") f_n)
        then Ret (polynomial, PyInt 1)
        else notation in
      match re_search power_pattern f_n with
      | Some m =>
        if truthy (group (m_groups m) 1) then
          match power_of m with
          | Ret power => Ret (polynomial, power)
          | Raise e => Raise e
          end
        else bare
      | None => bare
      end
    else notation.

(** [format_solution] *)
Definition format_text (solution : str) : str :=
  let formatted := solution in
  let formatted := replace (u "Theta") (u "Θ") formatted in
  let formatted := replace (u "theta") (u "Θ") formatted in
  let formatted := replace (u "O(") (u "O(") formatted in
  let formatted := replace (u "n^2") (u "n²") formatted in
  let formatted := replace (u "n^3") (u "n³") formatted in
  formatted.

Definition format_solution (solution : str) : M str :=
  steps_append (u "Formatting solution: " ++ solution) ;;
  set_asymptotic_notation (Some solution) ;;
  let formatted := format_text solution in
  steps_append (u "Formatted solution: " ++ formatted) ;;
  ret formatted.

(** [numpy.log] on a Python integer: the integer is turned into a 64-bit
    machine integer, then into a float; an integer that fits no 64-bit
    type is refused. *)
Definition np_log (n : Z) : outcome float :=
  if (- 2 ^ 63 <=? n) && (n <? 2 ^ 64) then Ret (libm_log P (of_Z n))
  else Raise TypeError.

(** [sum], [min] and [max] on a list. *)
Definition py_sum (l : list Z) : Z := fold_left Z.add l 0.

Definition py_min (l : list Z) : outcome Z :=
  match l with
  | [] => Raise ValueError
  | x :: l' => Ret (fold_left (fun m y => if y <? m then y else m) l' x)
  end.

Definition py_max (l : list float) : outcome float :=
  match l with
  | [] => Raise ValueError
  | x :: l' => Ret (fold_left (fun m y => if ltb m y then y else m) l' x)
  end.

(** [repr] of a list of numpy floats. *)
Fixpoint join (sep : str) (l : list str) : str :=
  match l with
  | [] => []
  | [x] => x
  | x :: l' => x ++ sep ++ join sep l'
  end.

Definition repr_list (l : list float) : str :=
  u "[" ++ join (u ", ") (map (np_float_repr P) l) ++ u "]".

(** [np.log(total_a) / np.log(sub['b'])] *)
Definition ratio (total_a : Z) (sub : Subproblem) : M float :=
  x <- lift (np_log total_a) ;;
  y <- lift (np_log (sub_b sub)) ;;
  ret (div x y).

(** The class defines no method named [solve_using_master_theorem],
    [solve_using_iteration] or [solve_using_substitution]: looking the
    attribute up on [self] raises [AttributeError]. *)
Definition solve_using_master_theorem : M (option str) :=
  raise AttributeError.
Definition solve_using_iteration : M (option str) :=
  raise AttributeError.
Definition solve_using_substitution : M (option str) :=
  raise AttributeError.

(** The truth value of a solution: a text that is not empty. *)
Definition nonempty (o : option str) : bool :=
  match o with
  | Some (_ :: _) => true
  | _ => false
  end.

Definition is_method (method : option str) (name : string) : bool :=
  match method with
  | Some m => str_eqb m (u name)
  | None => false
  end.

(** The decision of the complex path, on the category and power of
    [f(n)] and the largest log ratio. *)
Definition decide (growth_category : growth) (power : pyval)
    (max_ratio : float) : outcome str :=
  match growth_category with
  | polynomial =>
    match to_float power with
    | Raise e => Raise e
    | Ret p =>
      if ltb (abs (sub max_ratio p)) (of_decimal 1 (-10)) then
        Ret (u "Θ(n^" ++ str_of power ++ u " log n)")
      else if ltb p max_ratio then
        Ret (u "Θ(n^" ++ repr max_ratio ++ u ")")
      else Ret (u "Θ(n^" ++ str_of power ++ u ")")
    end
  | logarithmic =>
    if ltb (of_Z 0) max_ratio then
      Ret (u "Θ(n^" ++ repr max_ratio ++ u ")")
    else Ret (u "Θ(log n)")
  | constant =>
    if ltb (of_Z 0) max_ratio then
      Ret (u "Θ(n^" ++ repr max_ratio ++ u ")")
    else Ret (u "Θ(1)")
  | n_log =>
    match to_float power with
    | Raise e => Raise e
    | Ret p =>
      if leb p max_ratio then Ret (u "Θ(n^" ++ repr max_ratio ++ u ")")
      else Ret (u "Θ(n^" ++ str_of power ++ u " log n)")
    end
  | unknown =>
    Ret (u "Cannot determine asymptotic behavior for complex recurrence")
  end.

(** [solve] *)
Definition solve_complex (subproblems : list Subproblem) (f_n : str)
  : M (option str) :=
  steps_append
    (u "Complex divide and conquer recurrence detected with multiple subproblems.") ;;
  steps_append (u "Using iterative expansion to analyze the solution.") ;;
  set_solution_method (Some (u "Iterative Expansion")) ;;
  let total_a := py_sum (map sub_a subproblems) in
  min_b <- lift (py_min (map sub_b subproblems)) ;;
  steps_append (u "Total coefficient sum: " ++ str_of_Z total_a) ;;
  steps_append (u "Minimum divisor: " ++ str_of_Z min_b) ;;
  gp <- lift (parse_fn_growth f_n) ;;
  let '(growth_category, power) := gp in
  ratios <- mapM (ratio total_a) subproblems ;;
  max_ratio <- lift (py_max ratios) ;;
  steps_append (u "Log ratios for subproblems: " ++ repr_list ratios) ;;
  steps_append (u "Maximum log ratio: " ++ repr max_ratio) ;;
  raw <- lift (decide growth_category power max_ratio) ;;
  set_solution (Some raw) ;;
  s <- get solution ;;
  (if nonempty s then
     formatted <- format_solution raw ;;
     set_solution (Some formatted)
   else ret tt) ;;
  get solution.

Definition solve (method : option str) : M (option str) :=
  r <- get recurrence ;;
  match r with
  | None =>
    steps_append (u "No recurrence relation has been parsed yet.") ;;
    ret None
  | Some rec =>
    start_time <- now P ;;
    match rec with
    | complex_divide_and_conquer subproblems f_n =>
      solve_complex subproblems f_n
    | _ =>
      let is_dc :=
        match rec with divide_and_conquer _ _ _ => true | _ => false end in
      solution <-
        (if is_method method "master" && is_dc then
           solve_using_master_theorem
         else if is_method method "substitution" then
           solve_using_substitution
         else if is_method method "iteration" then
           solve_using_iteration
         else if is_dc then
           s1 <- solve_using_master_theorem ;;
           if nonempty s1 then ret s1 else
           s2 <- solve_using_iteration ;;
           if nonempty s2 then ret s2 else solve_using_substitution
         else
           s1 <- solve_using_iteration ;;
           if nonempty s1 then ret s1 else solve_using_substitution) ;;
      t <- now P ;;
      let elapsed := sub t start_time in
      set_execution_time (PyFloat elapsed) ;;
      steps_append
        (u "Solution found in " ++ format_6f elapsed ++ u " seconds.") ;;
      if nonempty solution then
        match solution with
        | Some s => formatted <- format_solution s ;; ret (Some formatted)
        | None => ret None
        end
      else ret solution
    end
  end.
End Runtime.

(** ** A reference platform *)

(** A platform on which the scenarios are run: lower case for the letters
    of the Latin alphabet and for capital theta; the logarithms of 2, 3 and
    6 as the C library of a glibc x86-64 system returns them (the doubles
    nearest to the real values); the [repr] of numpy 2; a clock that ticks a
    whole second at each reading. *)
Definition lower_char (c : char) : char :=
  if ((65 <=? c) && (c <=? 90))%N then (c + 32)%N
  else if (c =? 920)%N then 952%N
  else c.

Definition log_table (x : float) : float :=
  if eqb_exact x (of_Z 2) then S754_finite false 6243314768165359 (-53)
  else if eqb_exact x (of_Z 3) then S754_finite false 4947709893870347 (-52)
  else if eqb_exact x (of_Z 6) then S754_finite false 8069367277953026 (-52)
  else S754_nan.

Definition reference : Platform := {|
  str_lower := map lower_char;
  libm_log := log_table;
  np_float_repr := fun x => u "np.float64(" ++ repr x ++ u ")";
  time_time := fun n => of_Z (1700000000 + Z.of_nat n)
|}.

(** Parsing a text and solving, on a fresh solver object. *)
Definition parse_then_solve (P : Platform) (recurrence_str : str)
    (method : option str) : M (option str) :=
  parse_recurrence recurrence_str ;; solve P method.

(** * Properties *)

(** ** The dispatch of [solve] *)

Section Dispatch.
Variable P : Platform.

Definition is_complex (r : Recurrence) : bool :=
  match r with
  | complex_divide_and_conquer _ _ => true
  | _ => false
  end.

(** On a recurrence of the two simple shapes every branch of [solve] ends
    in a call of one of the three methods that the class lacks. *)
Lemma solve_simple_raises (method : option str) (st : Solver)
    (r : Recurrence) :
  recurrence st = Some r -> is_complex r = false ->
  fst (solve P method st) = Raise AttributeError.
Proof.
  intros Hr Hc. unfold solve, bind, get. rewrite Hr. cbn.
  destruct r as [subs f | a b f | d f]; [discriminate | |]; cbn;
    destruct (is_method method "master"),
             (is_method method "substitution"),
             (is_method method "iteration"); reflexivity.
Qed.

End Dispatch.

(** ** Attributes that a computation leaves alone *)

Section Frame.
Variable A : Type.
Variable proj : Solver -> A.

(** A computation keeps [proj] when the attribute has the same value
    after it as before, whether it returns or raises. *)
Definition keeps {B} (c : M B) : Prop :=
  forall st, proj (snd (c st)) = proj st.

Lemma keeps_ret {B} (b : B) : keeps (ret b).
Proof. intro st. reflexivity. Qed.

Lemma keeps_lift {B} (o : outcome B) : keeps (lift o).
Proof. intro st. reflexivity. Qed.

Lemma keeps_get {B} (f : Solver -> B) : keeps (get f).
Proof. intro st. reflexivity. Qed.

Lemma keeps_bind {B C} (c : M B) (k : B -> M C) :
  keeps c -> (forall b, keeps (k b)) -> keeps (bind c k).
Proof.
  intros Hc Hk st. unfold bind. specialize (Hc st).
  destruct (c st) as [[b|e] st']; cbn in *.
  - rewrite Hk. exact Hc.
  - exact Hc.
Qed.

Lemma keeps_mapM {B C} (f : B -> M C) (l : list B) :
  (forall b, keeps (f b)) -> keeps (mapM f l).
Proof.
  intro Hf. induction l as [|x l IH]; cbn.
  - apply keeps_ret.
  - apply keeps_bind; [apply Hf|]. intro y.
    apply keeps_bind; [exact IH|]. intro ys. apply keeps_ret.
Qed.

Lemma keeps_modify (f : Solver -> Solver) :
  (forall st, proj (f st) = proj st) -> keeps (modify f).
Proof. intros Hf st. apply Hf. Qed.
End Frame.

Section ExecutionTime.
Variable P : Platform.

Local Ltac frame :=
  repeat first
    [ apply keeps_bind; [|intro]
    | apply keeps_ret
    | apply keeps_lift
    | apply keeps_get
    | apply keeps_mapM; intro
    | apply keeps_modify; reflexivity
    | match goal with
      | |- keeps _ (if ?b then _ else _) => destruct b
      | |- keeps _ (let '(_, _) := ?x in _) => destruct x
      end ].

Lemma format_solution_keeps_time (s : str) :
  keeps execution_time (format_solution s).
Proof. unfold format_solution, steps_append, set_asymptotic_notation. frame. Qed.

(** The complex path returns before the elapsed time is stored. *)
Lemma solve_complex_keeps_time (subs : list Subproblem) (f_n : str) :
  keeps execution_time (solve_complex P subs f_n).
Proof.
  unfold solve_complex, steps_append, set_solution_method, set_solution,
    ratio.
  frame.
Qed.
End ExecutionTime.

(** ** Floats *)

Definition finite_nonzero (x : float) : Prop :=
  exists s m e, x = S754_finite s m e.

Definition one : float := of_Z 1.

(** A finite float other than zero divided by itself is exactly one. *)
Lemma div_self (x : float) : finite_nonzero x -> div x x = one.
Proof.
  intros (s & m & e & ->). unfold div, SFdiv.
  assert (Hcore : SFdiv_core_binary prec emax (Z.pos m) e (Z.pos m) e
                  = (2 ^ 53, -53, loc_Exact)).
  { unfold SFdiv_core_binary.
    replace (Zdigits2 (Z.pos m) + e - (Zdigits2 (Z.pos m) + e)) with 0 by lia.
    replace (e - e) with 0 by lia.
    change (Z.min (fexp prec emax 0) 0) with (-53).
    change (0 - -53) with 53.
    cbv iota beta.
    rewrite Z.shiftl_mul_pow2 by lia.
    assert (Hd : Z.div_eucl (Z.pos m * 2 ^ 53) (Z.pos m) = (2 ^ 53, 0)).
    { pose proof (Z.div_eucl_eq (Z.pos m * 2 ^ 53) (Z.pos m)) as Heq.
      pose proof (Z.mod_pos_bound (Z.pos m * 2 ^ 53) (Z.pos m)) as Hb.
      unfold Z.modulo in Hb.
      destruct (Z.div_eucl (Z.pos m * 2 ^ 53) (Z.pos m)) as [q r].
      specialize (Heq ltac:(lia)). specialize (Hb ltac:(lia)).
      assert (q = 2 ^ 53) by nia. f_equal; nia. }
    rewrite Hd. unfold new_location, new_location_even, new_location_odd.
    destruct (Z.even (Z.pos m)); reflexivity. }
  rewrite Hcore. destruct s; reflexivity.
Qed.

(** ** A run of the complex path *)

Section ComplexRun.
Variable P : Platform.

(** [ratio], which leaves the attributes alone, as a function. *)
Definition ratio_of (total_a : Z) (sub : Subproblem) : outcome float :=
  match np_log P total_a with
  | Raise e => Raise e
  | Ret x =>
    match np_log P (sub_b sub) with
    | Raise e => Raise e
    | Ret y => Ret (div x y)
    end
  end.

Fixpoint ratios_of (total_a : Z) (subs : list Subproblem)
  : outcome (list float) :=
  match subs with
  | [] => Ret []
  | sub :: subs' =>
    match ratio_of total_a sub with
    | Raise e => Raise e
    | Ret r =>
      match ratios_of total_a subs' with
      | Raise e => Raise e
      | Ret rs => Ret (r :: rs)
      end
    end
  end.

Lemma mapM_ratio (total_a : Z) (subs : list Subproblem) (st : Solver) :
  mapM (ratio P total_a) subs st = (ratios_of total_a subs, st).
Proof.
  induction subs as [|sub subs IH]; [reflexivity|].
  cbn. unfold bind at 1. unfold ratio at 1, ratio_of, bind, lift, ret.
  destruct (np_log P total_a); [|reflexivity].
  destruct (np_log P (sub_b sub)); [|reflexivity].
  rewrite IH. destruct (ratios_of total_a subs); reflexivity.
Qed.

(** The steps that a run of the complex path appends. *)
Definition complex_steps (total_a min_b : Z) (ratios : list float)
    (max_ratio : float) (raw : str) : list str :=
  [u "Complex divide and conquer recurrence detected with multiple subproblems.";
   u "Using iterative expansion to analyze the solution.";
   u "Total coefficient sum: " ++ str_of_Z total_a;
   u "Minimum divisor: " ++ str_of_Z min_b;
   u "Log ratios for subproblems: " ++ repr_list P ratios;
   u "Maximum log ratio: " ++ repr max_ratio;
   u "Formatting solution: " ++ raw;
   u "Formatted solution: " ++ format_text raw].

(** The attributes after a run of the complex path that returns. *)
Definition complex_done (st : Solver) (new_steps : list str) (raw : str)
  : Solver := {|
  recurrence := recurrence st;
  base_cases := base_cases st;
  solution := Some (format_text raw);
  solution_method := Some (u "Iterative Expansion");
  execution_time := execution_time st;
  steps := steps st ++ new_steps;
  asymptotic_notation := Some raw;
  ticks := ticks st
|}.

(** The complex path, when nothing raises: it returns the formatted text
    of what [decide] chose. *)
Lemma solve_complex_returns (subs : list Subproblem) (f_n : str)
    (st : Solver) (min_b : Z) (c : growth) (p : pyval)
    (ratios : list float) (max_ratio : float) (raw : str) :
  py_min (map sub_b subs) = Ret min_b ->
  parse_fn_growth P f_n = Ret (c, p) ->
  ratios_of (py_sum (map sub_a subs)) subs = Ret ratios ->
  py_max ratios = Ret max_ratio ->
  decide c p max_ratio = Ret raw ->
  raw <> [] ->
  solve_complex P subs f_n st
  = (Ret (Some (format_text raw)),
     complex_done st
       (complex_steps (py_sum (map sub_a subs)) min_b ratios max_ratio raw)
       raw).
Proof.
  intros Hmin Hg Hr Hmax Hd Hne.
  unfold solve_complex, bind, lift. cbn. rewrite Hmin. cbn. rewrite Hg.
  rewrite mapM_ratio, Hr, Hmax. cbn. rewrite Hd. cbn.
  destruct raw as [|c0 raw]; [contradiction|]. cbn.
  unfold complex_done, complex_steps. cbn.
  repeat rewrite <- app_assoc. reflexivity.
Qed.
End ComplexRun.

(** ** Scenarios *)

(** The attributes after [parse_recurrence] has recognised [text] on a
    fresh solver object. *)
Definition parsed (text : str) (r : Recurrence) (step : str) : Solver := {|
  recurrence := Some r;
  base_cases := [];
  solution := None;
  solution_method := None;
  execution_time := PyInt 0;
  steps := [u "Parsing recurrence relation: " ++ text; step];
  asymptotic_notation := None;
  ticks := O
|}.

(** One reading of the clock. *)
Definition tick (st : Solver) : Solver := {|
  recurrence := recurrence st; base_cases := base_cases st;
  solution := solution st; solution_method := solution_method st;
  execution_time := execution_time st; steps := steps st;
  asymptotic_notation := asymptotic_notation st; ticks := S (ticks st)
|}.

Lemma solve_on_complex (P : Platform) (method : option str) (st : Solver)
    (subs : list Subproblem) (f_n : str) :
  recurrence st = Some (complex_divide_and_conquer subs f_n) ->
  solve P method st = solve_complex P subs f_n (tick st).
Proof. intro Hr. unfold solve, bind, get. rewrite Hr. reflexivity. Qed.

Lemma parse_decrease_by_one :
  parse_recurrence (u "T(n) = T(n-1) + 1") init
  = (Ret (Some (decrease_and_conquer 1 (u "1"))),
     parsed (u "T(n) = T(n-1) + 1") (decrease_and_conquer 1 (u "1"))
       (u "Identified decrease and conquer recurrence with d=1, f(n)=1")).
Proof. vm_compute. reflexivity. Qed.

Lemma parse_merge_sort :
  parse_recurrence (u "T(n) = 2T(n/2) + n") init
  = (Ret (Some (complex_divide_and_conquer
                  [{| sub_a := 2; sub_b := 2 |}] (u "n"))),
     parsed (u "T(n) = 2T(n/2) + n")
       (complex_divide_and_conquer [{| sub_a := 2; sub_b := 2 |}] (u "n"))
       (u "Identified complex divide and conquer recurrence with 1 subproblems, f(n)=n")).
Proof. vm_compute. reflexivity. Qed.

(** The classifier on a bare [n]. *)
Lemma growth_of_n (P : Platform) :
  str_lower P (u "n") = u "n" ->
  parse_fn_growth P (u "n") = Ret (polynomial, PyInt 1).
Proof.
  intro Hl. unfold parse_fn_growth.
  change (strip (u "n")) with (u "n"). rewrite Hl. vm_compute. reflexivity.
Qed.

(** The whole run on the merge-sort recurrence. *)
Lemma run_merge_sort (P : Platform) (method : option str) :
  str_lower P (u "n") = u "n" ->
  finite_nonzero (libm_log P (of_Z 2)) ->
  parse_then_solve P (u "T(n) = 2T(n/2) + n") method init
  = (Ret (Some (u "Θ(n^1 log n)")),
     complex_done
       (tick (parsed (u "T(n) = 2T(n/2) + n")
          (complex_divide_and_conquer [{| sub_a := 2; sub_b := 2 |}] (u "n"))
          (u "Identified complex divide and conquer recurrence with 1 subproblems, f(n)=n")))
       (complex_steps P 2 2 [one] one (u "Θ(n^1 log n)"))
       (u "Θ(n^1 log n)")).
Proof.
  intros Hl Hlog. unfold parse_then_solve, bind. rewrite parse_merge_sort.
  rewrite (@solve_on_complex P method _ [{| sub_a := 2; sub_b := 2 |}] (u "n"))
    by reflexivity.
  rewrite (@solve_complex_returns P _ _ _ 2 polynomial (PyInt 1) [one] one
             (u "Θ(n^1 log n)")).
  - reflexivity.
  - reflexivity.
  - apply growth_of_n, Hl.
  - cbn. unfold ratio_of. cbn.
    change (np_log P 2) with (Ret (libm_log P (of_Z 2))).
    rewrite div_self by exact Hlog. reflexivity.
  - reflexivity.
  - vm_compute. reflexivity.
  - discriminate.
Qed.

(** C1 (violated by the code).  The claim: [parse_recurrence] and [solve]
    never raise, every failure path returns [None].  What the code does at
    the input ["T(n) = T(n-1) + 1"]: it parses a decrease-and-conquer
    recurrence and then, whatever the platform and whatever the method
    hint (none, ['master'], ['substitution'], ['iteration'] or any other
    text), [solve] raises [AttributeError], because each branch that is
    left calls a method that the class does not define. *)
Theorem C1_solve_raises_after_decrease_parse (P : Platform)
    (method : option str) :
  fst (parse_then_solve P (u "T(n) = T(n-1) + 1") method init)
  = Raise AttributeError.
Proof.
  unfold parse_then_solve, bind. rewrite parse_decrease_by_one.
  eapply solve_simple_raises; reflexivity.
Qed.

(** C6 (violated by the code).  The claim: ["T(n) = T(n-1) + 1"] solved by
    iteration gives a result consistent with Θ(n).  What the code does:
    the text parses to the decrease-and-conquer record with [d = 1] and
    [f(n) = "1"], and [solve('iteration')] raises [AttributeError] at the
    call of [self.solve_using_iteration], leaving no solution and no method
    name behind. *)
Theorem C6_iteration_raises (P : Platform) :
  parse_then_solve P (u "T(n) = T(n-1) + 1") (Some (u "iteration")) init
  = (Raise AttributeError,
     tick (parsed (u "T(n) = T(n-1) + 1") (decrease_and_conquer 1 (u "1"))
             (u "Identified decrease and conquer recurrence with d=1, f(n)=1"))).
Proof.
  unfold parse_then_solve, bind. rewrite parse_decrease_by_one. reflexivity.
Qed.

(** C2 (as the claim states it, refuted).  On the reference platform
    parsing ["T(n) = 2T(n/2) + n"] and solving without a hint does not
    return ["Θ(n log n)"]. *)
Lemma C2_not_n_log_n :
  fst (parse_then_solve reference (u "T(n) = 2T(n/2) + n") None init)
  <> Ret (Some (u "Θ(n log n)")).
Proof. intro H. vm_compute in H. discriminate H. Qed.

(** C2 (amended).  Parsing ["T(n) = 2T(n/2) + n"] gives the complex record
    with the single subproblem [(2, 2)] and [f(n) = "n"]; solving it
    without a hint returns ["Θ(n^1 log n)"], the exponent of the tie case
    being printed, by the method named "Iterative Expansion".  This holds
    on every platform whose lower-casing leaves ["n"] alone and whose
    logarithm of 2 is finite and not zero. *)
Theorem C2_merge_sort_solution (P : Platform) :
  str_lower P (u "n") = u "n" ->
  finite_nonzero (libm_log P (of_Z 2)) ->
  let out := parse_then_solve P (u "T(n) = 2T(n/2) + n") None init in
  fst out = Ret (Some (u "Θ(n^1 log n)"))
  /\ recurrence (snd out)
     = Some (complex_divide_and_conquer [{| sub_a := 2; sub_b := 2 |}] (u "n"))
  /\ solution_method (snd out) = Some (u "Iterative Expansion").
Proof.
  intros Hl Hlog out. subst out. rewrite run_merge_sort by assumption.
  repeat split.
Qed.

Lemma reference_log2 : finite_nonzero (libm_log reference (of_Z 2)).
Proof. do 3 eexists. vm_compute. reflexivity. Qed.

Lemma C2_merge_sort_witness :
  str_lower reference (u "n") = u "n"
  /\ finite_nonzero (libm_log reference (of_Z 2))
  /\ fst (parse_then_solve reference (u "T(n) = 2T(n/2) + n") None init)
     = Ret (Some (u "Θ(n^1 log n)")).
Proof.
  split; [reflexivity|]. split; [exact reference_log2|].
  apply (C2_merge_sort_solution reference); [reflexivity | exact reference_log2].
Defined.

(** C7 (violated by the code).  The claim: every solve that returns a
    solution has written the elapsed time.  What the code does at the
    input ["T(n) = 2T(n/2) + n"]: [solve] reads the clock once, returns the
    solution from inside the complex branch, and [execution_time] still
    holds the [0] that [__init__] stored, whatever the clock shows. *)
Theorem C7_elapsed_time_not_written (P : Platform) :
  str_lower P (u "n") = u "n" ->
  finite_nonzero (libm_log P (of_Z 2)) ->
  let out := parse_then_solve P (u "T(n) = 2T(n/2) + n") None init in
  fst out = Ret (Some (u "Θ(n^1 log n)"))
  /\ execution_time (snd out) = PyInt 0
  /\ ticks (snd out) = 1%nat.
Proof.
  intros Hl Hlog out. subst out. rewrite run_merge_sort by assumption.
  repeat split.
Qed.

Lemma C7_elapsed_time_witness :
  str_lower reference (u "n") = u "n"
  /\ finite_nonzero (libm_log reference (of_Z 2))
  /\ execution_time
       (snd (parse_then_solve reference (u "T(n) = 2T(n/2) + n") None init))
     = PyInt 0.
Proof.
  split; [reflexivity|]. split; [exact reference_log2|].
  apply (C7_elapsed_time_not_written reference);
    [reflexivity | exact reference_log2].
Defined.

Definition two_terms : list Subproblem :=
  [{| sub_a := 1; sub_b := 2 |}; {| sub_a := 1; sub_b := 6 |}].

Lemma parse_two_terms :
  parse_recurrence (u "T(n) = T(n/2) + T(n/6) + n*log(n)") init
  = (Ret (Some (complex_divide_and_conquer two_terms (u "n*log(n)"))),
     parsed (u "T(n) = T(n/2) + T(n/6) + n*log(n)")
       (complex_divide_and_conquer two_terms (u "n*log(n)"))
       (u "Identified complex divide and conquer recurrence with 2 subproblems, f(n)=n*log(n)")).
Proof. vm_compute. reflexivity. Qed.

(** The classifier on [n*log(n)]: the text has no power marker, so rule 2
    stops at its second branch. *)
Lemma growth_of_n_times_log (P : Platform) :
  str_lower P (u "n*log(n)") = u "n*log(n)" ->
  parse_fn_growth P (u "n*log(n)") = Ret (logarithmic, PyInt 0).
Proof.
  intro Hl. unfold parse_fn_growth.
  change (strip (u "n*log(n)")) with (u "n*log(n)"). rewrite Hl.
  vm_compute. reflexivity.
Qed.

(** C5 (as the claim states it, refuted).  On the reference platform the
    classifier does not put ["n*log(n)"] in the category [n_log] with power
    1, and the run on ["T(n) = T(n/2) + T(n/6) + n*log(n)"] does not
    return ["Θ(n^1)"]. *)
Lemma C5_not_n_log :
  parse_fn_growth reference (u "n*log(n)") <> Ret (n_log, PyInt 1)
  /\ fst (parse_then_solve reference
            (u "T(n) = T(n/2) + T(n/6) + n*log(n)") None init)
     <> Ret (Some (u "Θ(n^1)")).
Proof.
  split; intro H; vm_compute in H; discriminate H.
Qed.

(** C5 (amended).  Parsing ["T(n) = T(n/2) + T(n/6) + n*log(n)"] gives the
    two subproblems [(1, 2)] and [(1, 6)] with the f-text ["n*log(n)"];
    during [solve] the coefficients sum to 2 and the largest log ratio is
    1.0; f is classified as logarithmic with exponent 0, since the text has
    neither ["n^"] nor ["n**"]; the largest ratio being above 0, the
    solution returned is ["Θ(n^1.0)"].  This holds on every platform whose
    lower-casing leaves the f-text alone, whose logarithm of 2 is finite
    and not zero, and on which log 2 / log 6 is not above one. *)
Theorem C5_two_terms_solution (P : Platform) :
  str_lower P (u "n*log(n)") = u "n*log(n)" ->
  finite_nonzero (libm_log P (of_Z 2)) ->
  ltb one (div (libm_log P (of_Z 2)) (libm_log P (of_Z 6))) = false ->
  let out :=
    parse_then_solve P (u "T(n) = T(n/2) + T(n/6) + n*log(n)") None init in
  recurrence (snd out)
  = Some (complex_divide_and_conquer two_terms (u "n*log(n)"))
  /\ parse_fn_growth P (u "n*log(n)") = Ret (logarithmic, PyInt 0)
  /\ In (u "Total coefficient sum: 2") (steps (snd out))
  /\ In (u "Maximum log ratio: 1.0") (steps (snd out))
  /\ fst out = Ret (Some (u "Θ(n^1.0)")).
Proof.
  intros Hl Hlog Hle out. subst out.
  unfold parse_then_solve, bind. rewrite parse_two_terms.
  rewrite (@solve_on_complex P None _ two_terms (u "n*log(n)"))
    by reflexivity.
  rewrite (@solve_complex_returns P _ _ _ 2 logarithmic (PyInt 0)
             [one; div (libm_log P (of_Z 2)) (libm_log P (of_Z 6))] one
             (u "Θ(n^1.0)")).
  - cbv beta iota delta [fst snd complex_done steps recurrence].
    split; [reflexivity|]. split; [apply growth_of_n_times_log, Hl|].
    split; [|split].
    + apply in_or_app. right. unfold complex_steps. do 2 right. left.
      vm_compute. reflexivity.
    + apply in_or_app. right. unfold complex_steps. do 5 right. left.
      vm_compute. reflexivity.
    + vm_compute. reflexivity.
  - reflexivity.
  - apply growth_of_n_times_log, Hl.
  - cbn. unfold ratio_of. cbn.
    change (np_log P 2) with (Ret (libm_log P (of_Z 2))).
    change (np_log P 6) with (Ret (libm_log P (of_Z 6))).
    rewrite div_self by exact Hlog. reflexivity.
  - unfold py_max, fold_left. rewrite Hle. reflexivity.
  - vm_compute. reflexivity.
  - discriminate.
Qed.

Lemma C5_two_terms_witness :
  str_lower reference (u "n*log(n)") = u "n*log(n)"
  /\ finite_nonzero (libm_log reference (of_Z 2))
  /\ ltb one (div (libm_log reference (of_Z 2)) (libm_log reference (of_Z 6)))
     = false
  /\ fst (parse_then_solve reference
            (u "T(n) = T(n/2) + T(n/6) + n*log(n)") None init)
     = Ret (Some (u "Θ(n^1.0)")).
Proof.
  split; [reflexivity|]. split; [exact reference_log2|].
  split; [reflexivity|].
  apply (C5_two_terms_solution reference);
    [reflexivity | exact reference_log2 | reflexivity].
Defined.

(** ** The decision table on a single subproblem *)

(** The tolerance [1e-10] of the tie test. *)
Definition tolerance : float := of_decimal 1 (-10).

(** The power that comes with the category [polynomial] is a number. *)
Lemma power_of_numeric (m : Match) (v : pyval) :
  power_of m = Ret v -> exists x, v = PyFloat x.
Proof.
  unfold power_of. destruct (group (m_groups m) 1); [|discriminate].
  destruct (py_float s); [|discriminate].
  intro H. injection H as <-. eexists. reflexivity.
Qed.

Lemma polynomial_power_numeric (P : Platform) (f_n : str) (p : pyval) :
  parse_fn_growth P f_n = Ret (polynomial, p) ->
  exists x, to_float p = Ret x.
Proof.
  unfold parse_fn_growth.
  repeat match goal with
  | |- context [if ?b then _ else _] => destruct b
  | |- context [match re_search ?r ?s with _ => _ end] =>
    destruct (re_search r s)
  | |- context [match power_of ?m with _ => _ end] =>
    let H := fresh "H" in destruct (power_of m) eqn:H
  end;
  intro Heq; try discriminate Heq; injection Heq as <-;
  try (eexists; reflexivity);
  match goal with
  | H : power_of _ = Ret _ |- _ =>
    destruct (power_of_numeric _ H) as [x ->]; eexists; reflexivity
  end.
Qed.

(** C4 (as the claim states it, refuted).  On the reference platform, for
    the single subproblem [(3, 2)] and the f-text ["n^1.58496250072"]: f is
    polynomial with exponent [p = 1.58496250072], the critical exponent is
    [e = log 3 / log 2], and [p < e] holds; yet the solution is not
    [Θ(n^e)], it is the tie row of the table, ["Θ(n^1.58496250072 log n)"],
    because [e - p] is below the tolerance. *)
Lemma C4_tie_row_comes_first :
  let p := of_decimal 158496250072 (-11) in
  let e := div (log_table (of_Z 3)) (log_table (of_Z 2)) in
  let out :=
    parse_then_solve reference (u "T(n) = 3T(n/2) + n^1.58496250072") None
      init in
  recurrence (snd out)
  = Some (complex_divide_and_conquer [{| sub_a := 3; sub_b := 2 |}]
            (u "n^1.58496250072"))
  /\ parse_fn_growth reference (u "n^1.58496250072")
     = Ret (polynomial, PyFloat p)
  /\ ltb p e = true
  /\ fst out = Ret (Some (u "Θ(n^1.58496250072 log n)"))
  /\ fst out <> Ret (Some (format_text (u "Θ(n^" ++ repr e ++ u ")"))).
Proof.
  vm_compute. repeat split. discriminate.
Qed.

(** C4 (amended).  For a recurrence with the single subproblem [(a, b)]
    whose logarithms [numpy.log] takes, with [e = log a / log b], and whose
    right-hand side classifies as polynomial with exponent [p], the complex
    path returns, after the formatter: [Θ(n^p log n)] when [|e - p|] is
    below [1e-10], this test being made first; otherwise [Θ(n^e)] when
    [p < e]; otherwise [Θ(n^p)].  The exponents are printed as Python
    prints the numbers. *)
Theorem C4_single_subproblem_table (P : Platform) (method : option str)
    (st : Solver) (a b : Z) (f_n : str) (p : pyval) (la lb pf : float) :
  recurrence st
  = Some (complex_divide_and_conquer [{| sub_a := a; sub_b := b |}] f_n) ->
  parse_fn_growth P f_n = Ret (polynomial, p) ->
  np_log P a = Ret la ->
  np_log P b = Ret lb ->
  to_float p = Ret pf ->
  let e := div la lb in
  let tie := ltb (abs (sub e pf)) tolerance in
  let result := fst (solve P method st) in
  (tie = true ->
   result = Ret (Some (format_text (u "Θ(n^" ++ str_of p ++ u " log n)"))))
  /\ (tie = false -> ltb pf e = true ->
      result = Ret (Some (format_text (u "Θ(n^" ++ repr e ++ u ")"))))
  /\ (tie = false -> ltb pf e = false ->
      result = Ret (Some (format_text (u "Θ(n^" ++ str_of p ++ u ")")))).
Proof.
  intros Hr Hg Ha Hb Hp e tie result.
  assert (Hrun : forall raw,
            decide polynomial p e = Ret raw -> raw <> [] ->
            result = Ret (Some (format_text raw))).
  { intros raw Hd Hne. subst result.
    rewrite (solve_on_complex P method st Hr).
    rewrite (@solve_complex_returns P _ _ _ b polynomial p [e] e raw);
      try assumption; try reflexivity.
    cbn. unfold ratio_of. cbn. rewrite Ha, Hb. reflexivity. }
  assert (Hne : forall x y : str, u "Θ(n^" ++ x ++ y <> []).
  { intros x y. change (u "Θ(n^") with [920; 40; 110; 94]%N.
    discriminate. }
  repeat split; intros; apply Hrun; try apply Hne;
    unfold decide; rewrite Hp; fold e; fold tolerance; fold tie.
  - rewrite H. reflexivity.
  - rewrite H, H0. reflexivity.
  - rewrite H, H0. reflexivity.
Qed.

Lemma C4_single_subproblem_witness :
  fst (solve reference None
         (parsed (u "T(n) = 3T(n/2) + n^1.58496250072")
            (complex_divide_and_conquer [{| sub_a := 3; sub_b := 2 |}]
               (u "n^1.58496250072"))
            (u "Identified complex divide and conquer recurrence with 1 subproblems, f(n)=n^1.58496250072")))
  = Ret (Some (format_text (u "Θ(n^1.58496250072 log n)"))).
Proof.
  refine (proj1 (@C4_single_subproblem_table reference None
                   (parsed (u "T(n) = 3T(n/2) + n^1.58496250072")
                      (complex_divide_and_conquer
                         [{| sub_a := 3; sub_b := 2 |}]
                         (u "n^1.58496250072"))
                      (u "Identified complex divide and conquer recurrence with 1 subproblems, f(n)=n^1.58496250072"))
                   3 2 (u "n^1.58496250072")
                   (PyFloat (of_decimal 158496250072 (-11)))
                   (log_table (of_Z 3)) (log_table (of_Z 2))
                   (of_decimal 158496250072 (-11))
                   eq_refl _ eq_refl eq_refl eq_refl) _).
  - vm_compute. reflexivity.
  - vm_compute. reflexivity.
Defined.

(** * Further properties of the solver object *)

(** ** The steps are only ever appended to *)

Section StepsLog.
Variable P : Platform.

(** A computation extends the log when the steps it leaves are the steps
    it found followed by new ones, whether it returns or raises. *)
Definition extends_log {B} (c : M B) : Prop :=
  forall st, exists new, steps (snd (c st)) = steps st ++ new.

Lemma extends_ret {B} (b : B) : extends_log (ret b).
Proof. intro st. exists []. cbn. rewrite app_nil_r. reflexivity. Qed.

Lemma extends_raise {B} (e : exn) : extends_log (@raise B e).
Proof. intro st. exists []. cbn. rewrite app_nil_r. reflexivity. Qed.

Lemma extends_lift {B} (o : outcome B) : extends_log (lift o).
Proof. intro st. exists []. cbn. rewrite app_nil_r. reflexivity. Qed.

Lemma extends_get {B} (f : Solver -> B) : extends_log (get f).
Proof. intro st. exists []. cbn. rewrite app_nil_r. reflexivity. Qed.

Lemma extends_now : extends_log (now P).
Proof. intro st. exists []. cbn. rewrite app_nil_r. reflexivity. Qed.

Lemma extends_steps_append (x : str) : extends_log (steps_append x).
Proof. intro st. exists [x]. reflexivity. Qed.

Lemma extends_modify (f : Solver -> Solver) :
  (forall st, steps (f st) = steps st) -> extends_log (modify f).
Proof.
  intros Hf st. exists []. cbn. rewrite app_nil_r. apply Hf.
Qed.

Lemma extends_bind {B C} (c : M B) (k : B -> M C) :
  extends_log c -> (forall b, extends_log (k b)) -> extends_log (bind c k).
Proof.
  intros Hc Hk st. unfold bind. destruct (Hc st) as [l1 H1].
  destruct (c st) as [[b|e] st']; cbn in *.
  - destruct (Hk b st') as [l2 H2]. exists (l1 ++ l2).
    rewrite H2, H1, app_assoc. reflexivity.
  - exists l1. exact H1.
Qed.

Lemma extends_mapM {B C} (f : B -> M C) (l : list B) :
  (forall b, extends_log (f b)) -> extends_log (mapM f l).
Proof.
  intro Hf. induction l as [|x l IH]; cbn.
  - apply extends_ret.
  - apply extends_bind; [apply Hf|]. intro y.
    apply extends_bind; [exact IH|]. intro ys. apply extends_ret.
Qed.

Local Ltac log :=
  repeat first
    [ apply extends_ret
    | apply extends_raise
    | apply extends_lift
    | apply extends_get
    | apply extends_now
    | apply extends_steps_append
    | apply extends_modify; reflexivity
    | apply extends_mapM; intro
    | apply extends_bind; [|intro]
    | match goal with
      | |- extends_log (if ?b then _ else _) => destruct b
      | |- extends_log (let '(_, _) := ?x in _) => destruct x
      | |- extends_log (match ?x with _ => _ end) => destruct x
      end ].

Lemma format_solution_extends (s : str) : extends_log (format_solution s).
Proof. unfold format_solution, set_asymptotic_notation. log. Qed.

Lemma parse_recurrence_extends (text : str) :
  extends_log (parse_recurrence text).
Proof.
  unfold parse_recurrence, parse_subproblem, set_recurrence. log.
Qed.

Lemma add_base_case_extends (n : Z) (value : pyval) :
  extends_log (add_base_case n value).
Proof. unfold add_base_case, set_base_cases. log. Qed.

Lemma solve_complex_extends (subs : list Subproblem) (f_n : str) :
  extends_log (solve_complex P subs f_n).
Proof.
  unfold solve_complex, set_solution_method, set_solution, ratio.
  log; apply format_solution_extends.
Qed.

Lemma solve_extends (method : option str) : extends_log (solve P method).
Proof.
  unfold solve, solve_using_master_theorem, solve_using_iteration,
    solve_using_substitution, set_execution_time.
  apply extends_bind; [apply extends_get|]. intros [rec|]; [|log].
  apply extends_bind; [apply extends_now|]. intro start.
  destruct rec; [apply solve_complex_extends| |];
    log; apply format_solution_extends.
Qed.

(** X1.  The step log is append-only: [parse_recurrence], [add_base_case],
    [format_solution] and [solve] leave every step that was there in its
    place and only add steps after them, also when they raise. *)
Theorem steps_append_only (text : str) (n : Z) (value : pyval) (s : str)
    (method : option str) :
  extends_log (parse_recurrence text)
  /\ extends_log (add_base_case n value)
  /\ extends_log (format_solution s)
  /\ extends_log (solve P method).
Proof.
  repeat split.
  - apply parse_recurrence_extends.
  - apply add_base_case_extends.
  - apply format_solution_extends.
  - apply solve_extends.
Qed.
End StepsLog.

(** ** What [solve] does on each shape of recurrence *)

(** The literal texts of the goal, as sequences of code points. *)
Ltac show_text :=
  repeat match goal with
  | |- context [u ?s] =>
    let t := eval vm_compute in (u s) in change (u s) with t
  end.

(** Every text that [decide] chooses has at least one character. *)
Lemma decide_nonempty (c : growth) (p : pyval) (m : float) (raw : str) :
  decide c p m = Ret raw -> raw <> [].
Proof.
  unfold decide.
  destruct c; try destruct (to_float p);
    repeat match goal with
    | |- context [if ?b then _ else _] => destruct b
    end;
    intro H; try discriminate H; injection H as <-; show_text; discriminate.
Qed.

Section SolveShapes.
Variable P : Platform.


(** X2.  On a complex recurrence the method hint plays no part: [solve]
    returns the same value and leaves the same attributes whatever the
    hint. *)
Theorem solve_complex_ignores_hint (m1 m2 : option str) (st : Solver)
    (subs : list Subproblem) (f_n : str) :
  recurrence st = Some (complex_divide_and_conquer subs f_n) ->
  solve P m1 st = solve P m2 st.
Proof.
  intro Hr. rewrite (solve_on_complex P m1 st Hr).
  rewrite (solve_on_complex P m2 st Hr). reflexivity.
Qed.

(** On the two simple shapes: the outcome and the attributes left. *)
Lemma solve_raises_on_simple (method : option str) (st : Solver)
    (r : Recurrence) :
  recurrence st = Some r ->
  (forall subs f_n, r <> complex_divide_and_conquer subs f_n) ->
  solve P method st = (Raise AttributeError, tick st).
Proof.
  intros Hr Hc. unfold solve, bind, get. rewrite Hr. cbn.
  destruct r as [subs f | a b f | d f];
    [exfalso; exact (Hc subs f eq_refl) | |]; cbn;
    destruct (is_method method "master"),
             (is_method method "substitution"),
             (is_method method "iteration"); reflexivity.
Qed.

(** X3.  On a recurrence of type ['divide_and_conquer'] or
    ['decrease_and_conquer'], [solve] raises [AttributeError] for every
    method hint, and all it has done by then is to read the clock once:
    no step, no solution, no method name and no elapsed time is stored. *)
Theorem solve_simple_shapes_raise (method : option str) (st : Solver)
    (r : Recurrence) :
  recurrence st = Some r ->
  (forall subs f_n, r <> complex_divide_and_conquer subs f_n) ->
  solve P method st = (Raise AttributeError, tick st).
Proof. apply solve_raises_on_simple. Qed.

(** X4.  On a complex recurrence [solve] never stores the elapsed time:
    whether it returns or raises, [execution_time] holds what it held
    before, and the clock has been read exactly once. *)
Theorem solve_complex_never_times (method : option str) (st : Solver)
    (subs : list Subproblem) (f_n : str) :
  recurrence st = Some (complex_divide_and_conquer subs f_n) ->
  execution_time (snd (solve P method st)) = execution_time st
  /\ ticks (snd (solve P method st)) = S (ticks st).
Proof.
  intro Hr. rewrite (solve_on_complex P method st Hr). split.
  - apply (solve_complex_keeps_time P subs f_n (tick st)).
  - assert (Hk : keeps ticks (solve_complex P subs f_n)).
    { unfold solve_complex, steps_append, set_solution_method, set_solution,
        ratio, format_solution, set_asymptotic_notation.
      repeat first
        [ apply keeps_bind; [|intro]
        | apply keeps_ret
        | apply keeps_lift
        | apply keeps_get
        | apply keeps_mapM; intro
        | apply keeps_modify; reflexivity
        | match goal with
          | |- keeps _ (if ?b then _ else _) => destruct b
          | |- keeps _ (let '(_, _) := ?x in _) => destruct x
          end ]. }
    apply (Hk (tick st)).
Qed.

End SolveShapes.

Lemma solve_complex_ignores_hint_witness :
  solve reference (Some (u "master"))
    (parsed (u "T(n) = 2T(n/2) + n")
       (complex_divide_and_conquer [{| sub_a := 2; sub_b := 2 |}] (u "n"))
       (u "Identified complex divide and conquer recurrence with 1 subproblems, f(n)=n"))
  = solve reference None
      (parsed (u "T(n) = 2T(n/2) + n")
         (complex_divide_and_conquer [{| sub_a := 2; sub_b := 2 |}] (u "n"))
         (u "Identified complex divide and conquer recurrence with 1 subproblems, f(n)=n")).
Proof.
  apply (@solve_complex_ignores_hint reference (Some (u "master")) None _
           [{| sub_a := 2; sub_b := 2 |}] (u "n")).
  reflexivity.
Defined.

Lemma solve_simple_shapes_raise_witness :
  solve reference (Some (u "master"))
    (parsed (u "T(n) = T(n-2) + n") (decrease_and_conquer 2 (u "n"))
       (u "Identified decrease and conquer recurrence with d=2, f(n)=n"))
  = (Raise AttributeError,
     tick (parsed (u "T(n) = T(n-2) + n") (decrease_and_conquer 2 (u "n"))
             (u "Identified decrease and conquer recurrence with d=2, f(n)=n"))).
Proof.
  apply (@solve_simple_shapes_raise reference (Some (u "master")) _
           (decrease_and_conquer 2 (u "n"))).
  - reflexivity.
  - intros subs f_n H. discriminate H.
Defined.

Lemma solve_complex_never_times_witness :
  execution_time
    (snd (solve reference None
            (parsed (u "T(n) = T(n/2) + T(n/6) + n*log(n)")
               (complex_divide_and_conquer two_terms (u "n*log(n)"))
               (u "Identified complex divide and conquer recurrence with 2 subproblems, f(n)=n*log(n)"))))
  = PyInt 0.
Proof.
  refine (proj1 (@solve_complex_never_times reference None
                   (parsed (u "T(n) = T(n/2) + T(n/6) + n*log(n)")
                      (complex_divide_and_conquer two_terms (u "n*log(n)"))
                      (u "Identified complex divide and conquer recurrence with 2 subproblems, f(n)=n*log(n)"))
                   two_terms (u "n*log(n)") _)).
  reflexivity.
Defined.


(** ** Base cases *)



(** ** What [solve] reads *)

Section SolveReads.
Variable P : Platform.

(** The value that the complex path returns, as a function of the
    subproblems and of the f-text alone. *)
Definition complex_outcome (subs : list Subproblem) (f_n : str)
  : outcome (option str) :=
  match py_min (map sub_b subs) with
  | Raise e => Raise e
  | Ret _ =>
    match parse_fn_growth P f_n with
    | Raise e => Raise e
    | Ret (c, p) =>
      match ratios_of P (py_sum (map sub_a subs)) subs with
      | Raise e => Raise e
      | Ret ratios =>
        match py_max ratios with
        | Raise e => Raise e
        | Ret max_ratio =>
          match decide c p max_ratio with
          | Raise e => Raise e
          | Ret raw => Ret (Some (format_text raw))
          end
        end
      end
    end
  end.

Lemma solve_complex_outcome (subs : list Subproblem) (f_n : str)
    (st : Solver) :
  fst (solve_complex P subs f_n st) = complex_outcome subs f_n.
Proof.
  unfold complex_outcome.
  destruct (py_min (map sub_b subs)) as [min_b|] eqn:Hmin.
  2: { unfold solve_complex, bind, lift. cbn. rewrite Hmin. reflexivity. }
  destruct (parse_fn_growth P f_n) as [[c p]|] eqn:Hg.
  2: { unfold solve_complex, bind, lift. cbn. rewrite Hmin. cbn.
       rewrite Hg. reflexivity. }
  destruct (ratios_of P (py_sum (map sub_a subs)) subs) as [ratios|] eqn:Hr.
  2: { unfold solve_complex, bind, lift. cbn. rewrite Hmin. cbn.
       rewrite Hg, mapM_ratio, Hr. reflexivity. }
  destruct (py_max ratios) as [max_ratio|] eqn:Hmax.
  2: { unfold solve_complex, bind, lift. cbn. rewrite Hmin. cbn.
       rewrite Hg, mapM_ratio, Hr, Hmax. reflexivity. }
  destruct (decide c p max_ratio) as [raw|] eqn:Hd.
  2: { unfold solve_complex, bind, lift. cbn. rewrite Hmin. cbn.
       rewrite Hg, mapM_ratio, Hr, Hmax. cbn. rewrite Hd. reflexivity. }
  rewrite (solve_complex_returns P subs f_n st Hmin Hg Hr Hmax Hd
             (decide_nonempty _ _ _ Hd)).
  reflexivity.
Qed.

Lemma solve_outcome_by_recurrence (method : option str) (s1 s2 : Solver) :
  recurrence s1 = recurrence s2 ->
  fst (solve P method s1) = fst (solve P method s2).
Proof.
  intro Hr. destruct (recurrence s2) as [r|] eqn:H2.
  - destruct r as [subs f | a b f | d f].
    + rewrite (solve_on_complex P method s1 Hr).
      rewrite (solve_on_complex P method s2 H2).
      rewrite !solve_complex_outcome. reflexivity.
    + rewrite (@solve_raises_on_simple P method s1 _ Hr) by discriminate.
      rewrite (@solve_raises_on_simple P method s2 _ H2) by discriminate.
      reflexivity.
    + rewrite (@solve_raises_on_simple P method s1 _ Hr) by discriminate.
      rewrite (@solve_raises_on_simple P method s2 _ H2) by discriminate.
      reflexivity.
  - unfold solve, bind, get. rewrite Hr, H2. reflexivity.
Qed.


(** X7.  What [solve] returns or raises is decided by [self.recurrence]
    alone: two solver objects with the same recurrence get the same
    outcome, whatever their base cases, steps, earlier solution and clock
    readings. *)
Theorem solve_reads_recurrence_only (method : option str)
    (st1 st2 : Solver) :
  recurrence st1 = recurrence st2 ->
  fst (solve P method st1) = fst (solve P method st2).
Proof. apply solve_outcome_by_recurrence. Qed.
End SolveReads.

Lemma solve_reads_recurrence_only_witness :
  fst (solve reference None
         (tick (parsed (u "T(n) = 2T(n/2) + n")
                  (complex_divide_and_conquer
                     [{| sub_a := 2; sub_b := 2 |}] (u "n"))
                  (u "earlier step"))))
  = fst (solve reference None
           (parsed (u "T(n) = 2T(n/2) + n")
              (complex_divide_and_conquer
                 [{| sub_a := 2; sub_b := 2 |}] (u "n"))
              (u "Identified complex divide and conquer recurrence with 1 subproblems, f(n)=n"))).
Proof.
  apply (@solve_reads_recurrence_only reference None). reflexivity.
Defined.

(** ** The formatter *)

(** *** Prefixes and occurrences *)

Lemma startswith_iff (p s : str) :
  startswith p s = true <-> exists t, s = p ++ t.
Proof.
  revert s. induction p as [|a p IH]; intro s; cbn.
  - split; [intros _; exists s; reflexivity | reflexivity].
  - destruct s as [|b s].
    + split; [discriminate | intros [t H]; discriminate H].
    + rewrite andb_true_iff, N.eqb_eq, IH. split.
      * intros [-> [t ->]]. exists t. reflexivity.
      * intros [t H]. injection H as -> ->. split; [reflexivity|].
        exists t. reflexivity.
Qed.

Lemma startswith_app (p t : str) : startswith p (p ++ t) = true.
Proof. apply startswith_iff. exists t. reflexivity. Qed.

(** A prefix of [x ++ y] is a prefix of [x], or it starts with [x]. *)
Lemma startswith_app_inv (w x y : str) :
  startswith w (x ++ y) = true ->
  startswith w x = true
  \/ exists w', w = x ++ w' /\ startswith w' y = true.
Proof.
  revert w. induction x as [|a x IH]; intros w H.
  - right. exists w. split; [reflexivity | exact H].
  - destruct w as [|b w]; [left; reflexivity|].
    cbn in H. apply andb_true_iff in H. destruct H as [Hab H].
    apply N.eqb_eq in Hab. subst b.
    destruct (IH w H) as [Hp | [w' [-> Hw']]].
    + left. cbn. rewrite N.eqb_refl. exact Hp.
    + right. exists w'. split; [reflexivity | exact Hw'].
Qed.

Lemma contains_cons (sub : str) (c : char) (s : str) :
  contains sub (c :: s) = startswith sub (c :: s) || contains sub s.
Proof. reflexivity. Qed.

Lemma contains_nil (sub : str) : contains sub [] = startswith sub [].
Proof. cbn. apply orb_false_r. Qed.

(** An occurrence in a suffix is an occurrence in the whole. *)
Lemma contains_skipn (sub s : str) (k : nat) :
  contains sub s = false -> contains sub (skipn k s) = false.
Proof.
  revert s. induction k as [|k IH]; intros s H; [exact H|].
  destruct s as [|c s]; [exact H|].
  cbn [skipn]. apply IH. rewrite contains_cons in H.
  apply orb_false_iff in H. apply H.
Qed.

(** The suffixes of a text that are not empty. *)
Fixpoint suffixes (s : str) : list str :=
  match s with
  | [] => []
  | _ :: s' => s :: suffixes s'
  end.

Lemma in_suffixes (x w : str) : w <> [] -> In w (suffixes (x ++ w)).
Proof.
  intro Hw. induction x as [|a x IH]; cbn.
  - destruct w; [contradiction | left; reflexivity].
  - right. exact IH.
Qed.

Lemma existsb_false_in {A} (f : A -> bool) (l : list A) :
  existsb f l = false -> forall x, In x l -> f x = false.
Proof.
  intros H x Hin. destruct (f x) eqn:Hf; [|reflexivity].
  rewrite <- H. symmetry. apply existsb_exists. exists x. split; assumption.
Qed.

(** *** [replace], one character at a time *)

Section Replace.
Variables old new : str.

Lemma replace_from_skipn (k : nat) (s : str) :
  replace_from old new k s = replace old new (skipn k s).
Proof.
  revert k. induction s as [|c s IH]; intro k.
  - destruct k; reflexivity.
  - destruct k as [|k]; [reflexivity|]. cbn. apply IH.
Qed.

Lemma replace_hit (c : char) (s : str) :
  startswith old (c :: s) = true ->
  replace old new (c :: s)
  = new ++ replace old new (skipn (pred (length old)) s).
Proof.
  intro H. unfold replace at 1. cbn [replace_from]. rewrite H.
  rewrite replace_from_skipn. reflexivity.
Qed.

Lemma replace_miss (c : char) (s : str) :
  startswith old (c :: s) = false ->
  replace old new (c :: s) = c :: replace old new s.
Proof.
  intro H. unfold replace at 1. cbn [replace_from]. rewrite H. reflexivity.
Qed.

(** Induction on a text along the steps that [replace] takes. *)
Lemma replace_ind (Q : str -> Prop) :
  Q [] ->
  (forall c s, startswith old (c :: s) = true ->
               Q (skipn (pred (length old)) s) -> Q (c :: s)) ->
  (forall c s, startswith old (c :: s) = false -> Q s -> Q (c :: s)) ->
  forall s, Q s.
Proof.
  intros Hnil Hhit Hmiss s.
  assert (H : forall n s, (length s <= n)%nat -> Q s).
  { induction n as [|n IH]; intros [|c t] Hlen; try exact Hnil.
    - cbn in Hlen. lia.
    - cbn in Hlen. destruct (startswith old (c :: t)) eqn:Hp.
      + apply Hhit; [exact Hp|]. apply IH.
        rewrite length_skipn. lia.
      + apply Hmiss; [exact Hp|]. apply IH. lia. }
  apply (H (length s)). lia.
Qed.

(** A text without any occurrence of [old] is left as it is. *)
Lemma replace_absent (s : str) :
  contains old s = false -> replace old new s = s.
Proof.
  induction s as [|c s IH]; intro H; [reflexivity|].
  rewrite contains_cons in H. apply orb_false_iff in H.
  destruct H as [Hp Hc]. rewrite replace_miss, IH by assumption.
  reflexivity.
Qed.

(** Two texts clash when one is a prefix of the other. *)
Definition comparable (x y : str) : bool := startswith x y || startswith y x.

(** [target] cannot overlap an inserted copy of [new]: neither does it
    continue a tail of [new], nor does [new] continue a tail of it. *)
Definition overlaps (target : str) : bool :=
  existsb (comparable target) (suffixes new)
  || existsb (fun w => comparable w new) (suffixes target).

(** A text that the output starts with is copied from the input, or it
    runs into an inserted copy of [new]. *)
Lemma startswith_replace (s w : str) :
  w <> [] ->
  startswith w (replace old new s) = true ->
  (startswith old s = false /\ startswith w s = true)
  \/ exists x w', w = x ++ w' /\ w' <> [] /\ comparable w' new = true.
Proof.
  revert w. induction s as [|c s IH]; intros w Hw H.
  - destruct w; [contradiction | discriminate H].
  - destruct (startswith old (c :: s)) eqn:Hp.
    + right. rewrite replace_hit in H by exact Hp. exists [], w.
      split; [reflexivity|]. split; [exact Hw|].
      unfold comparable. apply startswith_app_inv in H.
      destruct H as [H | [w' [-> _]]].
      * rewrite H. reflexivity.
      * rewrite startswith_app. apply orb_true_r.
    + rewrite replace_miss in H by exact Hp.
      destruct w as [|b w]; [contradiction|].
      cbn in H. apply andb_true_iff in H. destruct H as [Hb H].
      apply N.eqb_eq in Hb. subst b.
      destruct w as [|b' w].
      * left. split; [reflexivity|]. cbn. rewrite N.eqb_refl. reflexivity.
      * destruct (IH (b' :: w) ltac:(discriminate) H)
          as [[_ Hs] | (x & w' & Heq & Hw' & Hcmp)].
        -- left. split; [reflexivity|].
           change (startswith (c :: b' :: w) (c :: s))
             with ((c =? c)%N && startswith (b' :: w) s).
           rewrite N.eqb_refl. exact Hs.
        -- right. exists (c :: x), w'. rewrite Heq.
           split; [reflexivity|]. split; assumption.
Qed.

Lemma contains_new_app (target r : str) :
  existsb (comparable target) (suffixes new) = false ->
  contains target r = false ->
  contains target (new ++ r) = false.
Proof.
  intros Hs Hr. induction new as [|a x IH]; [exact Hr|].
  cbn [suffixes existsb] in Hs. apply orb_false_iff in Hs.
  destruct Hs as [Ha Hx].
  change ((a :: x) ++ r) with (a :: x ++ r). rewrite contains_cons.
  rewrite (IH Hx), orb_false_r.
  destruct (startswith target (a :: x ++ r)) eqn:Hp; [|reflexivity].
  change (a :: x ++ r) with ((a :: x) ++ r) in Hp.
  unfold comparable in Ha. apply orb_false_iff in Ha. destruct Ha as [H1 H2].
  apply startswith_app_inv in Hp. destruct Hp as [Hp | [w' [-> _]]].
  - rewrite Hp in H1. discriminate H1.
  - rewrite startswith_app in H2. discriminate H2.
Qed.

(** After the replacement, a text that cannot overlap [new] occurs nowhere
    in the output, if it is [old] itself or if it occurred nowhere in the
    input. *)
Lemma absent_after_replace (target s : str) :
  target <> [] ->
  overlaps target = false ->
  target = old \/ contains target s = false ->
  contains target (replace old new s) = false.
Proof.
  intros Hne Hov. unfold overlaps in Hov. apply orb_false_iff in Hov.
  destruct Hov as [Hnew Htarget].
  induction s as [| c s Hp IH | c s Hp IH] using replace_ind; intro Hs.
  - rewrite contains_nil. destruct target; [contradiction | reflexivity].
  - rewrite replace_hit by exact Hp. apply contains_new_app; [exact Hnew|].
    apply IH. destruct Hs as [Hs | Hs]; [left; exact Hs|]. right.
    rewrite contains_cons in Hs. apply orb_false_iff in Hs.
    apply contains_skipn, Hs.
  - rewrite replace_miss by exact Hp. rewrite contains_cons.
    assert (Htail : contains target (replace old new s) = false).
    { apply IH. destruct Hs as [Hs | Hs]; [left; exact Hs|]. right.
      rewrite contains_cons in Hs. apply orb_false_iff in Hs. apply Hs. }
    rewrite Htail, orb_false_r.
    assert (Hhere : startswith target (c :: s) = false).
    { destruct Hs as [-> | Hs]; [exact Hp|].
      rewrite contains_cons in Hs. apply orb_false_iff in Hs. apply Hs. }
    destruct (startswith target (c :: replace old new s)) eqn:Hout;
      [exfalso | reflexivity].
    destruct target as [|b w]; [contradiction|].
    cbn in Hout. apply andb_true_iff in Hout. destruct Hout as [Hb Hout].
    apply N.eqb_eq in Hb. subst b.
    destruct w as [|b' w].
    + cbn in Hhere. rewrite N.eqb_refl in Hhere. discriminate Hhere.
    + destruct (@startswith_replace s (b' :: w) ltac:(discriminate) Hout)
        as [[_ Hcopy] | (x & w' & Heq & Hw' & Hcmp)].
      * change (startswith (c :: b' :: w) (c :: s))
          with ((c =? c)%N && startswith (b' :: w) s) in Hhere.
        rewrite N.eqb_refl, Hcopy in Hhere. discriminate Hhere.
      * assert (Hin : In w' (suffixes ((c :: x) ++ w')))
          by (apply in_suffixes; exact Hw').
        change ((c :: x) ++ w') with (c :: x ++ w') in Hin.
        rewrite <- Heq in Hin.
        rewrite (existsb_false_in _ _ Htarget _ Hin) in Hcmp.
        discriminate Hcmp.
Qed.
End Replace.

Lemma startswith_split (a : char) (p : str) (c : char) (s : str) :
  startswith (a :: p) (c :: s) = true ->
  c :: s = (a :: p) ++ skipn (length p) s.
Proof.
  intro H. apply startswith_iff in H. destruct H as [t H].
  injection H as -> ->. cbn. f_equal.
  induction p as [|b p IH]; [reflexivity|].
  cbn. f_equal. exact IH.
Qed.

(** Replacing a text by itself changes nothing. *)
Lemma replace_same (old s : str) : old <> [] -> replace old old s = s.
Proof.
  intro Hne. induction s as [| c s Hp IH | c s Hp IH] using (replace_ind old).
  - reflexivity.
  - rewrite replace_hit by exact Hp. rewrite IH.
    destruct old as [|a p]; [contradiction|].
    symmetry. apply (startswith_split _ _ _ _ Hp).
  - rewrite replace_miss by exact Hp. rewrite IH. reflexivity.
Qed.

(** *** The formatted form *)

(** A text is in formatted form when none of the four texts that the
    formatter rewrites occurs in it. *)
Definition formatted (s : str) : Prop :=
  contains (u "Theta") s = false /\ contains (u "theta") s = false
  /\ contains (u "n^2") s = false /\ contains (u "n^3") s = false.

Lemma format_text_formatted (x : str) : formatted (format_text x).
Proof.
  unfold format_text.
  rewrite (@replace_same (u "O(")) by discriminate.
  set (s1 := replace (u "Theta") (u "Θ") x).
  set (s2 := replace (u "theta") (u "Θ") s1).
  set (s3 := replace (u "n^2") (u "n²") s2).
  assert (H1 : contains (u "Theta") s1 = false).
  { apply absent_after_replace;
      [discriminate | vm_compute; reflexivity | left; reflexivity]. }
  assert (H2 : contains (u "Theta") s2 = false
               /\ contains (u "theta") s2 = false).
  { split; apply absent_after_replace;
      try discriminate; try (vm_compute; reflexivity);
      [right; exact H1 | left; reflexivity]. }
  destruct H2 as [H2 H2'].
  assert (H3 : contains (u "Theta") s3 = false
               /\ contains (u "theta") s3 = false
               /\ contains (u "n^2") s3 = false).
  { repeat split; apply absent_after_replace;
      try discriminate; try (vm_compute; reflexivity);
      [right; exact H2 | right; exact H2' | left; reflexivity]. }
  destruct H3 as (H3 & H3' & H3'').
  repeat split; apply absent_after_replace;
    try discriminate; try (vm_compute; reflexivity);
    [right; exact H3 | right; exact H3' | right; exact H3''
    | left; reflexivity].
Qed.

Lemma format_text_fixed (s : str) : formatted s -> format_text s = s.
Proof.
  intros (H1 & H2 & H3 & H4). unfold format_text.
  rewrite (@replace_absent (u "Theta") (u "Θ") s H1).
  rewrite (@replace_absent (u "theta") (u "Θ") s H2).
  rewrite (@replace_same (u "O(")) by discriminate.
  rewrite (@replace_absent (u "n^2") (u "n²") s H3).
  rewrite (@replace_absent (u "n^3") (u "n³") s H4). reflexivity.
Qed.

(** X8.  The formatter is idempotent on what it returns: the text that
    [format_solution] returns contains none of ["Theta"], ["theta"],
    ["n^2"], ["n^3"], and formatting it again, on any solver object,
    returns it unchanged. *)
Theorem format_solution_idempotent (x : str) (st st' : Solver) :
  fst (format_solution x st) = Ret (format_text x)
  /\ formatted (format_text x)
  /\ fst (format_solution (format_text x) st') = Ret (format_text x).
Proof.
  split; [reflexivity|]. split; [apply format_text_formatted|].
  cbn. rewrite format_text_fixed by apply format_text_formatted.
  reflexivity.
Qed.

(** X9.  A text in which none of ["Theta"], ["theta"], ["n^2"], ["n^3"]
    occurs is returned by [format_solution] as it is; the text given is
    what [asymptotic_notation] holds afterwards, and two steps are
    appended, the text before and the text after. *)
Theorem format_solution_fixed_point (s : str) (st : Solver) :
  formatted s ->
  fst (format_solution s st) = Ret s
  /\ asymptotic_notation (snd (format_solution s st)) = Some s
  /\ steps (snd (format_solution s st))
     = steps st ++ [u "Formatting solution: " ++ s;
                    u "Formatted solution: " ++ s].
Proof.
  intro H. cbn. rewrite (format_text_fixed H), <- app_assoc.
  split; [reflexivity|]. split; reflexivity.
Qed.

Lemma format_solution_fixed_point_witness :
  formatted (u "Θ(n^1.5 log n)")
  /\ fst (format_solution (u "Θ(n^1.5 log n)") init)
     = Ret (u "Θ(n^1.5 log n)").
Proof.
  assert (H : formatted (u "Θ(n^1.5 log n)")) by (repeat split).
  split; [exact H|].
  apply (@format_solution_fixed_point (u "Θ(n^1.5 log n)") init H).
Defined.

(** * The patterns *)

(** ** What a pattern matches *)

(** [matches r s g s' g']: the pattern [r] matches a prefix of [s], leaving
    [s'], and the groups go from [g] to [g']. *)
Inductive matches : regex -> str -> groups -> str -> groups -> Prop :=
| M_Eps s g : matches Eps s g s g
| M_Lit a s g : matches (Lit a) (a :: s) g s g
| M_Cls (p : char -> bool) c s g :
    p c = true -> matches (Cls p) (c :: s) g s g
| M_Cat r1 r2 s g s1 g1 s2 g2 :
    matches r1 s g s1 g1 -> matches r2 s1 g1 s2 g2 ->
    matches (Cat r1 r2) s g s2 g2
| M_Opt_some r s g s' g' : matches r s g s' g' -> matches (Opt r) s g s' g'
| M_Opt_none r s g : matches (Opt r) s g s g
| M_Star_stop r s g : matches (Star r) s g s g
| M_Star_more r s g s1 g1 s2 g2 :
    matches r s g s1 g1 -> (length s1 < length s)%nat ->
    matches (Star r) s1 g1 s2 g2 -> matches (Star r) s g s2 g2
| M_Plus r s g s1 g1 s2 g2 :
    matches r s g s1 g1 -> matches (Star r) s1 g1 s2 g2 ->
    matches (Plus r) s g s2 g2
| M_Grp i r s g s' g' :
    matches r s g s' g' ->
    matches (Grp i r) s g s' ((i, firstn (length s - length s') s) :: g').

Section MatcherFacts.
Variable R : Type.
Implicit Types (k : cont R) (x : R).

Lemma orelse_some (a b : option R) x :
  orelse a b = Some x -> a = Some x \/ (a = None /\ b = Some x).
Proof. destruct a; cbn; intro H; [left | right; split]; congruence. Qed.

Lemma orelse_not_none (a b : option R) :
  a <> None \/ b <> None -> orelse a b <> None.
Proof. destruct a; cbn; intros [H | H]; congruence. Qed.

(** The loop of a repetition succeeds only along a match of the starred
    pattern, if each round does so for the repeated one. *)
Lemma repeat_sound (r : regex) :
  (forall k s g x, exec r k s g = Some x ->
     exists s' g', matches r s g s' g' /\ k s' g' = Some x) ->
  forall fuel k s g x, repeat (exec r) k fuel s g = Some x ->
    exists s' g', matches (Star r) s g s' g' /\ k s' g' = Some x.
Proof.
  intros IHr fuel k. induction fuel as [|n IH]; intros s g x H; cbn [repeat] in H.
  - exists s, g. split; [constructor | exact H].
  - apply orelse_some in H. destruct H as [H | [_ H]].
    + apply IHr in H. destruct H as (s1 & g1 & Hm & H). cbv beta in H.
      destruct (length s1 <? length s)%nat eqn:Hlt; [|discriminate H].
      apply Nat.ltb_lt in Hlt. apply IH in H.
      destruct H as (s2 & g2 & Hm2 & H). exists s2, g2.
      split; [|exact H]. eapply M_Star_more; eassumption.
    + exists s, g. split; [constructor | exact H].
Qed.

(** Soundness: what the matcher finds is a match. *)
Lemma exec_sound (r : regex) :
  forall k s g x, exec r k s g = Some x ->
    exists s' g', matches r s g s' g' /\ k s' g' = Some x.
Proof.
  induction r as [| a | p | r1 IH1 r2 IH2 | r IH | r IH | r IH | i r IH];
    intros k s g x H; cbn [exec] in H.
  - exists s, g. split; [constructor | exact H].
  - destruct s as [|c s]; [discriminate H|].
    destruct (c =? a)%N eqn:Hc; [|discriminate H].
    apply N.eqb_eq in Hc. subst c. exists s, g.
    split; [constructor | exact H].
  - destruct s as [|c s]; [discriminate H|].
    destruct (p c) eqn:Hc; [|discriminate H]. exists s, g.
    split; [constructor; exact Hc | exact H].
  - apply IH1 in H. destruct H as (s1 & g1 & Hm1 & H).
    apply IH2 in H. destruct H as (s2 & g2 & Hm2 & H).
    exists s2, g2. split; [econstructor; eassumption | exact H].
  - apply orelse_some in H. destruct H as [H | [_ H]].
    + apply IH in H. destruct H as (s1 & g1 & Hm & H).
      exists s1, g1. split; [constructor; exact Hm | exact H].
    + exists s, g. split; [apply M_Opt_none | exact H].
  - apply (repeat_sound IH) in H. exact H.
  - apply IH in H. destruct H as (s1 & g1 & Hm & H).
    apply (repeat_sound IH) in H. destruct H as (s2 & g2 & Hm2 & H).
    exists s2, g2. split; [econstructor; eassumption | exact H].
  - apply IH in H. destruct H as (s1 & g1 & Hm & H).
    eexists; eexists. split; [constructor; exact Hm | exact H].
Qed.

Lemma repeat_complete (r : regex) :
  (forall k s g s' g', matches r s g s' g' -> k s' g' <> None ->
     exec r k s g <> None) ->
  forall fuel k s g s' g', (length s <= fuel)%nat ->
    matches (Star r) s g s' g' -> k s' g' <> None ->
    repeat (exec r) k fuel s g <> None.
Proof.
  intros IHr fuel k. induction fuel as [|n IH]; intros s g s' g' Hlen Hm Hk.
  - inversion Hm; subst.
    + exact Hk.
    + lia.
  - cbn [repeat]. apply orelse_not_none. inversion Hm; subst.
    + right. exact Hk.
    + left. eapply IHr; [eassumption|].
      match goal with H : (length _ < length s)%nat |- _ =>
        apply Nat.ltb_lt in H as Hlt; rewrite Hlt end.
      eapply IH; [lia | eassumption | exact Hk].
Qed.

(** Completeness: where there is a match after which the rest succeeds,
    the matcher does not fail. *)
Lemma exec_complete (r : regex) :
  forall k s g s' g', matches r s g s' g' -> k s' g' <> None ->
    exec r k s g <> None.
Proof.
  induction r as [| a | p | r1 IH1 r2 IH2 | r IH | r IH | r IH | i r IH];
    intros k s g s' g' Hm Hk; inversion Hm; subst; cbn [exec].
  - exact Hk.
  - rewrite N.eqb_refl. exact Hk.
  - match goal with H : p _ = true |- _ => rewrite H end. exact Hk.
  - eapply IH1; [eassumption|]. eapply IH2; eassumption.
  - apply orelse_not_none. left. eapply IH; eassumption.
  - apply orelse_not_none. right. exact Hk.
  - eapply (repeat_complete IH); [lia | apply M_Star_stop | exact Hk].
  - eapply (repeat_complete IH); [lia | | exact Hk].
    eapply M_Star_more; eassumption.
  - eapply IH; [eassumption|].
    eapply (repeat_complete IH); [lia | eassumption | exact Hk].
  - eapply IH; [eassumption | exact Hk].
Qed.
End MatcherFacts.

Lemma re_match_sound (r : regex) (s : str) (m : Match) :
  re_match r s = Some m -> matches r s [] (m_rest m) (m_groups m).
Proof.
  intro H. apply exec_sound in H. destruct H as (s' & g' & Hm & H).
  injection H as <-. exact Hm.
Qed.

Lemma re_match_complete (r : regex) (s s' : str) (g' : groups) :
  matches r s [] s' g' -> re_match r s <> None.
Proof.
  intro Hm. unfold re_match. eapply exec_complete; [exact Hm | discriminate].
Qed.

Lemma matches_cat_inv (r1 r2 : regex) (s s2 : str) (g g2 : groups) :
  matches (Cat r1 r2) s g s2 g2 ->
  exists s1 g1, matches r1 s g s1 g1 /\ matches r2 s1 g1 s2 g2.
Proof. intro H. inversion H; subst. eauto. Qed.

Lemma matches_seq_cons (r : regex) (rs : list regex) (s s2 : str)
    (g g2 : groups) :
  matches (seq (r :: rs)) s g s2 g2 ->
  exists s1 g1, matches r s g s1 g1 /\ matches (seq rs) s1 g1 s2 g2.
Proof. apply matches_cat_inv. Qed.

Lemma matches_lits (t s s' : str) (g g' : groups) :
  matches (lits t) s g s' g' -> s = t ++ s' /\ g' = g.
Proof.
  revert s g. induction t as [|a t IH]; intros s g H.
  - inversion H; subst. split; reflexivity.
  - apply matches_cat_inv in H. destruct H as (s1 & g1 & H1 & H2).
    inversion H1; subst. apply IH in H2. destruct H2 as [-> ->].
    split; reflexivity.
Qed.

Lemma matches_lits_intro (t s : str) (g : groups) :
  matches (lits t) (t ++ s) g s g.
Proof.
  induction t as [|a t IH]; [constructor|].
  eapply M_Cat; [constructor | exact IH].
Qed.

(** A text that a pattern opening with a literal accepts starts with
    it. *)
Lemma re_match_starts (t : str) (rs : list regex) (s : str) (m : Match) :
  re_match (seq (lits t :: rs)) s = Some m -> startswith t s = true.
Proof.
  intro H. apply re_match_sound, matches_seq_cons in H.
  destruct H as (s1 & g1 & H & _). apply matches_lits in H.
  destruct H as [-> _]. apply startswith_app.
Qed.

(** Groups put aside, a group matches what its body matches. *)
Lemma matches_grp_inv (i : nat) (r : regex) (s s' : str) (g g' : groups) :
  matches (Grp i r) s g s' g' -> exists g1, matches r s g s' g1.
Proof. intro H. inversion H; subst. eauto. Qed.

(** A pattern without groups matches whatever the groups are, and leaves
    them as they are. *)
Fixpoint groupless (r : regex) : bool :=
  match r with
  | Eps | Lit _ | Cls _ => true
  | Cat r1 r2 => groupless r1 && groupless r2
  | Opt r1 | Star r1 | Plus r1 => groupless r1
  | Grp _ _ => false
  end.

Lemma matches_groupless (r : regex) (s s' : str) (g g' : groups) :
  matches r s g s' g' -> groupless r = true ->
  g' = g /\ forall h, matches r s h s' h.
Proof.
  intro H. induction H; cbn [groupless]; intro Hg;
    try (apply andb_true_iff in Hg; destruct Hg as [Hg1 Hg2]).
  - split; [reflexivity | intro h; constructor].
  - split; [reflexivity | intro h; constructor].
  - split; [reflexivity | intro h; constructor; assumption].
  - destruct (IHmatches1 Hg1) as [-> H1']. destruct (IHmatches2 Hg2) as [-> H2'].
    split; [reflexivity | intro h; eapply M_Cat; [apply H1' | apply H2']].
  - destruct (IHmatches Hg) as [-> H']. split; [reflexivity|].
    intro h. apply M_Opt_some, H'.
  - split; [reflexivity | intro h; apply M_Opt_none].
  - split; [reflexivity | intro h; apply M_Star_stop].
  - destruct (IHmatches1 Hg) as [-> H1']. destruct (IHmatches2 Hg) as [-> H2'].
    split; [reflexivity|]. intro h. eapply M_Star_more; [apply H1' | assumption | apply H2'].
  - destruct (IHmatches1 Hg) as [-> H1']. destruct (IHmatches2 Hg) as [-> H2'].
    split; [reflexivity | intro h; eapply M_Plus; [apply H1' | apply H2']].
  - discriminate Hg.
Qed.

Lemma matches_any_groups (r : regex) (s s' : str) (g g' h : groups) :
  groupless r = true -> matches r s g s' g' -> matches r s h s' h.
Proof. intros Hg H. apply (matches_groupless H Hg). Qed.

Lemma matches_ungroup (i : nat) (r : regex) (s s' : str) (g g' h : groups) :
  groupless r = true -> matches (Grp i r) s g s' g' -> matches r s h s' h.
Proof.
  intros Hg H. apply matches_grp_inv in H. destruct H as [g1 H].
  apply (matches_any_groups h Hg H).
Qed.

(** A match of a pattern without groups, under other groups. *)
Ltac regroup H :=
  refine (@matches_any_groups _ _ _ _ _ _ _ H); reflexivity.

(** The next sub-pattern of a sequence. *)
Ltac pop H Hx :=
  apply matches_seq_cons in H;
  let s1 := fresh "s" in
  let g1 := fresh "g" in
  destruct H as (s1 & g1 & Hx & H).

(** Every text that the simple divide-and-conquer pattern accepts, the
    complex pattern accepts too. *)
Lemma simple_within_complex (s : str) :
  re_match divide_conquer_pattern s <> None ->
  re_match complex_divide_conquer_pattern s <> None.
Proof.
  intro H. destruct (re_match divide_conquer_pattern s) as [m|] eqn:Hm;
    [clear H | contradiction].
  apply re_match_sound in Hm. unfold divide_conquer_pattern in Hm.
  pop Hm Ht. pop Hm Hw1. pop Hm Heq. pop Hm Hw2. pop Hm Ha. pop Hm Htn.
  pop Hm Hw3. pop Hm Hsl. pop Hm Hw4. pop Hm Hb. pop Hm Hcl. pop Hm Hw5.
  pop Hm Hpl. pop Hm Hw6.
  apply matches_lits in Ht. destruct Ht as [-> ->].
  apply matches_lits in Htn. destruct Htn as [-> ->].
  eapply re_match_complete. unfold complex_divide_conquer_pattern.
  eapply M_Cat; [apply matches_lits_intro|].
  eapply M_Cat; [regroup Hw1|].
  eapply M_Cat; [regroup Heq|].
  eapply M_Cat; [regroup Hw2|].
  eapply M_Cat; [|eapply M_Cat; [apply M_Grp, M_Star_stop | apply M_Eps]].
  apply M_Grp. eapply M_Plus; [|apply M_Star_stop].
  eapply M_Cat.
  { inversion Ha; subst.
    - apply M_Opt_some. eapply matches_ungroup; [reflexivity | eassumption].
    - apply M_Opt_none. }
  eapply M_Cat; [apply matches_lits_intro|].
  eapply M_Cat; [regroup Hw3|].
  eapply M_Cat; [regroup Hsl|].
  eapply M_Cat; [regroup Hw4|].
  eapply M_Cat; [eapply matches_ungroup; [reflexivity | exact Hb]|].
  eapply M_Cat; [regroup Hcl|].
  eapply M_Cat; [regroup Hw5|].
  eapply M_Cat; [apply M_Opt_some; regroup Hpl|].
  eapply M_Cat; [regroup Hw6 | apply M_Eps].
Qed.

(** ** The outcomes of [parse_recurrence] *)

(** Reading the numbers of a term leaves the attributes alone. *)
Lemma parse_subproblems_state (l : list Match) (st : Solver) :
  snd (mapM parse_subproblem l st) = st.
Proof.
  induction l as [|m l IH]; [reflexivity|].
  cbn [mapM]. unfold bind at 1. unfold parse_subproblem at 1.
  unfold bind, lift, ret.
  destruct (truthy (group (m_groups m) 1));
    [destruct (int_opt (group (m_groups m) 1)); [|reflexivity]|];
    (destruct (int_opt (group (m_groups m) 2)); [|reflexivity]);
    (destruct (mapM parse_subproblem l st) as [[ys|e] st'] eqn:Hl;
     cbn in IH; subst st'; reflexivity).
Qed.

(** The attributes with another recurrence and one more step. *)
Definition with_step (st : Solver) (x : str) : Solver := {|
  recurrence := recurrence st; base_cases := base_cases st;
  solution := solution st; solution_method := solution_method st;
  execution_time := execution_time st; steps := steps st ++ [x];
  asymptotic_notation := asymptotic_notation st; ticks := ticks st
|}.

Definition with_recurrence (st : Solver) (r : Recurrence) : Solver := {|
  recurrence := Some r; base_cases := base_cases st;
  solution := solution st; solution_method := solution_method st;
  execution_time := execution_time st; steps := steps st;
  asymptotic_notation := asymptotic_notation st; ticks := ticks st
|}.

(** The four ways in which [parse_recurrence] ends. *)
Inductive parse_outcome (st : Solver) : outcome (option Recurrence) * Solver
                                        -> Prop :=
| parse_raises e st' :
    recurrence st' = recurrence st -> parse_outcome st (Raise e, st')
| parse_fails st' :
    recurrence st' = recurrence st -> parse_outcome st (Ret None, st')
| parse_complex subs f_n st' :
    recurrence st' = Some (complex_divide_and_conquer subs f_n) ->
    parse_outcome st (Ret (Some (complex_divide_and_conquer subs f_n)), st')
| parse_decrease d f_n st' :
    recurrence st' = Some (decrease_and_conquer d f_n) ->
    parse_outcome st (Ret (Some (decrease_and_conquer d f_n)), st').

Lemma parse_recurrence_outcome (text : str) (st : Solver) :
  parse_outcome st (parse_recurrence text st).
Proof.
  unfold parse_recurrence.
  unfold bind at 1. cbn [steps_append modify].
  set (st1 := {| recurrence := recurrence st |}).
  destruct (re_match complex_divide_conquer_pattern text) as [m|] eqn:H1.
  - unfold bind, lift.
    destruct (strip_opt (group (m_groups m) 1)) as [t_terms|];
      [|apply parse_raises; reflexivity].
    destruct (strip_opt (group (m_groups m) 2)) as [f_n|];
      [|apply parse_raises; reflexivity].
    pose proof (parse_subproblems_state (finditer t_term_pattern t_terms) st1)
      as Hst.
    destruct (mapM parse_subproblem (finditer t_term_pattern t_terms) st1)
      as [[subs|e] st2]; cbn in Hst; subst st2.
    + cbn. apply parse_complex. reflexivity.
    + apply parse_raises. reflexivity.
  - destruct (re_match divide_conquer_pattern text) as [m|] eqn:H2.
    { exfalso. apply (@simple_within_complex text); [|exact H1].
      rewrite H2. discriminate. }
    destruct (re_match decrease_conquer_pattern text) as [m|] eqn:H3.
    + unfold bind, lift.
      destruct (int_opt (group (m_groups m) 1)) as [d|];
        [|apply parse_raises; reflexivity].
      destruct (strip_opt (group (m_groups m) 2)) as [f_n|];
        [|apply parse_raises; reflexivity].
      cbn. apply parse_decrease. reflexivity.
    + cbn. apply parse_fails. reflexivity.
Qed.

(** X10.  Every text that the simple divide-and-conquer pattern accepts is
    accepted by the complex pattern, which [parse_recurrence] tries first:
    the branch of the simple pattern is never taken. *)
Theorem simple_pattern_is_shadowed (text : str) :
  re_match divide_conquer_pattern text <> None ->
  re_match complex_divide_conquer_pattern text <> None.
Proof. apply simple_within_complex. Qed.

Lemma simple_pattern_is_shadowed_witness :
  re_match divide_conquer_pattern (u "T(n) = 4T(n/2) + n^2") <> None
  /\ re_match complex_divide_conquer_pattern (u "T(n) = 4T(n/2) + n^2")
     <> None.
Proof.
  assert (H : re_match divide_conquer_pattern (u "T(n) = 4T(n/2) + n^2")
              <> None) by (vm_compute; discriminate).
  split; [exact H|].
  apply (@simple_pattern_is_shadowed (u "T(n) = 4T(n/2) + n^2") H).
Defined.

(** X11.  Whatever the text and the state of the solver object,
    [parse_recurrence] ends in one of four ways: it raises, or returns
    [None], and the recurrence stored before is still there; or it returns a
    record of type ['complex_divide_and_conquer'] or
    ['decrease_and_conquer'], which is then the recurrence stored.  It never
    returns a record of type ['divide_and_conquer']. *)
Theorem parse_recurrence_outcomes (text : str) (st : Solver) :
  parse_outcome st (parse_recurrence text st)
  /\ forall a b f_n,
       fst (parse_recurrence text st)
       <> Ret (Some (divide_and_conquer a b f_n)).
Proof.
  pose proof (parse_recurrence_outcome text st) as H.
  split; [exact H|]. intros a b f_n.
  destruct H; cbn; discriminate.
Qed.

(** X12.  A text that does not start with the four characters [T(n)]
    (an upper-case T, no blank before it) is not parsed: [parse_recurrence]
    returns [None], appends the two steps "Parsing ..." and "Failed ...",
    and keeps whatever recurrence was stored before, which a later [solve]
    will therefore still work on. *)
Theorem parse_needs_T_of_n (text : str) (st : Solver) :
  startswith (u "T(n)") text = false ->
  parse_recurrence text st
  = (Ret None,
     with_step (with_step st (u "Parsing recurrence relation: " ++ text))
       (u "Failed to parse the recurrence relation.")).
Proof.
  intro Hs.
  assert (H1 : re_match complex_divide_conquer_pattern text = None).
  { destruct (re_match complex_divide_conquer_pattern text) eqn:H;
      [|reflexivity].
    unfold complex_divide_conquer_pattern in H.
    apply re_match_starts in H. congruence. }
  assert (H2 : re_match divide_conquer_pattern text = None).
  { destruct (re_match divide_conquer_pattern text) eqn:H; [|reflexivity].
    unfold divide_conquer_pattern in H.
    apply re_match_starts in H. congruence. }
  assert (H3 : re_match decrease_conquer_pattern text = None).
  { destruct (re_match decrease_conquer_pattern text) eqn:H; [|reflexivity].
    unfold decrease_conquer_pattern in H.
    apply re_match_starts in H. congruence. }
  unfold parse_recurrence. rewrite H1, H2, H3. reflexivity.
Qed.

Lemma parse_needs_T_of_n_witness :
  startswith (u "T(n)") (u "t(n) = 2t(n/2) + n") = false
  /\ fst (parse_recurrence (u "t(n) = 2t(n/2) + n") init) = Ret None.
Proof.
  split; [reflexivity|].
  rewrite (@parse_needs_T_of_n (u "t(n) = 2t(n/2) + n") init eq_refl).
  reflexivity.
Defined.

(** ** The numbers of a parsed recurrence *)

Lemma int_digits_nonneg (s : str) (acc n : Z) :
  int_digits acc s = Some n -> 0 <= acc -> 0 <= n.
Proof.
  revert acc. induction s as [|c s IH]; intros acc H Hacc;
    cbn [int_digits] in H.
  - injection H as <-. exact Hacc.
  - destruct (decimal c) as [d|] eqn:Hd; [|discriminate H].
    apply IH in H; [exact H|].
    unfold decimal in Hd.
    destruct (find _ decimal_zeros); [|discriminate Hd].
    injection Hd as <-. lia.
Qed.

Lemma py_int_nonneg (s : str) (n : Z) : py_int s = Ret n -> 0 <= n.
Proof.
  unfold py_int. destruct s as [|c s]; [discriminate|].
  destruct (int_digits 0 (c :: s)) as [v|] eqn:Hv; [|discriminate].
  destruct (_ <? _)%nat; [discriminate|]. intro H. injection H as <-.
  apply (@int_digits_nonneg _ 0 _ Hv). lia.
Qed.

Lemma int_opt_nonneg (o : option str) (n : Z) : int_opt o = Ret n -> 0 <= n.
Proof. destruct o; [apply py_int_nonneg | discriminate]. Qed.

Definition nonneg_subproblem (sp : Subproblem) : Prop :=
  0 <= sub_a sp /\ 0 <= sub_b sp.

Lemma mapM_Forall {A B} (f : A -> M B) (Q : B -> Prop) :
  (forall x st y st', f x st = (Ret y, st') -> Q y) ->
  forall l st ys st', mapM f l st = (Ret ys, st') -> Forall Q ys.
Proof.
  intros Hf l. induction l as [|x l IH]; intros st ys st' H.
  - injection H as <- _. constructor.
  - cbn [mapM] in H. unfold bind at 1 in H.
    destruct (f x st) as [[y|e] st1] eqn:Hx; [|discriminate H].
    unfold bind at 1 in H.
    destruct (mapM f l st1) as [[zs|e] st2] eqn:Hl; [|discriminate H].
    injection H as <- _. constructor; [eapply Hf | eapply IH]; eassumption.
Qed.

Lemma parse_subproblem_nonneg (m : Match) (st st' : Solver)
    (sp : Subproblem) :
  parse_subproblem m st = (Ret sp, st') -> nonneg_subproblem sp.
Proof.
  unfold parse_subproblem, bind, lift, ret.
  destruct (truthy (group (m_groups m) 1)).
  - destruct (int_opt (group (m_groups m) 1)) as [a|] eqn:Ha; [|discriminate].
    destruct (int_opt (group (m_groups m) 2)) as [b|] eqn:Hb; [|discriminate].
    intro H. injection H as <- _.
    split; [exact (@int_opt_nonneg _ _ Ha) | exact (@int_opt_nonneg _ _ Hb)].
  - destruct (int_opt (group (m_groups m) 2)) as [b|] eqn:Hb; [|discriminate].
    intro H. injection H as <- _.
    split; [cbn; lia | exact (@int_opt_nonneg _ _ Hb)].
Qed.

Lemma parse_subproblems_nonneg (l : list Match) (st st' : Solver)
    (subs : list Subproblem) :
  mapM parse_subproblem l st = (Ret subs, st') ->
  Forall nonneg_subproblem subs.
Proof.
  apply mapM_Forall. intros m s0 sp s1. apply parse_subproblem_nonneg.
Qed.

(** The numbers of a record are not negative. *)
Definition nonneg_record (r : Recurrence) : Prop :=
  match r with
  | complex_divide_and_conquer subs _ => Forall nonneg_subproblem subs
  | divide_and_conquer a b _ => 0 <= a /\ 0 <= b
  | decrease_and_conquer d _ => 0 <= d
  end.

(** X13.  In every record that [parse_recurrence] returns, the
    coefficients, the divisors and the decrement are integers that are not
    negative.  Nothing more is checked: zero and one are accepted as
    divisors. *)
Theorem parsed_numbers_nonneg (text : str) (st : Solver) (r : Recurrence) :
  fst (parse_recurrence text st) = Ret (Some r) -> nonneg_record r.
Proof.
  unfold parse_recurrence.
  unfold bind at 1. cbn [steps_append modify].
  set (st1 := {| recurrence := recurrence st |}).
  destruct (re_match complex_divide_conquer_pattern text) as [m|] eqn:H1.
  - unfold bind, lift.
    destruct (strip_opt (group (m_groups m) 1)) as [t_terms|];
      [|discriminate].
    destruct (strip_opt (group (m_groups m) 2)) as [f_n|]; [|discriminate].
    destruct (mapM parse_subproblem (finditer t_term_pattern t_terms) st1)
      as [[subs|e] st2] eqn:Hsubs; [|discriminate].
    cbn. intro H. injection H as <-.
    exact (@parse_subproblems_nonneg _ _ _ _ Hsubs).
  - destruct (re_match divide_conquer_pattern text) as [m|] eqn:H2.
    { exfalso. apply (@simple_within_complex text); [|exact H1].
      rewrite H2. discriminate. }
    destruct (re_match decrease_conquer_pattern text) as [m|] eqn:H3.
    + unfold bind, lift.
      destruct (int_opt (group (m_groups m) 1)) as [d|] eqn:Hd;
        [|discriminate].
      destruct (strip_opt (group (m_groups m) 2)) as [f_n|]; [|discriminate].
      cbn. intro H. injection H as <-. exact (@int_opt_nonneg _ _ Hd).
    + cbn. discriminate.
Qed.

Lemma parsed_numbers_nonneg_witness :
  nonneg_record
    (complex_divide_and_conquer [{| sub_a := 0; sub_b := 1 |}] (u "n")).
Proof.
  apply (@parsed_numbers_nonneg (u "T(n) = 0T(n/1) + n") init).
  vm_compute. reflexivity.
Defined.

(** ** Running the matcher on a text of known shape *)

(** Where a pattern matches, it matches from any groups. *)
Lemma matches_from_any_groups (r : regex) (s s' : str) (g g' : groups) :
  matches r s g s' g' -> forall h, exists h', matches r s h s' h'.
Proof.
  intro H. induction H; intro h.
  - eexists; constructor.
  - eexists; constructor.
  - eexists; constructor; assumption.
  - destruct (IHmatches1 h) as [h1 H1]. destruct (IHmatches2 h1) as [h2 H2].
    eexists. eapply M_Cat; eassumption.
  - destruct (IHmatches h) as [h1 H1]. eexists. apply M_Opt_some. exact H1.
  - eexists. apply M_Opt_none.
  - eexists. apply M_Star_stop.
  - destruct (IHmatches1 h) as [h1 H1']. destruct (IHmatches2 h1) as [h2 H2'].
    eexists. eapply M_Star_more; eassumption.
  - destruct (IHmatches1 h) as [h1 H1']. destruct (IHmatches2 h1) as [h2 H2'].
    eexists. eapply M_Plus; eassumption.
  - destruct (IHmatches h) as [h1 H1]. eexists. apply M_Grp. exact H1.
Qed.

(** A text stops a class when it is empty or opens with a character that
    is not of the class. *)
Definition stops (p : char -> bool) (s : str) : bool :=
  match s with
  | [] => true
  | c :: _ => negb (p c)
  end.

Lemma firstn_consumed (w s : str) :
  firstn (length (w ++ s) - length s) (w ++ s) = w.
Proof.
  rewrite length_app. replace (length w + length s - length s)%nat
    with (length w) by lia.
  rewrite firstn_app, Nat.sub_diag, firstn_all. cbn. apply app_nil_r.
Qed.

Section Running.
Variable R : Type.
Implicit Types (k : cont R) (x : R).

Lemma exec_lits (t s : str) k g : exec (lits t) k (t ++ s) g = k s g.
Proof.
  induction t as [|a t IH]; [reflexivity|].
  cbn. rewrite N.eqb_refl. exact IH.
Qed.

(** A greedy repetition of a class takes every character of the class
    that it finds, when what follows succeeds right after them. *)
Lemma exec_cls_cons (p : char -> bool) (c : char) (s : str) k g :
  exec (Cls p) k (c :: s) g = if p c then k s g else None.
Proof. reflexivity. Qed.

Lemma exec_cls_nil (p : char -> bool) k g : exec (Cls p) k [] g = None.
Proof. reflexivity. Qed.

Lemma repeat_cls (p : char -> bool) (w s : str) k g x (fuel : nat) :
  forallb p w = true -> stops p s = true -> (length w <= fuel)%nat ->
  k s g = Some x ->
  repeat (exec (Cls p)) k fuel (w ++ s) g = Some x.
Proof.
  intros Hw Hs. revert fuel. induction w as [|c w IH]; intros fuel Hf Hk.
  - destruct fuel as [|n]; [exact Hk|]. cbn [repeat app].
    destruct s as [|c s].
    + rewrite exec_cls_nil. exact Hk.
    + rewrite exec_cls_cons. cbn in Hs. apply negb_true_iff in Hs.
      rewrite Hs. exact Hk.
  - destruct fuel as [|n]; [cbn in Hf; lia|].
    cbn in Hw. apply andb_true_iff in Hw. destruct Hw as [Hc Hw].
    cbn [repeat app]. rewrite exec_cls_cons, Hc.
    assert (Hlt : (length (w ++ s) <? length (c :: w ++ s))%nat = true)
      by (apply Nat.ltb_lt; cbn; lia).
    rewrite Hlt. cbn in Hf. rewrite (IH Hw n) by (lia || exact Hk).
    reflexivity.
Qed.

Lemma exec_star_cls (p : char -> bool) (w s : str) k g x :
  forallb p w = true -> stops p s = true -> k s g = Some x ->
  exec (Star (Cls p)) k (w ++ s) g = Some x.
Proof.
  intros Hw Hs Hk.
  change (exec (Star (Cls p)) k (w ++ s) g)
    with (repeat (exec (Cls p)) k (length (w ++ s)) (w ++ s) g).
  apply repeat_cls; try assumption.
  rewrite length_app. lia.
Qed.

Lemma exec_plus_cls (p : char -> bool) (c : char) (w s : str) k g x :
  forallb p (c :: w) = true -> stops p s = true -> k s g = Some x ->
  exec (Plus (Cls p)) k ((c :: w) ++ s) g = Some x.
Proof.
  intros Hw Hs Hk. cbn in Hw. apply andb_true_iff in Hw.
  destruct Hw as [Hc Hw].
  change (exec (Plus (Cls p)) k ((c :: w) ++ s) g)
    with (exec (Cls p)
            (fun s' g' => repeat (exec (Cls p)) k (length s') s' g')
            (c :: w ++ s) g).
  rewrite exec_cls_cons, Hc.
  apply repeat_cls; try assumption. rewrite length_app. lia.
Qed.

Lemma exec_opt_some (r : regex) k s g x :
  exec r k s g = Some x -> exec (Opt r) k s g = Some x.
Proof. intro H. cbn [exec]. rewrite H. reflexivity. Qed.

Lemma exec_opt_none (r : regex) k s g :
  exec r k s g = None -> exec (Opt r) k s g = k s g.
Proof. intro H. cbn [exec]. rewrite H. reflexivity. Qed.

(** A pattern that matches nowhere at the start of a text fails there
    whatever is to follow. *)
Lemma exec_none (r : regex) k s g :
  re_match r s = None -> exec r k s g = None.
Proof.
  intro H. destruct (exec r k s g) as [x|] eqn:Hx; [exfalso | reflexivity].
  apply exec_sound in Hx. destruct Hx as (s' & g' & Hm & _).
  destruct (matches_from_any_groups Hm []) as [h' Hm'].
  exact (re_match_complete Hm' H).
Qed.
End Running.

(** ** Integers written out and read back *)

(** The ten digits of ASCII. *)
Definition ascii_digit (c : char) : bool := ((48 <=? c) && (c <=? 57))%N.

Lemma ascii_digit_decimal (c : char) :
  ascii_digit c = true -> decimal c = Some (Z.of_N c - 48).
Proof.
  unfold ascii_digit. intro H. apply andb_true_iff in H.
  destruct H as [H1 H2]. apply N.leb_le in H1. apply N.leb_le in H2.
  unfold decimal, decimal_zeros. cbn [find].
  replace ((48 <=? c)%N && (c <? 48 + 10)%N) with true.
  - f_equal. lia.
  - symmetry. apply andb_true_iff. split.
    + apply N.leb_le. exact H1.
    + apply N.ltb_lt. lia.
Qed.

Lemma ascii_digit_isdecimal (c : char) :
  ascii_digit c = true -> isdecimal c = true.
Proof.
  intro H. unfold isdecimal. rewrite (ascii_digit_decimal _ H). reflexivity.
Qed.

Lemma ascii_digits_isdecimal (s : str) :
  forallb ascii_digit s = true -> forallb isdecimal s = true.
Proof.
  induction s as [|c s IH]; [reflexivity|]. cbn. intro H.
  apply andb_true_iff in H. destruct H as [Hc Hs].
  rewrite (ascii_digit_isdecimal _ Hc), (IH Hs). reflexivity.
Qed.

Lemma int_digits_app (s t : str) (v : Z) :
  int_digits v (s ++ t)
  = match int_digits v s with
    | Some v' => int_digits v' t
    | None => None
    end.
Proof.
  revert v. induction s as [|c s IH]; intro v; [reflexivity|].
  cbn [int_digits app]. destruct (decimal c); [apply IH | reflexivity].
Qed.

(** The digits that [digits_of_pos] puts before [acc], and their value. *)
Lemma digits_of_pos_spec (fuel : nat) :
  forall n acc, 0 <= n < 2 ^ Z.of_nat fuel -> (1 <= fuel)%nat ->
  exists ds,
    digits_of_pos fuel n acc = ds ++ acc
    /\ ds <> []
    /\ forallb ascii_digit ds = true
    /\ forall v, int_digits v ds
                 = Some (v * 10 ^ Z.of_nat (length ds) + n).
Proof.
  induction fuel as [|k IH]; intros n acc Hn Hf; [lia|].
  cbn [digits_of_pos].
  assert (Hd : 0 <= n mod 10 < 10) by (apply Z.mod_pos_bound; lia).
  assert (Hc : ascii_digit (Z.to_N (48 + n mod 10)) = true).
  { unfold ascii_digit. apply andb_true_iff. split; apply N.leb_le; lia. }
  assert (Hv : decimal (Z.to_N (48 + n mod 10)) = Some (n mod 10)).
  { rewrite (ascii_digit_decimal _ Hc). f_equal. lia. }
  destruct (n <? 10) eqn:Hlt.
  - apply Z.ltb_lt in Hlt. exists [Z.to_N (48 + n mod 10)].
    split; [reflexivity|]. split; [discriminate|].
    split; [cbn [forallb]; rewrite Hc; reflexivity|].
    intro v. cbn [int_digits length]. rewrite Hv. f_equal.
    rewrite Z.mod_small by lia. change (Z.of_nat 1) with 1. lia.
  - apply Z.ltb_ge in Hlt.
    assert (Hk : (1 <= k)%nat).
    { destruct k; [|lia]. change (2 ^ Z.of_nat 1) with 2 in Hn. lia. }
    assert (Hn' : 0 <= n / 10 < 2 ^ Z.of_nat k).
    { split; [apply Z.div_pos; lia|].
      apply Z.div_lt_upper_bound; [lia|].
      replace (Z.of_nat (S k)) with (Z.of_nat k + 1) in Hn by lia.
      rewrite Z.pow_add_r in Hn by lia.
      assert (0 < 2 ^ Z.of_nat k) by (apply Z.pow_pos_nonneg; lia). lia. }
    destruct (IH (n / 10) (Z.to_N (48 + n mod 10) :: acc) Hn' Hk)
      as (ds & Heq & Hne & Hall & Hval).
    exists (ds ++ [Z.to_N (48 + n mod 10)]).
    split; [rewrite Heq, <- app_assoc; reflexivity|].
    split; [destruct ds; discriminate|].
    split; [rewrite forallb_app, Hall; cbn [forallb]; rewrite Hc; reflexivity|].
    intro v. rewrite int_digits_app, Hval. cbn [int_digits]. rewrite Hv.
    f_equal. rewrite length_app. cbn [length].
    replace (Z.of_nat (length ds + 1)) with (Z.of_nat (length ds) + 1) by lia.
    rewrite Z.pow_add_r by lia.
    pose proof (Z.div_mod n 10 ltac:(lia)). lia.
Qed.

Lemma str_of_Z_spec (n : Z) :
  0 <= n ->
  str_of_Z n <> []
  /\ forallb ascii_digit (str_of_Z n) = true
  /\ int_digits 0 (str_of_Z n) = Some n.
Proof.
  intro Hn. unfold str_of_Z.
  destruct (n <? 0) eqn:Hneg; [apply Z.ltb_lt in Hneg; lia|].
  destruct (@digits_of_pos_spec (S (Z.to_nat (Z.log2 n))) n [])
    as (ds & Heq & Hne & Hall & Hval).
  - split; [exact Hn|].
    replace (Z.of_nat (S (Z.to_nat (Z.log2 n)))) with (Z.succ (Z.log2 n))
      by (pose proof (Z.log2_nonneg n); lia).
    destruct (Z.eq_dec n 0) as [-> | Hnz]; [cbn; lia|].
    apply Z.log2_spec. lia.
  - lia.
  - rewrite Heq, app_nil_r. split; [exact Hne|]. split; [exact Hall|].
    rewrite Hval. reflexivity.
Qed.

(** [int(str(n)) == n], when [n] is not negative and has no more digits
    than [int] reads. *)
Lemma py_int_str_of_Z (n : Z) :
  0 <= n -> (length (str_of_Z n) <= int_max_str_digits)%nat ->
  py_int (str_of_Z n) = Ret n.
Proof.
  intros Hn Hlen. destruct (str_of_Z_spec Hn) as (Hne & _ & Hval).
  unfold py_int. destruct (str_of_Z n) as [|c s]; [contradiction|].
  rewrite Hval.
  destruct (int_max_str_digits <? length (c :: s))%nat eqn:Hlt;
    [|reflexivity].
  apply Nat.ltb_lt in Hlt. lia.
Qed.

(** ** The text that the menu of [main] builds *)

Section RunningMore.
Variable R : Type.
Implicit Types (k : cont R) (x : R).

Lemma exec_seq_cons (r : regex) (rs : list regex) k :
  exec (seq (r :: rs)) k = exec r (exec (seq rs) k).
Proof. reflexivity. Qed.

Lemma exec_seq_nil k s g : exec (seq []) k s g = k s g.
Proof. reflexivity. Qed.

Lemma exec_lit_eq (a : char) (s : str) k g :
  exec (Lit a) k (a :: s) g = k s g.
Proof. cbn. rewrite N.eqb_refl. reflexivity. Qed.

Lemma exec_grp (i : nat) (r : regex) k s g :
  exec (Grp i r) k s g
  = exec r (fun s' g' =>
              k s' ((i, firstn (length s - length s') s) :: g')) s g.
Proof. reflexivity. Qed.

Lemma exec_plus (r : regex) k s g :
  exec (Plus r) k s g
  = exec r (fun s' g' => repeat (exec r) k (length s') s' g') s g.
Proof. reflexivity. Qed.

(** A repetition whose body matches nowhere at the start of the text goes
    on with what follows. *)
Lemma repeat_none (r : regex) k s g (fuel : nat) :
  re_match r s = None -> repeat (exec r) k fuel s g = k s g.
Proof.
  intro H. destruct fuel as [|n]; [reflexivity|].
  cbn [repeat]. rewrite exec_none by exact H. reflexivity.
Qed.

Lemma exec_star_skip (p : char -> bool) (s : str) k g :
  stops p s = true -> exec (Star (Cls p)) k s g = k s g.
Proof.
  intro Hs.
  change (exec (Star (Cls p)) k s g)
    with (repeat (exec (Cls p)) k (length s) s g).
  destruct (length s) as [|n]; [reflexivity|].
  cbn [repeat]. destruct s as [|c s].
  - rewrite exec_cls_nil. reflexivity.
  - rewrite exec_cls_cons. cbn in Hs. apply negb_true_iff in Hs.
    rewrite Hs. reflexivity.
Qed.
End RunningMore.

(** A digit of ASCII is no blank, and neither letter [T] nor a bracket. *)
Lemma ascii_digit_not_space (c : char) :
  ascii_digit c = true -> isspace c = false.
Proof.
  unfold ascii_digit, isspace. intro H. apply andb_true_iff in H.
  destruct H as [H1 H2]. apply N.leb_le in H1. apply N.leb_le in H2.
  repeat match goal with
  | |- (_ || _)%bool = false => apply orb_false_iff; split
  | |- (_ && _)%bool = false => apply andb_false_iff
  end;
  try (apply N.eqb_neq; lia);
  try (right; apply N.leb_gt; lia);
  try (left; apply N.leb_gt; lia).
Qed.

Lemma stops_after_digits (p : char -> bool) (ds s : str) :
  (forall c, ascii_digit c = true -> p c = false) ->
  forallb ascii_digit ds = true -> stops p s = true ->
  stops p (ds ++ s) = true.
Proof.
  intros Hp Hds Hs. destruct ds as [|c ds]; [exact Hs|].
  cbn in Hds. apply andb_true_iff in Hds. cbn. rewrite (Hp c); tauto.
Qed.

(** One term of the complex pattern with what may follow it: the body of
    the repetition in [complex_divide_conquer_pattern]. *)
Definition term_body : regex :=
  seq [Opt (Plus digit); lits (u "T(n"); Star ws; Lit (ch "/"); Star ws;
       Plus digit; Lit (ch ")"); Star ws; Opt (Lit (ch "+")); Star ws].

(** The text that [main] builds for the first entry of its menu. *)
Definition menu_text (A B f : str) : str :=
  u "T(n) = " ++ A ++ u "T(n/" ++ B ++ u ") + " ++ f.

(** A right-hand side on one line that opens neither with a blank nor with
    one more recursive term. *)
Definition plain_rhs (f : str) : bool :=
  forallb (fun c => negb (c =? 10)%N) f && stops isspace f
  && match re_match term_body f with None => true | Some _ => false end.

Lemma exec_plus_stops R (p : char -> bool) (k : cont R) s g :
  stops p s = true -> exec (Plus (Cls p)) k s g = None.
Proof.
  intro Hs. rewrite exec_plus. destruct s as [|c s].
  - apply exec_cls_nil.
  - rewrite exec_cls_cons. cbn in Hs. apply negb_true_iff in Hs.
    rewrite Hs. reflexivity.
Qed.

(** An optional run of digits before a text that opens with none. *)
Lemma exec_opt_digits R (k : cont R) (ds s : str) g x :
  forallb ascii_digit ds = true -> stops isdecimal s = true ->
  k s g = Some x ->
  exec (Opt (Plus digit)) k (ds ++ s) g = Some x.
Proof.
  intros Hds Hs Hk. destruct ds as [|c w].
  - rewrite exec_opt_none; [exact Hk|]. apply exec_plus_stops. exact Hs.
  - apply exec_opt_some. apply exec_plus_cls; try assumption.
    apply ascii_digits_isdecimal. exact Hds.
Qed.

Lemma exec_digits R (k : cont R) (ds s : str) g x :
  forallb ascii_digit ds = true -> ds <> [] -> stops isdecimal s = true ->
  k s g = Some x ->
  exec (Plus digit) k (ds ++ s) g = Some x.
Proof.
  intros Hds Hne Hs Hk. destruct ds as [|c w]; [contradiction|].
  apply exec_plus_cls; try assumption.
  apply ascii_digits_isdecimal. exact Hds.
Qed.

Lemma exec_star_all R (p : char -> bool) (k : cont R) (w : str) g x :
  forallb p w = true -> k [] g = Some x ->
  exec (Star (Cls p)) k w g = Some x.
Proof.
  intros Hw Hk. rewrite <- (app_nil_r w).
  apply exec_star_cls; [exact Hw | reflexivity | exact Hk].
Qed.

Lemma match_menu_text (A B f : str) :
  forallb ascii_digit A = true -> forallb ascii_digit B = true ->
  B <> [] -> plain_rhs f = true ->
  re_match complex_divide_conquer_pattern (menu_text A B f)
  = Some {| m_groups := [(2%nat, f); (1%nat, A ++ u "T(n/" ++ B ++ u ") + ")];
            m_rest := [] |}.
Proof.
  intros HA HB HBne Hf. unfold plain_rhs in Hf.
  apply andb_true_iff in Hf. destruct Hf as [Hf Hbody].
  apply andb_true_iff in Hf. destruct Hf as [Hline Hsp].
  destruct (re_match term_body f) eqn:Hnone; [discriminate Hbody|].
  clear Hbody.
  unfold re_match, menu_text.
  change complex_divide_conquer_pattern
    with (seq [lits (u "T(n)"); Star ws; Lit (ch "="); Star ws;
               Grp 1 (Plus term_body); Grp 2 (Star dot)]).
  set (t4 := ch ")" :: [ch " "] ++ ch "+" :: [ch " "] ++ f).
  set (t2 := u "T(n" ++ [] ++ ch "/" :: [] ++ B ++ t4).
  change (u "T(n) = " ++ A ++ u "T(n/" ++ B ++ u ") + " ++ f)
    with (u "T(n)" ++ [ch " "] ++ ch "=" :: [ch " "] ++ A ++ t2).
  rewrite exec_seq_cons, exec_lits.
  rewrite exec_seq_cons. apply exec_star_cls; [reflexivity | reflexivity |].
  rewrite exec_seq_cons, exec_lit_eq.
  rewrite exec_seq_cons. apply exec_star_cls; [reflexivity | |].
  { apply stops_after_digits;
      [apply ascii_digit_not_space | exact HA | reflexivity]. }
  rewrite exec_seq_cons, exec_grp, exec_plus.
  unfold term_body at 1. rewrite exec_seq_cons.
  apply exec_opt_digits; [exact HA | reflexivity |].
  match goal with |- exec ?r ?k t2 ?g = ?rhs =>
    change (exec r k (u "T(n" ++ [] ++ ch "/" :: [] ++ B ++ t4) g = rhs)
  end.
  rewrite exec_seq_cons, exec_lits.
  rewrite exec_seq_cons. apply exec_star_cls; [reflexivity | reflexivity |].
  rewrite exec_seq_cons, exec_lit_eq.
  rewrite exec_seq_cons. apply exec_star_cls; [reflexivity | |].
  { apply stops_after_digits;
      [apply ascii_digit_not_space | exact HB | reflexivity]. }
  rewrite exec_seq_cons.
  apply exec_digits; [exact HB | exact HBne | reflexivity |].
  match goal with |- exec ?r ?k t4 ?g = ?rhs =>
    change (exec r k (ch ")" :: [ch " "] ++ ch "+" :: [ch " "] ++ f) g = rhs)
  end.
  rewrite exec_seq_cons, exec_lit_eq.
  rewrite exec_seq_cons. apply exec_star_cls; [reflexivity | reflexivity |].
  rewrite exec_seq_cons. apply exec_opt_some. rewrite exec_lit_eq.
  rewrite exec_seq_cons. apply exec_star_cls; [reflexivity | exact Hsp |].
  rewrite exec_seq_nil. rewrite repeat_none by exact Hnone.
  replace (A ++ t2) with ((A ++ u "T(n/" ++ B ++ u ") + ") ++ f)
    by (rewrite <- !app_assoc; reflexivity).
  rewrite firstn_consumed.
  rewrite exec_seq_cons, exec_grp.
  apply exec_star_all; [exact Hline|].
  rewrite exec_seq_nil. cbn [length]. rewrite Nat.sub_0_r, firstn_all.
  reflexivity.
Qed.

(** *** Stripping *)

Lemma lstrip_stops (s : str) : stops isspace s = true -> lstrip s = s.
Proof.
  destruct s as [|c s]; [reflexivity|]. cbn. intro H.
  apply negb_true_iff in H. rewrite H. reflexivity.
Qed.

Lemma lstrip_blanks (w s : str) :
  forallb isspace w = true -> lstrip (w ++ s) = lstrip s.
Proof.
  induction w as [|c w IH]; [reflexivity|]. cbn. intro H.
  apply andb_true_iff in H. destruct H as [Hc Hw]. rewrite Hc. apply IH, Hw.
Qed.

Lemma forallb_rev {A} (p : A -> bool) (l : list A) :
  forallb p (rev l) = forallb p l.
Proof.
  induction l as [|x l IH]; [reflexivity|].
  cbn. rewrite forallb_app, IH. cbn. rewrite andb_true_r. apply andb_comm.
Qed.

(** Blanks after a character that is none are what [rstrip] removes. *)
Lemma rstrip_blanks (y : str) (c : char) (w : str) :
  isspace c = false -> forallb isspace w = true ->
  rstrip (y ++ c :: w) = y ++ [c].
Proof.
  intros Hc Hw. unfold rstrip.
  rewrite rev_app_distr. cbn [rev]. rewrite <- app_assoc.
  rewrite lstrip_blanks by (rewrite forallb_rev; exact Hw).
  cbn [app lstrip]. rewrite Hc. cbn [rev]. rewrite rev_involutive.
  reflexivity.
Qed.

(** *** The terms of the first group *)

Lemma re_search_here (r : regex) (s : str) (m : Match) :
  re_match r s = Some m -> re_search r s = Some m.
Proof. intro H. destruct s; cbn; rewrite H; reflexivity. Qed.

Lemma finditer_from_none (r : regex) (fuel : nat) (s : str) :
  re_search r s = None -> finditer_from r fuel s = [].
Proof. intro H. destruct fuel; [reflexivity|]. cbn. rewrite H. reflexivity. Qed.

(** The group of an optional coefficient. *)
Definition coefficient_group (A : str) : groups :=
  match A with
  | [] => []
  | _ => [(1%nat, A)]
  end.

Lemma match_term (A B s : str) :
  forallb ascii_digit A = true -> forallb ascii_digit B = true ->
  B <> [] ->
  re_match t_term_pattern (A ++ u "T(n/" ++ B ++ ch ")" :: s)
  = Some {| m_groups := (2%nat, B) :: coefficient_group A; m_rest := s |}.
Proof.
  intros HA HB HBne. unfold re_match, t_term_pattern.
  change (A ++ u "T(n/" ++ B ++ ch ")" :: s)
    with (A ++ u "T(n" ++ [] ++ ch "/" :: [] ++ B ++ ch ")" :: s).
  rewrite exec_seq_cons.
  assert (Hrest : forall g,
    exec (seq [lits (u "T(n"); Star ws; Lit (ch "/"); Star ws;
               Grp 2 (Plus digit); Lit (ch ")")])
      (fun s' g' => Some {| m_groups := g'; m_rest := s' |})
      (u "T(n" ++ [] ++ ch "/" :: [] ++ B ++ ch ")" :: s) g
    = Some {| m_groups := (2%nat, B) :: g; m_rest := s |}).
  { intro g. rewrite exec_seq_cons, exec_lits.
    rewrite exec_seq_cons. apply exec_star_cls; [reflexivity | reflexivity |].
    rewrite exec_seq_cons, exec_lit_eq.
    rewrite exec_seq_cons. apply exec_star_cls; [reflexivity | |].
    { apply stops_after_digits;
        [apply ascii_digit_not_space | exact HB | reflexivity]. }
    rewrite exec_seq_cons, exec_grp.
    apply exec_digits; [exact HB | exact HBne | reflexivity |].
    cbv beta. rewrite firstn_consumed.
    rewrite exec_seq_cons, exec_lit_eq, exec_seq_nil. reflexivity. }
  destruct A as [|c w].
  - rewrite exec_opt_none; [apply Hrest|].
    rewrite exec_grp. apply exec_plus_stops. reflexivity.
  - apply exec_opt_some. rewrite exec_grp.
    apply exec_digits; [exact HA | discriminate | reflexivity |].
    cbv beta. rewrite firstn_consumed. apply Hrest.
Qed.

(** *** The record parsed from the text of the menu *)

(** The value of a run of digits. *)
Definition value_of (ds : str) : Z :=
  match int_digits 0 ds with
  | Some n => n
  | None => 0
  end.

(** The coefficient that a term has: one when none is written. *)
Definition coefficient (ds : str) : Z :=
  match ds with
  | [] => 1
  | _ => value_of ds
  end.

(** The f-text that is stored: ["0"] for a right-hand side left empty. *)
Definition rhs_of (f : str) : str :=
  match strip f with
  | [] => u "0"
  | _ => strip f
  end.

Lemma int_digits_total (ds : str) (v : Z) :
  forallb ascii_digit ds = true -> exists n, int_digits v ds = Some n.
Proof.
  revert v. induction ds as [|c ds IH]; intros v H.
  - exists v. reflexivity.
  - cbn in H. apply andb_true_iff in H. destruct H as [Hc Hds].
    cbn [int_digits]. rewrite (ascii_digit_decimal _ Hc). apply IH, Hds.
Qed.

Lemma py_int_digits (ds : str) :
  forallb ascii_digit ds = true -> ds <> [] ->
  (length ds <= int_max_str_digits)%nat ->
  py_int ds = Ret (value_of ds).
Proof.
  intros Hds Hne Hlen. unfold py_int, value_of.
  destruct (@int_digits_total ds 0 Hds) as [n Hn]. rewrite Hn.
  destruct ds as [|c w]; [contradiction|].
  destruct (int_max_str_digits <? length (c :: w))%nat eqn:Hlt;
    [|reflexivity].
  apply Nat.ltb_lt in Hlt. lia.
Qed.

Lemma strip_first_group (A B : str) :
  forallb ascii_digit A = true ->
  strip (A ++ u "T(n/" ++ B ++ u ") + ")
  = A ++ u "T(n/" ++ B ++ ch ")" :: u " +".
Proof.
  intro HA. unfold strip. rewrite lstrip_stops.
  - change (A ++ u "T(n/" ++ B ++ u ") + ")
      with (A ++ u "T(n/" ++ B ++ u ") " ++ ch "+" :: [ch " "]).
    rewrite !app_assoc. rewrite rstrip_blanks by reflexivity.
    rewrite <- !app_assoc. reflexivity.
  - apply stops_after_digits;
      [apply ascii_digit_not_space | exact HA | reflexivity].
Qed.

Lemma finditer_first_group (A B : str) :
  forallb ascii_digit A = true -> forallb ascii_digit B = true ->
  B <> [] ->
  finditer t_term_pattern (A ++ u "T(n/" ++ B ++ ch ")" :: u " +")
  = [{| m_groups := (2%nat, B) :: coefficient_group A; m_rest := u " +" |}].
Proof.
  intros HA HB HBne. unfold finditer.
  pose proof (@match_term A B (u " +") HA HB HBne) as Hm.
  destruct (length (A ++ u "T(n/" ++ B ++ ch ")" :: u " +")) as [|n] eqn:Hlen.
  { rewrite !length_app in Hlen. cbn in Hlen. lia. }
  cbn [finditer_from]. rewrite (@re_search_here _ _ _ Hm). cbn [m_rest].
  assert (Hlt : (length (u " +")
                 <? length (A ++ u "T(n/" ++ B ++ ch ")" :: u " +"))%nat
                = true).
  { apply Nat.ltb_lt. rewrite !length_app. cbn. lia. }
  rewrite Hlt. rewrite finditer_from_none by (vm_compute; reflexivity).
  reflexivity.
Qed.

Lemma parse_one_term (A B : str) (st : Solver) :
  forallb ascii_digit A = true -> forallb ascii_digit B = true ->
  B <> [] ->
  (length A <= int_max_str_digits)%nat ->
  (length B <= int_max_str_digits)%nat ->
  mapM parse_subproblem
    [{| m_groups := (2%nat, B) :: coefficient_group A; m_rest := u " +" |}] st
  = (Ret [{| sub_a := coefficient A; sub_b := value_of B |}], st).
Proof.
  intros HA HB HBne HlA HlB. cbn [mapM]. unfold bind, parse_subproblem, bind, lift, ret.
  cbn [m_groups]. destruct A as [|c w].
  - cbn. rewrite (@py_int_digits B HB HBne HlB). reflexivity.
  - cbn [coefficient_group group Nat.eqb truthy int_opt].
    rewrite (@py_int_digits (c :: w) HA ltac:(discriminate) HlA).
    rewrite (@py_int_digits B HB HBne HlB). reflexivity.
Qed.

Lemma parse_menu_text (A B f : str) (st : Solver) :
  forallb ascii_digit A = true -> forallb ascii_digit B = true ->
  B <> [] ->
  (length A <= int_max_str_digits)%nat ->
  (length B <= int_max_str_digits)%nat ->
  plain_rhs f = true ->
  let r := complex_divide_and_conquer
             [{| sub_a := coefficient A; sub_b := value_of B |}] (rhs_of f) in
  parse_recurrence (menu_text A B f) st
  = (Ret (Some r),
     with_step
       (with_recurrence
          (with_step st (u "Parsing recurrence relation: " ++ menu_text A B f))
          r)
       (u "Identified complex divide and conquer recurrence with 1 subproblems, f(n)="
        ++ rhs_of f)).
Proof.
  intros HA HB HBne HlA HlB Hf r. unfold parse_recurrence.
  rewrite (@match_menu_text A B f HA HB HBne Hf). unfold bind at 1.
  cbn [steps_append modify m_groups group Nat.eqb strip_opt].
  unfold bind at 1. cbn [lift]. unfold bind at 1. cbn [lift].
  rewrite (@strip_first_group A B HA), (@finditer_first_group A B HA HB HBne).
  unfold bind at 1. rewrite (@parse_one_term A B _ HA HB HBne HlA HlB).
  reflexivity.
Qed.

(** *** The text of the second entry of the menu *)

Lemma exec_star_one R (p : char -> bool) (k : cont R) (c : char) (s : str)
    g :
  p c = true -> stops p s = true ->
  exec (Star (Cls p)) k (c :: s) g = orelse (k s g) (k (c :: s) g).
Proof.
  intros Hc Hs.
  change (exec (Star (Cls p)) k (c :: s) g)
    with (repeat (exec (Cls p)) k (S (length s)) (c :: s) g).
  cbn [repeat]. rewrite exec_cls_cons, Hc.
  assert (Hlt : (length s <? length (c :: s))%nat = true)
    by (apply Nat.ltb_lt; cbn; lia).
  rewrite Hlt.
  change (repeat (exec (Cls p)) k (length s) s g)
    with (exec (Star (Cls p)) k s g).
  rewrite exec_star_skip by exact Hs. reflexivity.
Qed.

Lemma exec_plus_all R (p : char -> bool) (k : cont R) (c : char) (w : str)
    g x :
  forallb p (c :: w) = true -> k [] g = Some x ->
  exec (Plus (Cls p)) k (c :: w) g = Some x.
Proof.
  intros Hw Hk. replace (c :: w) with ((c :: w) ++ []) by apply app_nil_r.
  apply exec_plus_cls; [exact Hw | reflexivity | exact Hk].
Qed.

Definition decrease_text (D f : str) : str :=
  u "T(n) = T(n-" ++ D ++ u ") + " ++ f.

Lemma complex_rejects_decrease (D f : str) :
  re_match complex_divide_conquer_pattern (decrease_text D f) = None.
Proof.
  unfold re_match, decrease_text.
  change complex_divide_conquer_pattern
    with (seq [lits (u "T(n)"); Star ws; Lit (ch "="); Star ws;
               Grp 1 (Plus term_body); Grp 2 (Star dot)]).
  set (t := D ++ u ") + " ++ f).
  change (u "T(n) = T(n-" ++ t)
    with (u "T(n)" ++ ch " " :: ch "=" :: ch " " :: u "T(n-" ++ t).
  rewrite exec_seq_cons, exec_lits. unfold ws.
  rewrite exec_seq_cons, exec_star_one by reflexivity.
  replace (exec (seq [Lit (ch "="); Star (Cls isspace); Grp 1 (Plus term_body);
                      Grp 2 (Star dot)])
             (fun s' g => Some {| m_groups := g; m_rest := s' |})
             (ch " " :: ch "=" :: ch " " :: u "T(n-" ++ t) [])
    with (@None Match) by reflexivity.
  rewrite exec_seq_cons, exec_lit_eq.
  rewrite exec_seq_cons, exec_star_one by reflexivity.
  reflexivity.
Qed.

Lemma simple_rejects_decrease (D f : str) :
  re_match divide_conquer_pattern (decrease_text D f) = None.
Proof.
  destruct (re_match divide_conquer_pattern (decrease_text D f)) eqn:H;
    [exfalso | reflexivity].
  apply (@simple_within_complex (decrease_text D f)).
  - rewrite H. discriminate.
  - apply complex_rejects_decrease.
Qed.

(** A right-hand side on one line that is not empty and does not open with
    a blank. *)
Definition one_line (f : str) : bool :=
  forallb (fun c => negb (c =? 10)%N) f && stops isspace f
  && negb (Nat.eqb (length f) 0).

Lemma match_decrease_text (D f : str) :
  forallb ascii_digit D = true -> D <> [] -> one_line f = true ->
  re_match decrease_conquer_pattern (decrease_text D f)
  = Some {| m_groups := [(2%nat, f); (1%nat, D)]; m_rest := [] |}.
Proof.
  intros HD HDne Hf. unfold one_line in Hf.
  apply andb_true_iff in Hf. destruct Hf as [Hf Hne].
  apply andb_true_iff in Hf. destruct Hf as [Hline Hsp].
  destruct f as [|c w]; [discriminate Hne|]. clear Hne.
  unfold re_match, decrease_text, decrease_conquer_pattern.
  change (u "T(n) = T(n-" ++ D ++ u ") + " ++ c :: w)
    with (u "T(n)" ++ [ch " "] ++ ch "=" :: [ch " "] ++ u "T(n" ++ []
          ++ ch "-" :: [] ++ D ++ ch ")" :: [ch " "] ++ ch "+" :: [ch " "]
          ++ c :: w).
  rewrite exec_seq_cons, exec_lits.
  rewrite exec_seq_cons. apply exec_star_cls; [reflexivity | reflexivity |].
  rewrite exec_seq_cons, exec_lit_eq.
  rewrite exec_seq_cons. apply exec_star_cls; [reflexivity | reflexivity |].
  rewrite exec_seq_cons, exec_lits.
  rewrite exec_seq_cons. apply exec_star_cls; [reflexivity | reflexivity |].
  rewrite exec_seq_cons, exec_lit_eq.
  rewrite exec_seq_cons. apply exec_star_cls; [reflexivity | |].
  { apply stops_after_digits;
      [apply ascii_digit_not_space | exact HD | reflexivity]. }
  rewrite exec_seq_cons, exec_grp.
  apply exec_digits; [exact HD | exact HDne | reflexivity |].
  cbv beta. rewrite firstn_consumed.
  rewrite exec_seq_cons, exec_lit_eq.
  rewrite exec_seq_cons. apply exec_star_cls; [reflexivity | reflexivity |].
  rewrite exec_seq_cons, exec_lit_eq.
  rewrite exec_seq_cons. apply exec_star_cls; [reflexivity | exact Hsp |].
  rewrite exec_seq_cons, exec_grp.
  apply exec_plus_all; [exact Hline|].
  rewrite exec_seq_nil. cbn [length]. rewrite Nat.sub_0_r.
  change (S (length w)) with (length (c :: w)). rewrite firstn_all.
  reflexivity.
Qed.

Lemma parse_decrease_text (D f : str) (st : Solver) :
  forallb ascii_digit D = true -> D <> [] ->
  (length D <= int_max_str_digits)%nat -> one_line f = true ->
  let r := decrease_and_conquer (value_of D) (strip f) in
  parse_recurrence (decrease_text D f) st
  = (Ret (Some r),
     with_step
       (with_recurrence
          (with_step st
             (u "Parsing recurrence relation: " ++ decrease_text D f)) r)
       (u "Identified decrease and conquer recurrence with d="
        ++ str_of_Z (value_of D) ++ u ", f(n)=" ++ strip f)).
Proof.
  intros HD HDne Hlen Hf r. unfold parse_recurrence.
  rewrite complex_rejects_decrease, simple_rejects_decrease.
  rewrite (@match_decrease_text D f HD HDne Hf).
  unfold bind at 1. cbn [steps_append modify m_groups group Nat.eqb].
  unfold bind at 1. cbn [lift int_opt].
  rewrite (@py_int_digits D HD HDne Hlen). reflexivity.
Qed.

(** X14.  A text of the shape [T(n) = aT(n/b) + f], where [a] is a run of
    digits that may be missing, [b] a run of digits, neither longer than
    [int] reads, and [f] stays on one line and opens neither with a blank
    nor with one more term, is parsed as a complex recurrence with exactly
    one subproblem: its coefficient is the value of [a], or 1 when [a] is
    missing, its divisor the value of [b]; the f-text is [f] stripped, or
    ["0"] when nothing is left; two steps are appended and the record is
    stored. *)
Theorem parse_single_term (A B f : str) (st : Solver) :
  forallb ascii_digit A = true -> forallb ascii_digit B = true ->
  B <> [] ->
  (length A <= int_max_str_digits)%nat ->
  (length B <= int_max_str_digits)%nat ->
  plain_rhs f = true ->
  let r := complex_divide_and_conquer
             [{| sub_a := coefficient A; sub_b := value_of B |}] (rhs_of f) in
  parse_recurrence (menu_text A B f) st
  = (Ret (Some r),
     with_step
       (with_recurrence
          (with_step st (u "Parsing recurrence relation: " ++ menu_text A B f))
          r)
       (u "Identified complex divide and conquer recurrence with 1 subproblems, f(n)="
        ++ rhs_of f)).
Proof. apply parse_menu_text. Qed.

Lemma parse_single_term_witness :
  fst (parse_recurrence (u "T(n) = T(n/02) + log n") init)
  = Ret (Some (complex_divide_and_conquer
                 [{| sub_a := 1; sub_b := 2 |}] (u "log n"))).
Proof.
  change (u "T(n) = T(n/02) + log n") with (menu_text [] (u "02") (u "log n")).
  rewrite (@parse_single_term [] (u "02") (u "log n") init).
  - reflexivity.
  - reflexivity.
  - reflexivity.
  - discriminate.
  - apply Nat.leb_le. vm_compute. reflexivity.
  - apply Nat.leb_le. vm_compute. reflexivity.
  - vm_compute. reflexivity.
Defined.

(** X15.  What [main] writes for its first menu entry reads back: for
    integers [a] and [b] that are not negative, the text
    ["T(n) = " + str(a) + "T(n/" + str(b) + ") + " + f] is parsed as the
    complex recurrence whose single subproblem is [(a, b)], zero and one
    included, with the f-text [f] stripped. *)
Theorem menu_divide_reads_back (a b : Z) (f : str) (st : Solver) :
  0 <= a -> 0 <= b ->
  (length (str_of_Z a) <= int_max_str_digits)%nat ->
  (length (str_of_Z b) <= int_max_str_digits)%nat ->
  plain_rhs f = true ->
  let out := parse_recurrence (menu_text (str_of_Z a) (str_of_Z b) f) st in
  fst out
  = Ret (Some (complex_divide_and_conquer
                 [{| sub_a := a; sub_b := b |}] (rhs_of f)))
  /\ recurrence (snd out)
     = Some (complex_divide_and_conquer
               [{| sub_a := a; sub_b := b |}] (rhs_of f)).
Proof.
  intros Ha Hb Hla Hlb Hf out. subst out.
  destruct (str_of_Z_spec Ha) as (Hane & Hads & Haval).
  destruct (str_of_Z_spec Hb) as (Hbne & Hbds & Hbval).
  rewrite (@parse_menu_text (str_of_Z a) (str_of_Z b) f st
             Hads Hbds Hbne Hla Hlb Hf).
  assert (Hca : coefficient (str_of_Z a) = a).
  { unfold coefficient, value_of. rewrite Haval.
    destruct (str_of_Z a); [contradiction | reflexivity]. }
  assert (Hvb : value_of (str_of_Z b) = b)
    by (unfold value_of; rewrite Hbval; reflexivity).
  rewrite Hca, Hvb. split; reflexivity.
Qed.

Lemma menu_divide_reads_back_witness :
  fst (parse_recurrence (u "T(n) = 4T(n/2) + n^2.0") init)
  = Ret (Some (complex_divide_and_conquer
                 [{| sub_a := 4; sub_b := 2 |}] (u "n^2.0"))).
Proof.
  refine (proj1 (@menu_divide_reads_back 4 2 (u "n^2.0") init _ _ _ _ _)).
  - lia.
  - lia.
  - apply Nat.leb_le. vm_compute. reflexivity.
  - apply Nat.leb_le. vm_compute. reflexivity.
  - vm_compute. reflexivity.
Defined.

(** X16.  What [main] writes for its second menu entry parses and then
    cannot be solved: for an integer [d] that is not negative and a
    right-hand side [f] on one line, not empty and not opening with a
    blank, the text ["T(n) = T(n-" + str(d) + ") + " + f] is parsed as the
    decrease-and-conquer record with that [d] and [f] stripped, and [solve]
    then raises [AttributeError], on every platform and for every choice
    of method. *)
Theorem menu_decrease_cannot_be_solved (P : Platform) (d : Z) (f : str)
    (method : option str) (st : Solver) :
  0 <= d ->
  (length (str_of_Z d) <= int_max_str_digits)%nat ->
  one_line f = true ->
  let text := decrease_text (str_of_Z d) f in
  fst (parse_recurrence text st)
  = Ret (Some (decrease_and_conquer d (strip f)))
  /\ fst (bind (parse_recurrence text) (fun _ => solve P method) st)
     = Raise AttributeError.
Proof.
  intros Hd Hlen Hf text. subst text.
  destruct (str_of_Z_spec Hd) as (Hne & Hds & Hval).
  assert (Hv : value_of (str_of_Z d) = d)
    by (unfold value_of; rewrite Hval; reflexivity).
  unfold bind.
  rewrite (@parse_decrease_text (str_of_Z d) f st Hds Hne Hlen Hf), Hv.
  split; [reflexivity|].
  rewrite (@solve_raises_on_simple P method _ (decrease_and_conquer d (strip f)));
    [reflexivity | reflexivity | discriminate].
Qed.

Lemma menu_decrease_cannot_be_solved_witness :
  fst (bind (parse_recurrence (u "T(n) = T(n-1) + n"))
         (fun _ => solve reference (Some (u "substitution"))) init)
  = Raise AttributeError.
Proof.
  refine (proj2 (@menu_decrease_cannot_be_solved reference 1 (u "n")
                   (Some (u "substitution")) init _ _ _)).
  - lia.
  - apply Nat.leb_le. vm_compute. reflexivity.
  - vm_compute. reflexivity.
Defined.

(** ** Several recursive terms *)

(** The 29 blanks, one by one. *)
Lemma isspace_cases (c : char) :
  isspace c = true ->
  In c [9; 10; 11; 12; 13; 28; 29; 30; 31; 32; 133; 160; 5760; 8192; 8193;
        8194; 8195; 8196; 8197; 8198; 8199; 8200; 8201; 8202; 8232; 8233;
        8239; 8287; 12288]%N.
Proof.
  unfold isspace. intro H.
  repeat (apply orb_true_iff in H; destruct H as [H | H]);
    try (apply andb_true_iff in H; destruct H as [H1 H2];
         apply N.leb_le in H1; apply N.leb_le in H2);
    try (apply N.eqb_eq in H; subst c);
    cbn [In]; lia.
Qed.

Lemma isspace_not_decimal (c : char) :
  isspace c = true -> isdecimal c = false.
Proof.
  intro H. apply isspace_cases in H. cbn [In] in H.
  repeat (destruct H as [<- | H]; [vm_compute; reflexivity|]).
  contradiction.
Qed.

















(** *** The terms found in the first group *)













(** *** The subproblems *)




(** *** The record parsed from several terms *)




(** ** Every complex record has a subproblem *)

(** A match takes a prefix of the text, and takes the same prefix in front
    of any other text. *)
Lemma matches_frame (r : regex) (s s' : str) (g g' : groups) :
  matches r s g s' g' ->
  exists w, s = w ++ s'
            /\ forall t h, exists h', matches r (w ++ t) h t h'.
Proof.
  intro H. induction H.
  - exists []. split; [reflexivity|]. intros t h. eexists. constructor.
  - exists [a]. split; [reflexivity|]. intros t h. eexists. constructor.
  - exists [c]. split; [reflexivity|]. intros t h. eexists.
    constructor. assumption.
  - destruct IHmatches1 as (w1 & E1 & F1).
    destruct IHmatches2 as (w2 & E2 & F2). subst s s1.
    exists (w1 ++ w2). split; [apply app_assoc|]. intros t h.
    destruct (F1 (w2 ++ t) h) as [h1 M1]. destruct (F2 t h1) as [h2 M2].
    exists h2. rewrite <- app_assoc. eapply M_Cat; eassumption.
  - destruct IHmatches as (w & E & F). exists w. split; [exact E|].
    intros t h. destruct (F t h) as [h1 M1]. exists h1.
    apply M_Opt_some. exact M1.
  - exists []. split; [reflexivity|]. intros t h. eexists. apply M_Opt_none.
  - exists []. split; [reflexivity|]. intros t h. eexists. apply M_Star_stop.
  - destruct IHmatches1 as (w1 & E1 & F1).
    destruct IHmatches2 as (w2 & E2 & F2). subst s s1.
    exists (w1 ++ w2). split; [apply app_assoc|]. intros t h.
    destruct (F1 (w2 ++ t) h) as [h1 M1]. destruct (F2 t h1) as [h2 M2].
    exists h2. rewrite <- app_assoc. eapply M_Star_more; [exact M1 | | exact M2].
    rewrite !length_app in *. lia.
  - destruct IHmatches1 as (w1 & E1 & F1).
    destruct IHmatches2 as (w2 & E2 & F2). subst s s1.
    exists (w1 ++ w2). split; [apply app_assoc|]. intros t h.
    destruct (F1 (w2 ++ t) h) as [h1 M1]. destruct (F2 t h1) as [h2 M2].
    exists h2. rewrite <- app_assoc. eapply M_Plus; eassumption.
  - destruct IHmatches as (w & E & F). exists w. split; [exact E|].
    intros t h. destruct (F t h) as [h1 M1]. eexists.
    apply M_Grp. exact M1.
Qed.

Lemma matches_shorter (r : regex) (s s' : str) (g g' : groups) :
  matches r s g s' g' -> (length s' <= length s)%nat.
Proof.
  intro H. destruct (matches_frame H) as (w & -> & _).
  rewrite length_app. lia.
Qed.

(** A term up to its divisor. *)
Definition term_head : regex :=
  seq [Opt (Grp 1 (Plus digit)); lits (u "T(n"); Star ws; Lit (ch "/");
       Star ws; Grp 2 (Plus digit)].

Lemma term_head_closed (s s' : str) (g g' : groups) :
  matches term_head s g (ch ")" :: s') g' ->
  matches t_term_pattern s g s' g'.
Proof.
  intro H. unfold term_head in H.
  pop H Ha. pop H Ht. pop H Hw1. pop H Hsl. pop H Hw2. pop H Hb.
  inversion H; subst.
  unfold t_term_pattern.
  eapply M_Cat; [exact Ha|]. eapply M_Cat; [exact Ht|].
  eapply M_Cat; [exact Hw1|]. eapply M_Cat; [exact Hsl|].
  eapply M_Cat; [exact Hw2|]. eapply M_Cat; [exact Hb|].
  eapply M_Cat; [apply M_Lit | apply M_Eps].
Qed.

(** A term takes at least the four characters [T(n/] and a digit. *)
Lemma term_takes_text (s s' : str) (g g' : groups) :
  matches t_term_pattern s g s' g' -> (length s' < length s)%nat.
Proof.
  intro H. unfold t_term_pattern in H.
  pop H Ha. pop H Ht. pop H Hw1. pop H Hsl. pop H Hw2. pop H Hb. pop H Hcl.
  inversion H; subst.
  apply matches_lits in Ht. destruct Ht as [-> ->].
  apply matches_shorter in Ha, Hw1, Hsl, Hw2, Hb, Hcl.
  rewrite length_app in Ha. cbn [length] in *.
  change (length (u "T(n")) with 3%nat in Ha. lia.
Qed.

(** What a round of the repetition of the complex pattern takes opens with
    a term, and not with a blank. *)
Lemma term_in_body (s s' : str) (g g' : groups) :
  matches term_body s g s' g' ->
  exists x y,
    s = x ++ ch ")" :: y ++ s'
    /\ (forall z, stops isspace (x ++ ch ")" :: z) = true)
    /\ forall z, re_match t_term_pattern (x ++ ch ")" :: z) <> None.
Proof.
  intro H. unfold term_body in H.
  pop H Ha. pop H Ht. pop H Hw1. pop H Hsl. pop H Hw2. pop H Hb. pop H Hcl.
  assert (Hstart : stops isspace s = true).
  { inversion Ha; subst.
    - match goal with M : matches (Plus digit) _ _ _ _ |- _ =>
        inversion M; subst end.
      match goal with M : matches digit _ _ _ _ |- _ =>
        inversion M; subst end.
      cbn. apply negb_true_iff.
      destruct (isspace c) eqn:Hc; [|reflexivity].
      apply isspace_not_decimal in Hc. congruence.
    - apply matches_lits in Ht. destruct Ht as [-> _]. reflexivity. }
  assert (Hhead : exists h, matches term_head s [] s5 h).
  { inversion Ha; subst.
    - eexists. unfold term_head.
      eapply M_Cat; [apply M_Opt_some, M_Grp;
                     match goal with M : matches (Plus digit) _ _ _ _ |- _ =>
                       regroup M end|].
      eapply M_Cat; [regroup Ht|]. eapply M_Cat; [regroup Hw1|].
      eapply M_Cat; [regroup Hsl|]. eapply M_Cat; [regroup Hw2|].
      eapply M_Cat; [apply M_Grp; regroup Hb | apply M_Eps].
    - eexists. unfold term_head.
      eapply M_Cat; [apply M_Opt_none|].
      eapply M_Cat; [regroup Ht|]. eapply M_Cat; [regroup Hw1|].
      eapply M_Cat; [regroup Hsl|]. eapply M_Cat; [regroup Hw2|].
      eapply M_Cat; [apply M_Grp; regroup Hb | apply M_Eps]. }
  destruct Hhead as [h Hhead].
  destruct (matches_frame Hhead) as (x & Ex & Fx).
  inversion Hcl; subst.
  destruct (matches_frame H) as (y & Ey & _).
  exists x, y. split; [rewrite Ey; reflexivity|]. split.
  - intro z. destruct x; [reflexivity | exact Hstart].
  - intro z. destruct (Fx (ch ")" :: z) []) as [h' M].
    apply term_head_closed in M. exact (re_match_complete M).
Qed.

Lemma lstrip_before_mark (p : str) (c : char) (q : str) :
  isspace c = false -> lstrip (p ++ c :: q) = lstrip p ++ c :: q.
Proof.
  intro Hc. induction p as [|a p IH].
  - cbn. rewrite Hc. reflexivity.
  - cbn [app lstrip]. destruct (isspace a); [exact IH | reflexivity].
Qed.

(** [rstrip] stops at the last character that is no blank. *)
Lemma rstrip_after_mark (a : str) (c : char) (b : str) :
  isspace c = false -> rstrip (a ++ c :: b) = a ++ c :: rstrip b.
Proof.
  intro Hc. unfold rstrip. rewrite rev_app_distr. cbn [rev].
  rewrite <- app_assoc. cbn [app].
  rewrite lstrip_before_mark by exact Hc.
  rewrite rev_app_distr. cbn [rev]. rewrite rev_involutive, <- app_assoc.
  reflexivity.
Qed.

(** In the first group of the complex pattern, stripped, [finditer] finds
    a term. *)
Lemma finditer_finds_term (text : str) (m : Match) :
  re_match complex_divide_conquer_pattern text = Some m ->
  exists t_terms,
    group (m_groups m) 1 = Some t_terms
    /\ finditer t_term_pattern (strip t_terms) <> [].
Proof.
  intro H. apply re_match_sound in H.
  change complex_divide_conquer_pattern
    with (seq [lits (u "T(n)"); Star ws; Lit (ch "="); Star ws;
               Grp 1 (Plus term_body); Grp 2 (Star dot)]) in H.
  pop H Ht. pop H Hw1. pop H Heq. pop H Hw2. pop H Hg1. pop H Hg2.
  inversion H; subst. clear H.
  inversion Hg2; subst. inversion Hg1; subst.
  match goal with M : matches (Plus term_body) _ _ _ _ |- _ =>
    inversion M; subst end.
  match goal with M : matches term_body _ _ _ _ |- _ =>
    destruct (term_in_body M) as (x & y & Ex & Hstart & Hterm) end.
  match goal with M : matches (Star term_body) _ _ _ _ |- _ =>
    destruct (matches_frame M) as (w2 & Ew & _) end.
  match goal with M : matches (Star dot) _ _ _ ?h |- _ =>
    destruct (matches_groupless M eq_refl) as [Eg _]; rewrite Eg end.
  cbn [group Nat.eqb].
  eexists. split; [reflexivity|].
  rewrite Ex, Ew.
  replace (x ++ ch ")" :: y ++ w2 ++ s3)
    with ((x ++ ch ")" :: y ++ w2) ++ s3)
    by (rewrite <- !app_assoc; cbn [app]; rewrite <- app_assoc; reflexivity).
  rewrite firstn_consumed.
  unfold strip. rewrite lstrip_stops by apply Hstart.
  rewrite rstrip_after_mark by reflexivity.
  set (z := rstrip (y ++ w2)).
  destruct (re_match t_term_pattern (x ++ ch ")" :: z)) as [m'|] eqn:Hm;
    [|exfalso; exact (Hterm z Hm)].
  pose proof (@term_takes_text _ _ _ _ (@re_match_sound _ _ _ Hm)) as Hlt.
  unfold finditer.
  destruct (length (x ++ ch ")" :: z)) as [|n] eqn:Hlen; [lia|].
  cbn [finditer_from]. rewrite (@re_search_here _ _ _ Hm).
  rewrite <- Hlen in Hlt. apply Nat.ltb_lt in Hlt. rewrite Hlt. discriminate.
Qed.

Lemma mapM_length {A B} (f : A -> M B) (l : list A) (st st' : Solver)
    (ys : list B) :
  mapM f l st = (Ret ys, st') -> length ys = length l.
Proof.
  revert st st' ys. induction l as [|x l IH]; intros st st' ys H.
  - injection H as <- _. reflexivity.
  - cbn [mapM] in H. unfold bind at 1 in H.
    destruct (f x st) as [[y|e] st1]; [|discriminate H].
    unfold bind at 1 in H.
    destruct (mapM f l st1) as [[zs|e] st2] eqn:Hl; [|discriminate H].
    injection H as <- _. cbn. f_equal. exact (IH _ _ _ Hl).
Qed.

Lemma strip_opt_total (o : option str) (t : str) :
  o = Some t -> strip_opt o = Ret (strip t).
Proof. intros ->. reflexivity. Qed.

Lemma complex_record_parsed (text : str) (st : Solver)
    (subs : list Subproblem) (f_n : str) :
  fst (parse_recurrence text st)
  = Ret (Some (complex_divide_and_conquer subs f_n)) ->
  subs <> [] /\ f_n <> [] /\ Forall nonneg_subproblem subs.
Proof.
  unfold parse_recurrence.
  unfold bind at 1. cbn [steps_append modify].
  set (st1 := {| recurrence := recurrence st |}).
  destruct (re_match complex_divide_conquer_pattern text) as [m|] eqn:H1.
  - destruct (@finditer_finds_term _ _ H1) as (t_terms & Hg & Hfind).
    unfold bind, lift. rewrite Hg. cbn [strip_opt].
    destruct (strip_opt (group (m_groups m) 2)) as [f|]; [|discriminate].
    destruct (mapM parse_subproblem (finditer t_term_pattern (strip t_terms))
                st1) as [[ss|e] st2] eqn:Hsubs; [|discriminate].
    cbn. intro H. injection H as <- <-.
    pose proof (@parse_subproblems_nonneg _ _ _ _ Hsubs) as Hnn.
    apply mapM_length in Hsubs. split; [|split].
    + intros ->. destruct (finditer t_term_pattern (strip t_terms));
        [contradiction | discriminate Hsubs].
    + destruct f; discriminate.
    + exact Hnn.
  - destruct (re_match divide_conquer_pattern text) as [m|] eqn:H2.
    { exfalso. apply (@simple_within_complex text); [|exact H1].
      rewrite H2. discriminate. }
    destruct (re_match decrease_conquer_pattern text) as [m|] eqn:H3.
    + unfold bind, lift.
      destruct (int_opt (group (m_groups m) 1)) as [d|]; [|discriminate].
      destruct (strip_opt (group (m_groups m) 2)) as [f|]; [|discriminate].
      cbn. discriminate.
    + cbn. discriminate.
Qed.

(** ** The outcomes of the classifier *)

(** The ways in which [parse_fn_growth] ends. *)
Inductive classified : outcome (growth * pyval) -> Prop :=
| classified_constant : classified (Ret (constant, PyInt 0))
| classified_logarithmic : classified (Ret (logarithmic, PyInt 0))
| classified_n_log_default : classified (Ret (n_log, PyInt 1))
| classified_n_log x : classified (Ret (n_log, PyFloat x))
| classified_polynomial_default : classified (Ret (polynomial, PyInt 1))
| classified_polynomial x : classified (Ret (polynomial, PyFloat x))
| classified_unknown : classified (Ret (unknown, PyNone))
| classified_refused : classified (Raise ValueError).

Lemma py_float_raises (s : str) (e : exn) :
  py_float s = Raise e -> e = ValueError.
Proof.
  unfold py_float. destruct (split_point s) as [i f].
  repeat match goal with
         | |- match ?x with _ => _ end = _ -> _ => destruct x
         end; congruence.
Qed.

Lemma power_of_outcome (m : Match) :
  truthy (group (m_groups m) 1) = true ->
  (exists x, power_of m = Ret (PyFloat x)) \/ power_of m = Raise ValueError.
Proof.
  unfold power_of. destruct (group (m_groups m) 1) as [t|]; [|discriminate].
  intros _. destruct (py_float t) as [x|e] eqn:Hf.
  - left. exists x. reflexivity.
  - right. rewrite (@py_float_raises _ _ Hf). reflexivity.
Qed.

Section Classifier.
Variable P : Platform.

Lemma parse_fn_growth_classified (f_n : str) :
  classified (parse_fn_growth P f_n).
Proof.
  unfold parse_fn_growth.
  set (s := str_lower P (strip f_n)).
  assert (Hpow : forall (m : Match) (c : growth)
            (d : outcome (growth * pyval)),
            (c = n_log \/ c = polynomial) -> classified d ->
            classified
              (if truthy (group (m_groups m) 1)
               then match power_of m with
                    | Ret power => Ret (c, power)
                    | Raise e => Raise e
                    end
               else d)).
  { intros m c d Hc Hd.
    destruct (truthy (group (m_groups m) 1)) eqn:Ht; [|exact Hd].
    destruct (@power_of_outcome m Ht) as [[x ->] | ->];
      [destruct Hc as [-> | ->]; constructor | constructor]. }
  assert (Hnot : classified
            match re_search notation_pattern s with
            | Some m =>
              if truthy (group (m_groups m) 1)
              then match power_of m with
                   | Ret power => Ret (polynomial, power)
                   | Raise e => Raise e
                   end
              else Ret (polynomial, PyInt 1)
            | None => Ret (unknown, PyNone)
            end).
  { destruct (re_search notation_pattern s) as [m|]; [|constructor].
    apply Hpow; [right; reflexivity | constructor]. }
  destruct (_ || _ || _ || _ || _); [constructor|].
  destruct (_ || _).
  - destruct (_ || _); [|constructor].
    destruct (re_search power_pattern s) as [m|]; [|constructor].
    apply Hpow; [left; reflexivity | constructor].
  - destruct (contains (u "n") s); [|exact Hnot].
    assert (Hbare : classified
              (if negb (contains (u "n^") s) && negb (contains (u "n**") s)
                  && negb (contains (u "n *") s)
                  && negb (contains (u "n*") s)
               then Ret (polynomial, PyInt 1)
               else match re_search notation_pattern s with
                    | Some m =>
                      if truthy (group (m_groups m) 1)
                      then match power_of m with
                           | Ret power => Ret (polynomial, power)
                           | Raise e => Raise e
                           end
                      else Ret (polynomial, PyInt 1)
                    | None => Ret (unknown, PyNone)
                    end)).
    { destruct (_ && _ && _ && _); [constructor | exact Hnot]. }
    destruct (re_search power_pattern s) as [m|]; [|exact Hbare].
    apply Hpow; [right; reflexivity | exact Hbare].
Qed.







End Classifier.

(** X18.  Whatever the text and the platform, [parse_fn_growth] either
    raises [ValueError] (from [float], and nothing else) or returns one of
    five categories with a power that fits it: the integer 0 with
    ['constant'] and ['logarithmic'], the integer 1 or a float with
    ['n_log'] and ['polynomial'], and [None] with ['unknown'] only. *)
Theorem classifier_outcomes (P : Platform) (f_n : str) :
  match parse_fn_growth P f_n with
  | Ret (constant, p) | Ret (logarithmic, p) => p = PyInt 0
  | Ret (n_log, p) | Ret (polynomial, p) =>
    p = PyInt 1 \/ exists x, p = PyFloat x
  | Ret (unknown, p) => p = PyNone
  | Raise e => e = ValueError
  end.
Proof.
  destruct (parse_fn_growth_classified P f_n); try reflexivity;
    (left; reflexivity) || (right; eexists; reflexivity).
Qed.

(** X19.  Every complex record that [parse_recurrence] returns has at
    least one subproblem, and an f-text that is not empty: where the
    complex pattern matches, [finditer] finds a term in its first group.
    So [min] and [max] in [solve] are never given an empty sequence. *)
Theorem parsed_complex_has_subproblem (text : str) (st : Solver)
    (subs : list Subproblem) (f_n : str) :
  fst (parse_recurrence text st)
  = Ret (Some (complex_divide_and_conquer subs f_n)) ->
  subs <> [] /\ f_n <> [].
Proof.
  intro H. destruct (@complex_record_parsed _ _ _ _ H) as (Hs & Hf & _).
  split; assumption.
Qed.

Lemma parsed_complex_has_subproblem_witness :
  [{| sub_a := 1; sub_b := 2 |}; {| sub_a := 1; sub_b := 6 |}] <> []
  /\ u "n*log(n)" <> [].
Proof.
  apply (@parsed_complex_has_subproblem
           (u "T(n) = T(n/2) + T(n/6) + n*log(n)") init).
  vm_compute. reflexivity.
Defined.



(** ** The power that the classifier reads *)

(** The text of a number: digits, and perhaps a point and more digits. *)
Definition number_text (i : str) (p : option str) : str :=
  i ++ match p with Some j => ch "." :: j | None => [] end.

(** A text in which a number follows the first [n]: before the [n] there
    is no other; after it come a [^] or not, [**] or not, blanks, the
    number, and the text at which the number ends. *)
Record PowerText := {
  before : str;
  hat : bool;
  stars : bool;
  gap : str;
  whole : str;
  point : option str;
  after : str
}.

Definition number_of (t : PowerText) : str := number_text (whole t) (point t).

Definition tail_of (t : PowerText) : str :=
  (if hat t then [ch "^"] else [])
  ++ (if stars t then u "**" else [])
  ++ gap t ++ number_of t ++ after t.

Definition text_of (t : PowerText) : str := before t ++ ch "n" :: tail_of t.

Definition is_point (c : char) : bool := (c =? ch ".")%N.

Definition shaped (t : PowerText) : bool :=
  forallb (fun c => negb (c =? ch "n")%N) (before t)
  && forallb isspace (gap t) && forallb isdecimal (whole t)
  && match point t with
     | Some j => forallb isdecimal j && stops isdecimal (after t)
     | None => stops isdecimal (after t) && stops is_point (after t)
     end
  && match number_of t with [] => false | _ => true end.

Lemma decimal_not (a : char) (c : char) :
  isdecimal a = false -> isdecimal c = true -> (c =? a)%N = false.
Proof.
  intros Ha Hc. destruct (c =? a)%N eqn:E; [|reflexivity].
  apply N.eqb_eq in E. subst c. congruence.
Qed.

Lemma space_not (a : char) (c : char) :
  isspace a = false -> isspace c = true -> (c =? a)%N = false.
Proof.
  intros Ha Hc. destruct (c =? a)%N eqn:E; [|reflexivity].
  apply N.eqb_eq in E. subst c. congruence.
Qed.

Lemma decimal_not_space (c : char) : isdecimal c = true -> isspace c = false.
Proof.
  intro H. destruct (isspace c) eqn:Hs; [|reflexivity].
  apply isspace_not_decimal in Hs. congruence.
Qed.

(** The number opens with a digit or with the point. *)
Lemma number_opens (i : str) (p : option str) (s : str) (q : char -> bool) :
  forallb isdecimal i = true ->
  number_text i p <> [] ->
  (forall c, isdecimal c = true -> q c = false) ->
  q (ch ".") = false ->
  stops q (number_text i p ++ s) = true.
Proof.
  intros Hi Hne Hq Hp. unfold number_text in *.
  destruct i as [|c i].
  - destruct p as [j|]; [|contradiction]. cbn [app stops].
    rewrite Hp. reflexivity.
  - cbn [forallb] in Hi. apply andb_true_iff in Hi. destruct Hi as [Hc _].
    cbn [app stops]. rewrite (Hq c Hc). reflexivity.
Qed.

Section RunningPower.
Variable R : Type.
Implicit Types (k : cont R) (x : R).

Lemma exec_lit_stops (a : char) k (s : str) g :
  stops (fun c => (c =? a)%N) s = true -> exec (Lit a) k s g = None.
Proof.
  destruct s as [|c s]; [reflexivity|]. cbn. intro H.
  apply negb_true_iff in H. rewrite H. reflexivity.
Qed.

Lemma exec_lits_stops (a : char) (t : str) k (s : str) g :
  stops (fun c => (c =? a)%N) s = true -> exec (lits (a :: t)) k s g = None.
Proof.
  intro H. unfold lits. cbn [map seq fold_right]. cbn [exec].
  apply exec_lit_stops. exact H.
Qed.

(** The number pattern takes the whole number. *)
Lemma exec_number (i : str) (p : option str) (s : str) k g x :
  forallb isdecimal i = true ->
  match p with
  | Some j => forallb isdecimal j && stops isdecimal s
  | None => stops isdecimal s && stops is_point s
  end = true ->
  k s ((1%nat, number_text i p) :: g) = Some x ->
  exec number k (number_text i p ++ s) g = Some x.
Proof.
  intros Hi Hp Hk. unfold number. rewrite exec_grp.
  rewrite exec_seq_cons.
  set (K := fun (s' : str) (g' : groups) =>
              k s' ((1%nat,
                     firstn (length (number_text i p ++ s) - length s')
                       (number_text i p ++ s)) :: g')).
  assert (HK : K s g = Some x)
    by (unfold K; rewrite firstn_consumed; exact Hk).
  clearbody K. unfold number_text. rewrite <- app_assoc.
  destruct p as [j|].
  - apply andb_true_iff in Hp. destruct Hp as [Hj Hs]. cbn [app].
    apply exec_star_cls; [exact Hi | reflexivity |].
    rewrite exec_seq_cons. apply exec_opt_some.
    rewrite exec_lit_eq. rewrite exec_seq_cons.
    apply exec_star_cls; [exact Hj | exact Hs |].
    rewrite exec_seq_nil. exact HK.
  - apply andb_true_iff in Hp. destruct Hp as [Hs Hpt]. cbn [app].
    apply exec_star_cls; [exact Hi | exact Hs |].
    rewrite exec_seq_cons. rewrite exec_opt_none.
    + rewrite exec_seq_cons. unfold digit.
      rewrite exec_star_skip by exact Hs.
      rewrite exec_seq_nil. exact HK.
    + apply exec_lit_stops. exact Hpt.
Qed.
End RunningPower.

Lemma match_power (t : PowerText) :
  shaped t = true ->
  re_match power_pattern (ch "n" :: tail_of t)
  = Some {| m_groups := [(1%nat, number_of t)]; m_rest := after t |}.
Proof.
  unfold shaped. intro H.
  apply andb_true_iff in H. destruct H as [H Hnum].
  apply andb_true_iff in H. destruct H as [H Hpoint].
  apply andb_true_iff in H. destruct H as [H Hwhole].
  apply andb_true_iff in H. destruct H as [Hbefore Hgap].
  assert (Hne : number_of t <> []) by (destruct (number_of t); congruence).
  unfold re_match, power_pattern, tail_of.
  rewrite exec_seq_cons, exec_lit_eq.
  assert (H3 : forall q, (forall c, isdecimal c = true -> q c = false) ->
                         q (ch ".") = false ->
                         stops q (number_of t ++ after t) = true).
  { intros q Hq Hp. apply number_opens; assumption. }
  assert (H2 : forall a, isdecimal a = false -> isspace a = false ->
                         (ch "." =? a)%N = false ->
                         stops (fun c => (c =? a)%N)
                           (gap t ++ number_of t ++ after t) = true).
  { intros a Hd Hs Hp. destruct (gap t) as [|c w] eqn:Eg.
    - apply H3; [intros c Hc; apply (@decimal_not a c Hd Hc) | exact Hp].
    - cbn in Hgap. apply andb_true_iff in Hgap. destruct Hgap as [Hc _].
      cbn. rewrite (@space_not a c Hs Hc). reflexivity. }
  assert (Hrest : exec (seq [Star ws; number])
                    (fun s' g => Some {| m_groups := g; m_rest := s' |})
                    (gap t ++ number_of t ++ after t) []
                  = Some {| m_groups := [(1%nat, number_of t)];
                            m_rest := after t |}).
  { rewrite exec_seq_cons. apply exec_star_cls; [exact Hgap | |].
    - apply H3; [apply decimal_not_space | reflexivity].
    - rewrite exec_seq_cons.
      apply exec_number; [exact Hwhole | exact Hpoint | reflexivity]. }
  assert (Hstars : exec (seq [Opt (lits (u "**")); Star ws; number])
                    (fun s' g => Some {| m_groups := g; m_rest := s' |})
                    ((if stars t then u "**" else [])
                     ++ gap t ++ number_of t ++ after t) []
                  = Some {| m_groups := [(1%nat, number_of t)];
                            m_rest := after t |}).
  { rewrite exec_seq_cons. destruct (stars t).
    - apply exec_opt_some. rewrite exec_lits. exact Hrest.
    - cbn [app]. rewrite exec_opt_none; [exact Hrest|].
      change (u "**") with (ch "*" :: [ch "*"]).
      apply exec_lits_stops. apply H2; reflexivity. }
  rewrite exec_seq_cons. destruct (hat t).
  - apply exec_opt_some. cbn [app]. rewrite exec_lit_eq. exact Hstars.
  - cbn [app]. rewrite exec_opt_none; [exact Hstars|].
    apply exec_lit_stops. destruct (stars t); [reflexivity|].
    cbn [app]. apply H2; reflexivity.
Qed.

(** The search for the power pattern stops at the first [n]. *)
Lemma power_not_here (c : char) (s : str) :
  (c =? ch "n")%N = false -> re_match power_pattern (c :: s) = None.
Proof.
  intro H. unfold re_match, power_pattern. rewrite exec_seq_cons.
  cbn [exec]. rewrite H. reflexivity.
Qed.

Lemma search_power (t : PowerText) :
  shaped t = true ->
  re_search power_pattern (text_of t)
  = Some {| m_groups := [(1%nat, number_of t)]; m_rest := after t |}.
Proof.
  intro H. pose proof (match_power t H) as Hm.
  unfold shaped in H.
  apply andb_true_iff in H. destruct H as [H _].
  apply andb_true_iff in H. destruct H as [H _].
  apply andb_true_iff in H. destruct H as [H _].
  apply andb_true_iff in H. destruct H as [Hbefore _].
  unfold text_of. induction (before t) as [|c w IH].
  - apply re_search_here. exact Hm.
  - cbn [forallb] in Hbefore. apply andb_true_iff in Hbefore.
    destruct Hbefore as [Hc Hw]. apply negb_true_iff in Hc.
    cbn [app re_search]. rewrite (@power_not_here c _ Hc). apply IH, Hw.
Qed.

Lemma contains_mark (c : char) (w s : str) :
  contains [c] (w ++ c :: s) = true.
Proof.
  induction w as [|a w IH].
  - cbn. rewrite N.eqb_refl. reflexivity.
  - cbn [app contains]. rewrite IH. apply orb_true_r.
Qed.

Lemma text_of_has_n (t : PowerText) : contains (u "n") (text_of t) = true.
Proof. apply contains_mark. Qed.

Lemma contains_single (c : char) (s : str) :
  contains [c] s = true -> In c s.
Proof.
  induction s as [|a s IH]; [discriminate|].
  cbn [contains startswith]. intro H. apply orb_true_iff in H.
  destruct H as [H | H].
  - apply andb_true_iff in H. destruct H as [H _].
    apply N.eqb_eq in H. left. symmetry. exact H.
  - right. apply IH, H.
Qed.

Lemma str_eqb_eq (s t : str) : str_eqb s t = true -> s = t.
Proof. unfold str_eqb. destruct (list_eq_dec N.eq_dec s t); congruence. Qed.

(** A text in which an [n] occurs is none of the three that stand for a
    constant. *)
Lemma not_a_constant (s : str) :
  contains (u "n") s = true ->
  str_eqb s (u "1") || str_eqb s (u "o(1)") || str_eqb s (u "o(1)")
  || str_eqb s (u "θ(1)") = false.
Proof.
  intro H. apply contains_single in H.
  repeat (apply orb_false_iff; split);
    match goal with |- str_eqb s ?x = false =>
      destruct (str_eqb s x) eqn:E; [|reflexivity];
      apply str_eqb_eq in E; subst s; exfalso;
      cbn in H; repeat (destruct H as [H | H]; [discriminate H|]);
      exact H
    end.
Qed.

Section PowerRead.
Variable P : Platform.

Lemma power_read (f_n : str) (t : PowerText) :
  str_lower P (strip f_n) = text_of t ->
  shaped t = true ->
  contains (u "constant") (text_of t) = false ->
  (contains (u "log") (text_of t) || contains (u "ln") (text_of t) = true ->
   contains (u "n^") (text_of t) || contains (u "n**") (text_of t) = true) ->
  parse_fn_growth P f_n
  = match py_float (number_of t) with
    | Ret x =>
      Ret (if contains (u "log") (text_of t) || contains (u "ln") (text_of t)
           then n_log else polynomial, PyFloat x)
    | Raise e => Raise e
    end.
Proof.
  intros Hs Hshape Hconst Hlog. unfold parse_fn_growth. rewrite Hs.
  rewrite (not_a_constant _ (text_of_has_n t)), Hconst. cbn [orb].
  rewrite (search_power t Hshape). cbn [m_groups group Nat.eqb].
  assert (Htruthy : truthy (Some (number_of t)) = true).
  { unfold shaped in Hshape. apply andb_true_iff in Hshape.
    destruct Hshape as [_ Hn]. destruct (number_of t); [discriminate Hn|].
    reflexivity. }
  rewrite Htruthy. unfold power_of. cbn [m_groups group Nat.eqb].
  destruct (contains (u "log") (text_of t) || contains (u "ln") (text_of t)).
  - rewrite (Hlog eq_refl). destruct (py_float (number_of t)); reflexivity.
  - rewrite text_of_has_n. destruct (py_float (number_of t)); reflexivity.
Qed.
End PowerRead.

(** X21.  The power is read after the first [n] of the text, lower-cased
    and stripped, and nowhere else: when that [n] is followed by an
    optional [^], an optional [**], blanks, and then a number made of
    digits and at most one point, the power is what [float] makes of this
    number, and [ValueError] when [float] refuses it, as it does for a
    point alone.  Later terms play no part, and neither does the [^]: the
    digits may follow the [n] directly.  The category is ['n_log'] when
    [log] or [ln] occurs in the text, and ['polynomial'] otherwise. *)
Theorem power_after_first_n (P : Platform) (f_n : str) (t : PowerText) :
  str_lower P (strip f_n) = text_of t ->
  shaped t = true ->
  contains (u "constant") (text_of t) = false ->
  (contains (u "log") (text_of t) || contains (u "ln") (text_of t) = true ->
   contains (u "n^") (text_of t) || contains (u "n**") (text_of t) = true) ->
  parse_fn_growth P f_n
  = match py_float (number_of t) with
    | Ret x =>
      Ret (if contains (u "log") (text_of t) || contains (u "ln") (text_of t)
           then n_log else polynomial, PyFloat x)
    | Raise e => Raise e
    end.
Proof. apply power_read. Qed.

Lemma power_after_first_n_witness :
  parse_fn_growth reference (u " N^2 + n^3")
  = Ret (polynomial, PyFloat (of_Z 2)).
Proof.
  refine (eq_trans
    (@power_after_first_n reference (u " N^2 + n^3")
       {| before := []; hat := true; stars := false; gap := [];
          whole := u "2"; point := None; after := u " + n^3" |} _ _ _ _) _).
  - vm_compute. reflexivity.
  - vm_compute. reflexivity.
  - vm_compute. reflexivity.
  - vm_compute. intro H. discriminate H.
  - vm_compute. reflexivity.
Defined.

(** ** A refusal in the middle of [solve] *)

Section Refusal.
Variable P : Platform.


End Refusal.



(** ** Patterns that need a character *)

(** A pattern that matches no text in which [c] does not occur. *)
Fixpoint needs (c : char) (r : regex) : bool :=
  match r with
  | Lit a => (a =? c)%N
  | Cat r1 r2 => needs c r1 || needs c r2
  | Plus r1 | Grp _ r1 => needs c r1
  | Eps | Cls _ | Opt _ | Star _ => false
  end.

Lemma matches_needs (c : char) (r : regex) (s s' : str) (g g' : groups) :
  matches r s g s' g' -> needs c r = true ->
  exists w, s = w ++ s' /\ In c w.
Proof.
  intro H. induction H as
    [ s g | a s g | p a s g Hp
    | r1 r2 s g s1 g1 s2 g2 H1 IH1 H2 IH2
    | r s g s' g' H1 IH1 | r s g | r s g
    | r s g s1 g1 s2 g2 H1 IH1 Hlt H2 IH2
    | r s g s1 g1 s2 g2 H1 IH1 H2 IH2
    | i r s g s' g' H1 IH1 ]; cbn [needs]; intro Hn; try discriminate Hn.
  - apply N.eqb_eq in Hn. subst a. exists [c].
    split; [reflexivity | left; reflexivity].
  - destruct (matches_frame H1) as (w1 & E1 & _).
    destruct (matches_frame H2) as (w2 & E2 & _).
    apply orb_true_iff in Hn. destruct Hn as [Hn | Hn].
    + destruct (IH1 Hn) as (w & E & Hin). exists (w ++ w2). split.
      * rewrite E, E2 at 1. apply app_assoc.
      * apply in_or_app. left. exact Hin.
    + destruct (IH2 Hn) as (w & E & Hin). exists (w1 ++ w). split.
      * rewrite E1, E at 1. apply app_assoc.
      * apply in_or_app. right. exact Hin.
  - destruct (matches_frame H2) as (w2 & E2 & _).
    destruct (IH1 Hn) as (w & E & Hin). exists (w ++ w2). split.
    + rewrite E, E2 at 1. apply app_assoc.
    + apply in_or_app. left. exact Hin.
  - exact (IH1 Hn).
Qed.

Lemma re_search_found (r : regex) (s : str) (m : Match) :
  re_search r s = Some m ->
  exists pre t, s = pre ++ t /\ re_match r t = Some m.
Proof.
  induction s as [|a s IH]; cbn [re_search]; intro H.
  - destruct (re_match r []) as [m'|] eqn:E; [|discriminate H].
    injection H as <-. exists [], []. split; [reflexivity | exact E].
  - destruct (re_match r (a :: s)) as [m'|] eqn:E.
    + injection H as <-. exists [], (a :: s). split; [reflexivity | exact E].
    + destruct (IH H) as (pre & t & Es & Ht). exists (a :: pre), t.
      split; [rewrite Es; reflexivity | exact Ht].
Qed.

Lemma in_contains (c : char) (s : str) : In c s -> contains [c] s = true.
Proof.
  intro H. apply in_split in H. destruct H as (l1 & l2 & ->).
  apply contains_mark.
Qed.

(** A pattern that needs [c] is found only in a text in which [c]
    occurs. *)
Lemma search_needs (c : char) (r : regex) (s : str) :
  needs c r = true -> contains [c] s = false -> re_search r s = None.
Proof.
  intros Hn Hc. destruct (re_search r s) as [m|] eqn:E; [|reflexivity].
  exfalso. apply re_search_found in E. destruct E as (pre & t & Es & Ht).
  apply re_match_sound in Ht.
  destruct (@matches_needs c _ _ _ _ _ Ht Hn) as (w & Et & Hin).
  assert (Hs : In c s).
  { rewrite Es, Et. apply in_or_app. right. apply in_or_app. left. exact Hin. }
  apply in_contains in Hs. congruence.
Qed.

(** A text occurs only in a text in which each of its characters
    occurs. *)
Lemma contains_needs (c : char) (sub s : str) :
  In c sub -> contains [c] s = false -> contains sub s = false.
Proof.
  intros Hin Hc. destruct (contains sub s) eqn:E; [|reflexivity].
  exfalso. assert (Hs : In c s).
  { clear Hc. induction s as [|a s IH].
    - rewrite contains_nil in E. apply startswith_iff in E.
      destruct E as [t E]. destruct sub; [contradiction | discriminate E].
    - rewrite contains_cons in E. apply orb_true_iff in E.
      destruct E as [E | E].
      + apply startswith_iff in E. destruct E as [t ->].
        apply in_or_app. left. exact Hin.
      + right. apply IH, E. }
  apply in_contains in Hs. congruence.
Qed.

(** ** The classifier on a text without [n] *)

Section WithoutN.
Variable P : Platform.

Lemma growth_without_n (f_n : str) :
  contains (u "n") (str_lower P (strip f_n)) = false ->
  parse_fn_growth P f_n
  = let s := str_lower P (strip f_n) in
    if str_eqb s (u "1") || str_eqb s (u "o(1)") || str_eqb s (u "θ(1)")
    then Ret (constant, PyInt 0)
    else if contains (u "log") s then Ret (logarithmic, PyInt 0)
    else Ret (unknown, PyNone).
Proof.
  intro Hn. unfold parse_fn_growth. cbv zeta.
  set (s := str_lower P (strip f_n)) in *.
  change (u "n") with [ch "n"] in Hn.
  assert (Hsub : forall sub, In (ch "n") sub -> contains sub s = false)
    by (intros sub Hin; exact (@contains_needs _ _ _ Hin Hn)).
  rewrite (Hsub (u "constant")) by (vm_compute; tauto).
  rewrite (Hsub (u "ln")) by (vm_compute; tauto).
  rewrite (Hsub (u "n^")) by (vm_compute; tauto).
  rewrite (Hsub (u "n**")) by (vm_compute; tauto).
  change (contains (u "n") s) with (contains [ch "n"] s). rewrite Hn.
  rewrite (@search_needs (ch "n") notation_pattern s eq_refl Hn).
  rewrite !orb_false_r.
  destruct (str_eqb s (u "1")); [reflexivity|].
  destruct (str_eqb s (u "o(1)")); [reflexivity|].
  destruct (str_eqb s (u "θ(1)")); [reflexivity|].
  cbn [orb]. destruct (contains (u "log") s); reflexivity.
Qed.
End WithoutN.

(** X23.  A text in which, once stripped and lower-cased, no [n] occurs
    never gets a power, and never makes the classifier raise: it is
    ['constant'] only when it is exactly [1], [o(1)] or [θ(1)],
    ['logarithmic'] when [log] occurs in it, and ['unknown'] otherwise.
    So a constant written as any other number is not recognised, and the
    notation pattern, which needs [(n], cannot help. *)
Theorem classifier_without_n (P : Platform) (f_n : str) :
  contains (u "n") (str_lower P (strip f_n)) = false ->
  parse_fn_growth P f_n
  = let s := str_lower P (strip f_n) in
    if str_eqb s (u "1") || str_eqb s (u "o(1)") || str_eqb s (u "θ(1)")
    then Ret (constant, PyInt 0)
    else if contains (u "log") s then Ret (logarithmic, PyInt 0)
    else Ret (unknown, PyNone).
Proof. apply growth_without_n. Qed.

Lemma classifier_without_n_witness :
  parse_fn_growth reference (u "2") = Ret (unknown, PyNone).
Proof.
  refine (eq_trans (@classifier_without_n reference (u "2") _) _).
  - vm_compute. reflexivity.
  - vm_compute. reflexivity.
Defined.

(** ** The curve that [plot_growth] draws *)

(** The five curves among which [plot_growth] chooses (lines 319 to 337):
    the choice is made on [self.solution] alone. *)
Inductive curve :=
| n_log_n_curve
| n_squared_curve
| linear_curve
| log_curve
| power_curve (power : pyval).

(** The pattern of line 333: [n], an optional [^], and the number. *)
Definition plot_pattern : regex :=
  seq [Lit (ch "n"); Opt (Lit (ch "^")); number].

Section Plot.
Variable P : Platform.

(** The curve handed to [plt.plot], if any; [in] on a solution that is
    [None] raises [TypeError]. *)
Definition plot_growth_curve (solution : option str)
  : outcome (option curve) :=
  match solution with
  | None => Raise TypeError
  | Some s =>
    if contains (u "n log n") s then Ret (Some n_log_n_curve)
    else if contains (u "n²") s || contains (u "n^2") s
    then Ret (Some n_squared_curve)
    else if contains (u "n") s && negb (contains (u "log") s)
    then Ret (Some linear_curve)
    else if contains (u "log") (str_lower P s) then Ret (Some log_curve)
    else if contains (u "^") s then
      match re_search plot_pattern s with
      | Some m =>
        if truthy (group (m_groups m) 1) then
          match power_of m with
          | Ret power => Ret (Some (power_curve power))
          | Raise e => Raise e
          end
        else Ret (Some (power_curve (PyInt 1)))
      | None => Ret None
      end
    else Ret None
  end.

(** Lower case letters stay as they are, on every platform that Python
    runs on. *)
Hypothesis lower_keeps_log :
  forall s, contains (u "log") s = true ->
            contains (u "log") (str_lower P s) = true.

Lemma plot_growth_curve_cases (s : str) :
  match plot_growth_curve (Some s) with
  | Ret (Some (power_curve _)) => False
  | Ret (Some _) => True
  | Ret None => contains (u "n") s = false /\ contains (u "log") s = false
  | Raise _ => False
  end.
Proof.
  unfold plot_growth_curve.
  destruct (contains (u "n log n") s); [exact I|].
  destruct (contains (u "n²") s || contains (u "n^2") s); [exact I|].
  destruct (contains (u "n") s) eqn:Hn; cbn [andb].
  - destruct (contains (u "log") s) eqn:Hl; cbn [negb]; [|exact I].
    rewrite (lower_keeps_log s Hl). exact I.
  - destruct (contains (u "log") (str_lower P s)) eqn:Hl; [exact I|].
    assert (Hlog : contains (u "log") s = false).
    { destruct (contains (u "log") s) eqn:E; [|reflexivity].
      rewrite (lower_keeps_log s E) in Hl. discriminate Hl. }
    rewrite (@search_needs (ch "n") plot_pattern s eq_refl Hn).
    destruct (contains (u "^") s); split; reflexivity || exact Hlog.
Qed.
End Plot.

(** The reference platform keeps lower case letters. *)
Lemma lower_char_fixed (p s : str) :
  forallb (fun c => (lower_char c =? c)%N) p = true ->
  startswith p s = true -> startswith p (map lower_char s) = true.
Proof.
  revert s. induction p as [|a p IH]; intros s Hp H; [reflexivity|].
  destruct s as [|b s]; [discriminate H|].
  cbn [forallb] in Hp. apply andb_true_iff in Hp. destruct Hp as [Ha Hp].
  cbn [startswith] in H. apply andb_true_iff in H. destruct H as [Hab H].
  apply N.eqb_eq in Hab. subst b. apply N.eqb_eq in Ha.
  cbn [map startswith]. rewrite Ha, N.eqb_refl. cbn [andb].
  apply IH; assumption.
Qed.

Lemma reference_keeps (p s : str) :
  forallb (fun c => (lower_char c =? c)%N) p = true ->
  contains p s = true -> contains p (str_lower reference s) = true.
Proof.
  intros Hp. cbn [str_lower reference]. induction s as [|b s IH]; intro H.
  - rewrite contains_nil in *. exact (@lower_char_fixed p [] Hp H).
  - rewrite contains_cons in H. apply orb_true_iff in H.
    cbn [map]. rewrite contains_cons. apply orb_true_iff.
    destruct H as [H | H].
    + left. exact (@lower_char_fixed p (b :: s) Hp H).
    + right. apply IH, H.
Qed.

(** X24.  [plot_growth] never draws the curve of its last branch, the
    power read from the solution, and never reaches the [float] of that
    branch: the pattern needs an [n], and a solution in which [n] occurs
    is drawn as [n log n], as [n²], as a straight line, or, when [log]
    occurs in it, as [log n].  Nothing is drawn only for a solution in
    which neither [n] nor [log] occurs.  This holds on every platform
    whose [lower] keeps the letters of [log]. *)
Theorem plot_never_draws_power (P : Platform) (s : str) :
  (forall t, contains (u "log") t = true ->
             contains (u "log") (str_lower P t) = true) ->
  match plot_growth_curve P (Some s) with
  | Ret (Some (power_curve _)) => False
  | Ret (Some _) => True
  | Ret None => contains (u "n") s = false /\ contains (u "log") s = false
  | Raise _ => False
  end.
Proof. intro H. apply plot_growth_curve_cases. exact H. Qed.

Lemma plot_never_draws_power_witness :
  match plot_growth_curve reference (Some (u "Θ(n^1.5849625007211563)")) with
  | Ret (Some (power_curve _)) => False
  | Ret (Some _) => True
  | Ret None =>
    contains (u "n") (u "Θ(n^1.5849625007211563)") = false
    /\ contains (u "log") (u "Θ(n^1.5849625007211563)") = false
  | Raise _ => False
  end.
Proof.
  apply (@plot_never_draws_power reference (u "Θ(n^1.5849625007211563)")).
  intros t H. apply reference_keeps; [reflexivity | exact H].
Defined.
